(** * Manta: SV locus graph, assembler configuration and jump aligner

    A shallow embedding of
      - [SVLocus] and its node, edge and interval types (locus graph),
      - the default configuration of [SVLocusAssembler],
      - [GlobalJumpAligner::align] (two-reference affine-gap aligner),
      - [matchifyEdgeSegmentType] and [matchifyEdgeSoftClipRefRange] of
        SimpleAlignment.cpp,
    followed by the properties established about them. *)

From Stdlib Require Import ZArith NArith List Lia Bool Ascii QArith.
From stdpp Require Import gmap list fin_maps sorting.

Local Open Scope Z_scope.

(* ===================================================================== *)
(** ** Locus graph (SVLocus.hh)                                           *)
(* ===================================================================== *)

Module Locus.

(** [typedef unsigned NodeIndexType; typedef unsigned LocusIndexType;]
    32-bit unsigned values, kept in [N] with the wrap-around written out. *)
Abbreviation NodeIndexType := N (only parsing).
Abbreviation LocusIndexType := N (only parsing).

Definition wrap32 (n : N) : N := (n mod 2 ^ 32)%N.
Definition wrap16 (n : N) : N := (n mod 2 ^ 16)%N.

(** [std::numeric_limits<NodeIndexType>::max()] *)
Definition maxIndex : N := (2 ^ 32 - 1)%N.

(** Modelled from the spec: [known_pos_range] of blt_util/pos_range.hh is a
    half-open range [begin, end) of positions; [set_range] stores both ends. *)
Record known_pos_range := mk_range { begin_pos : Z; end_pos : Z }.

Definition set_range (b e : Z) (_ : known_pos_range) : known_pos_range :=
  mk_range b e.

Record GenomeInterval := mk_interval { tid : Z; range : known_pos_range }.

(** [GenomeInterval(initTid = 0, beginPos = 0, endPos = 0)] *)
Definition GenomeInterval_default : GenomeInterval :=
  mk_interval 0 (mk_range 0 0).

(** [unsigned short count] *)
Record SVLocusEdge := mk_edge { edge_count : N }.

(** [SVLocusEdge(const unsigned init_count = 0) : count(init_count)] *)
Definition SVLocusEdge_init (init_count : N) : SVLocusEdge :=
  mk_edge (wrap16 init_count).

Record SVLocusNode := mk_node {
  node_count : N;
  interval : GenomeInterval;
  edges : gmap N SVLocusEdge
}.

(** [SVLocusNode() : count(0)] *)
Definition SVLocusNode_default : SVLocusNode :=
  mk_node 0 GenomeInterval_default ∅.

(** [std::map::insert]: the pair is stored only when the key is absent. *)
Definition map_insert (k : N) (e : SVLocusEdge) (m : gmap N SVLocusEdge)
  : gmap N SVLocusEdge :=
  match m !! k with
  | Some _ => m
  | None => <[k := e]> m
  end.

Definition key_le (p q : N * SVLocusEdge) : Prop := (p.1 <= q.1)%N.

#[global] Instance key_le_dec : RelDecision key_le.
Proof. intros p q. unfold key_le. apply _. Defined.

(** Iteration over a [std::map] visits the pairs in increasing key order. *)
Definition map_items (m : gmap N SVLocusEdge) : list (N * SVLocusEdge) :=
  merge_sort key_le (map_to_list m).

(** [SVLocusNode(const SVLocusNode& in, const unsigned offset)]: the copy
    constructor that offsets every edge target. *)
Definition SVLocusNode_copy (fromNode : SVLocusNode) (offset : N) : SVLocusNode :=
  mk_node (node_count fromNode) (interval fromNode)
    (fold_left (fun acc val => map_insert (wrap32 (val.1 + offset)) val.2 acc)
               (map_items (edges fromNode)) ∅).

(** [typedef std::pair<bool, std::pair<LocusIndexType,NodeIndexType> >
    SVLocusNodeMoveMessage] *)
Definition SVLocusNodeMoveMessage : Type := bool * (LocusIndexType * NodeIndexType).

(** Modelled from the spec: [notifier<SVLocusNodeMoveMessage>] of
    blt_util/observer.hh is the notification channel; [notify_observers]
    delivers a message synchronously, so the channel is the sequence of
    messages emitted so far. *)
Record SVLocus := mk_locus {
  _graph : list SVLocusNode;
  _index : LocusIndexType;
  notified : list SVLocusNodeMoveMessage
}.

(** [SVLocus(const LocusIndexType index = 0)] *)
Definition SVLocus_init (index : LocusIndexType) : SVLocus :=
  mk_locus [] index [].

(** Member functions thread the object through; a failed [assert] halts at
    the state reached. *)
Inductive outcome (A : Type) : Type :=
| Ok (a : A) (s : SVLocus)
| Halt (s : SVLocus).
Arguments Ok {A} a s.
Arguments Halt {A} s.

Definition M (A : Type) : Type := SVLocus -> outcome A.

Definition ret {A} (a : A) : M A := fun s => Ok a s.

Definition bind {A B} (m : M A) (k : A -> M B) : M B :=
  fun s => match m s with
           | Ok a s' => k a s'
           | Halt s' => Halt s'
           end.

Notation "x <~ m ;; k" := (bind m (fun x => k))
  (at level 63, m at next level, right associativity).
Notation "m ;;; k" := (bind m (fun _ => k))
  (at level 63, right associativity).

Definition assert (b : bool) : M unit :=
  fun s => if b then Ok tt s else Halt s.

Definition notify_observers (msg : SVLocusNodeMoveMessage) : M unit :=
  fun s => Ok tt (mk_locus (_graph s) (_index s) (notified s ++ [msg])).

Definition set_graph (g : list SVLocusNode) : M unit :=
  fun s => Ok tt (mk_locus g (_index s) (notified s)).

Definition empty (s : SVLocus) : bool :=
  match _graph s with [] => true | _ => false end.

(** [unsigned size() const { return _graph.size(); }] *)
Definition size (s : SVLocus) : N := wrap32 (N.of_nat (length (_graph s))).

Definition updateIndex (index : LocusIndexType) : M unit :=
  fun s => Ok tt (mk_locus (_graph s) index (notified s)).

(** [getNode]: [assert(nodePtr<_graph.size())], then the element. *)
Definition getNode (nodePtr : NodeIndexType) : M SVLocusNode :=
  fun s => match _graph s !! N.to_nat nodePtr with
           | Some node => Ok node s
           | None => Halt s
           end.

(** A write through the reference returned by [getNode]. *)
Definition setNode (nodePtr : NodeIndexType) (node : SVLocusNode) : M unit :=
  fun s => set_graph (<[N.to_nat nodePtr := node]> (_graph s)) s.

Definition notifyAdd (nodePtr : NodeIndexType) : M unit :=
  fun s => notify_observers (true, (_index s, nodePtr)) s.

Definition notifyDelete (nodePtr : NodeIndexType) : M unit :=
  fun s => notify_observers (false, (_index s, nodePtr)) s.

Definition newGraphNode : M NodeIndexType :=
  fun s =>
    let index := wrap32 (N.of_nat (length (_graph s))) in
    (assert (index <? maxIndex)%N ;;;
     set_graph (resize (N.to_nat (index + 1)) SVLocusNode_default (_graph s)) ;;;
     ret index) s.

Definition addNode (tid beginPos endPos : Z) : M NodeIndexType :=
  nodePtr <~ newGraphNode ;;
  node <~ getNode nodePtr ;;
  setNode nodePtr
    (mk_node (wrap16 (node_count node + 1))
             (mk_interval tid (set_range beginPos endPos (range (interval node))))
             (edges node)) ;;;
  notifyAdd nodePtr ;;;
  ret nodePtr.

(** [node.edges.insert(std::make_pair(target, SVLocusEdge(1)))] on the node
    currently stored at [nodePtr]. *)
Definition insertEdge (nodePtr target : NodeIndexType) : M unit :=
  node <~ getNode nodePtr ;;
  setNode nodePtr
    (mk_node (node_count node) (interval node)
             (map_insert target (SVLocusEdge_init 1) (edges node))).

(** [node1] and [node2] are references into [_graph]; they alias when the
    two indices are equal, so the second insert sees the first. *)
Definition linkNodes (nodePtr1 nodePtr2 : NodeIndexType) : M unit :=
  node1 <~ getNode nodePtr1 ;;
  node2 <~ getNode nodePtr2 ;;
  assert (bool_decide (edges node1 !! nodePtr2 = None)) ;;;
  assert (bool_decide (edges node2 !! nodePtr1 = None)) ;;;
  insertEdge nodePtr1 nodePtr2 ;;;
  insertEdge nodePtr2 nodePtr1.

Fixpoint copyNodes (fromNodes : list SVLocusNode) (offset : N) : M unit :=
  match fromNodes with
  | [] => ret tt
  | fromNode :: rest =>
      nodeIndex <~ newGraphNode ;;
      _node <~ getNode nodeIndex ;;
      setNode nodeIndex (SVLocusNode_copy fromNode offset) ;;;
      notifyAdd nodeIndex ;;;
      copyNodes rest offset
  end.

(** [copyLocus].  [fromLocus] is another object than [this]
    ([assert(&fromLocus != this)]): it is read, never written. *)
Definition copyLocus (fromLocus : SVLocus) : M unit :=
  fun s =>
    let offset := wrap32 (N.of_nat (length (_graph s))) in
    copyNodes (_graph fromLocus) offset s.

Fixpoint notifyDeletes (idxs : list nat) : M unit :=
  match idxs with
  | [] => ret tt
  | i :: rest => notifyDelete (N.of_nat i) ;;; notifyDeletes rest
  end.

(** [for(NodeIndexType i(0);i<size();++i) notifyDelete(i); _graph.clear();] *)
Definition clear : M unit :=
  fun s => (notifyDeletes (seq 0 (N.to_nat (size s))) ;;; set_graph []) s.

(** *** Serialization

    The [serialize] members list the fields in archive order.  The archive is
    the sequence of numbers a text archive holds; a collection is stored as
    its element count followed by its elements. *)
Abbreviation archive := (list Z) (only parsing).

(** Modelled from the spec: a range is archived as its begin and its end. *)
Definition save_range (r : known_pos_range) : archive :=
  [begin_pos r; end_pos r].

(** [ar & tid & range] *)
Definition save_interval (gi : GenomeInterval) : archive :=
  tid gi :: save_range (range gi).

(** [ar & count] *)
Definition save_edge (e : SVLocusEdge) : archive := [Z.of_N (edge_count e)].

Definition save_edges (m : gmap N SVLocusEdge) : archive :=
  Z.of_nat (length (map_items m))
    :: flat_map (fun val => Z.of_N val.1 :: save_edge val.2) (map_items m).

(** [ar & count & interval & edges] *)
Definition save_node (n : SVLocusNode) : archive :=
  Z.of_N (node_count n) :: save_interval (interval n) ++ save_edges (edges n).

Definition save_graph (g : list SVLocusNode) : archive :=
  Z.of_nat (length g) :: flat_map save_node g.

(** [save]: [ar << _graph] *)
Definition save (s : SVLocus) : archive := save_graph (_graph s).

Definition load_range (ar : archive) : option (known_pos_range * archive) :=
  match ar with
  | b :: e :: ar' => Some (mk_range b e, ar')
  | _ => None
  end.

Definition load_interval (ar : archive) : option (GenomeInterval * archive) :=
  match ar with
  | t :: ar' =>
      match load_range ar' with
      | Some (r, ar'') => Some (mk_interval t r, ar'')
      | None => None
      end
  | [] => None
  end.

Definition load_edge (ar : archive) : option (SVLocusEdge * archive) :=
  match ar with
  | c :: ar' => Some (mk_edge (Z.to_N c), ar')
  | [] => None
  end.

Fixpoint load_edges_items (n : nat) (acc : gmap N SVLocusEdge) (ar : archive)
  : option (gmap N SVLocusEdge * archive) :=
  match n with
  | O => Some (acc, ar)
  | S n' =>
      match ar with
      | k :: ar' =>
          match load_edge ar' with
          | Some (e, ar'') => load_edges_items n' (map_insert (Z.to_N k) e acc) ar''
          | None => None
          end
      | [] => None
      end
  end.

Definition load_edges (ar : archive) : option (gmap N SVLocusEdge * archive) :=
  match ar with
  | c :: ar' => load_edges_items (Z.to_nat c) ∅ ar'
  | [] => None
  end.

Definition load_node (ar : archive) : option (SVLocusNode * archive) :=
  match ar with
  | c :: ar' =>
      match load_interval ar' with
      | Some (gi, ar'') =>
          match load_edges ar'' with
          | Some (m, ar''') => Some (mk_node (Z.to_N c) gi m, ar''')
          | None => None
          end
      | None => None
      end
  | [] => None
  end.

Fixpoint load_nodes (n : nat) (ar : archive) : option (list SVLocusNode * archive) :=
  match n with
  | O => Some ([], ar)
  | S n' =>
      match load_node ar with
      | Some (node, ar') =>
          match load_nodes n' ar' with
          | Some (nodes, ar'') => Some (node :: nodes, ar'')
          | None => None
          end
      | None => None
      end
  end.

Definition load_graph (ar : archive) : option (list SVLocusNode * archive) :=
  match ar with
  | c :: ar' => load_nodes (Z.to_nat c) ar'
  | [] => None
  end.

(** [load]: [clear(); ar >> _graph;].  What the archive class does when
    the archive ends before the graph is complete is not in the sources:
    [Halt] stands for a read that gives no graph, and nothing is stated
    about that case. *)
Definition load (ar : archive) : M unit :=
  clear ;;;
  (fun s => match load_graph ar with
            | Some (g, _) => set_graph g s
            | None => Halt s
            end).

(** *** Intervals and edges *)

Section RangeOperations.

(** [is_range_intersect], [operator<] and [operator==] of [known_pos_range]
    are declared in blt_util/pos_range.hh; they are parameters here. *)
Variable is_range_intersect : known_pos_range -> known_pos_range -> bool.
Variable range_lt : known_pos_range -> known_pos_range -> bool.
Variable range_eq : known_pos_range -> known_pos_range -> bool.

(** [GenomeInterval::isIntersect] *)
Definition isIntersect (this gi : GenomeInterval) : bool :=
  if negb (tid this =? tid gi) then false
  else is_range_intersect (range this) (range gi).

(** [GenomeInterval::operator<] *)
Definition GenomeInterval_lt (this rhs : GenomeInterval) : bool :=
  if tid this <? tid rhs then true
  else if tid this =? tid rhs then range_lt (range this) (range rhs)
  else false.

(** [GenomeInterval::operator==] *)
Definition GenomeInterval_eq (this rhs : GenomeInterval) : bool :=
  (tid this =? tid rhs) && range_eq (range this) (range rhs).

End RangeOperations.

(** [SVLocusEdge::mergeEdge]: [count += edge.count] on [unsigned short]. *)
Definition mergeEdge (this edge : SVLocusEdge) : SVLocusEdge :=
  mk_edge (wrap16 (edge_count this + edge_count edge)).

End Locus.

(* ===================================================================== *)
(** ** Assembler configuration (SVLocusAssembler.hh)                      *)
(* ===================================================================== *)

Module Assembler.

(** The data members of [SVLocusAssembler].  [maxError_] is a [double]; it is
    kept as the decimal literal the constructor gives it. *)
Record SVLocusAssembler := mk_assembler {
  wordLength_ : N;
  maxWordLength_ : N;
  minContigLength_ : N;
  minCoverage_ : N;
  maxError_ : Q;
  minSeedReads_ : N;
  maxAssemblyIterations_ : N
}.

(** [SVLocusAssembler()] *)
Definition SVLocusAssembler_init : SVLocusAssembler :=
  mk_assembler 37 65 15 1 (2 # 10) 2 50.

End Assembler.

(* ===================================================================== *)
(** ** Jump aligner (GlobalJumpAlignerImpl.hh)                            *)
(* ===================================================================== *)

Module JumpAligner.

(** Modelled from the spec: the DP states of AlignState.hh,
    [{MATCH, INSERT, DELETE, JUMP}], in the order the aligner passes their
    scores to [max3]/[max4]. *)
Module AlignState.
Inductive index_t := MATCH | DELETE | INSERT | JUMP.
End AlignState.

(** Modelled from the spec: the segment types of an alignment path
    ([{MATCH, INSERT, DELETE, SOFT_CLIP}]) and [NONE], the type of a segment
    not yet begun; a default segment is [{NONE, 0}]. *)
Module ALIGNPATH.
Inductive align_t := NONE | MATCH | INSERT | DELETE | SOFT_CLIP.
#[global] Instance align_t_eq_dec : EqDecision align_t.
Proof. solve_decision. Defined.
Record path_segment := mk_segment { type : align_t; length : nat }.
Abbreviation path_t := (list path_segment) (only parsing).
End ALIGNPATH.

(** [AlignmentScores<ScoreType>], with [ScoreType] the type [int]. *)
Module AlignmentScores.
Record t := mk { match_ : Z; mismatch : Z; open : Z; extend : Z }.
End AlignmentScores.

(** Modelled from the spec: a DP cell is a record {match, insert, delete,
    jump} of scores, with a parallel record of predecessor states. *)
Module ScoreVal.
Record t := mk { match_ : Z; del : Z; ins : Z; jump : Z }.
End ScoreVal.

Module PtrVal.
Record t := mk { match_ : AlignState.index_t; del : AlignState.index_t;
                 ins : AlignState.index_t; jump : AlignState.index_t }.
Definition get (p : t) (i : AlignState.index_t) : AlignState.index_t :=
  match i with
  | AlignState.MATCH => match_ p
  | AlignState.DELETE => del p
  | AlignState.INSERT => ins p
  | AlignState.JUMP => jump p
  end.
End PtrVal.

Abbreviation ScoreVec := (list ScoreVal.t) (only parsing).

(** A pointer matrix, indexed by reference row and then by query column;
    row 0 and column 0 are never written. *)
Abbreviation PtrMat := (list (list PtrVal.t)) (only parsing).

(** Modelled from the spec: the cell types are plain records of scores and
    of states, so a cell that a [resize] has created and nothing has written
    yet is value-initialised: every score 0, every state the first one. *)
Definition ScoreVal_fresh : ScoreVal.t := ScoreVal.mk 0 0 0 0.
Definition PtrVal_fresh : PtrVal.t :=
  PtrVal.mk AlignState.MATCH AlignState.MATCH AlignState.MATCH AlignState.MATCH.

(** [_ptrMat.val(queryIndex, refIndex)]; no cell outside the matrix. *)
Definition val (m : PtrMat) (queryIndex refIndex : nat) : option PtrVal.t :=
  match m !! refIndex with
  | Some row => row !! queryIndex
  | None => None
  end.

(** Modelled from the spec: [max3] and [max4] of AlignerUtil.hh store the
    best of the scores and return the state it comes from; a later score
    replaces an earlier one only when strictly greater. *)
Definition max3 (v0 v1 v2 : Z) : Z * AlignState.index_t :=
  let mp := if v0 <? v1 then (v1, AlignState.DELETE) else (v0, AlignState.MATCH) in
  if fst mp <? v2 then (v2, AlignState.INSERT) else mp.

Definition max4 (v0 v1 v2 v3 : Z) : Z * AlignState.index_t :=
  let mp := max3 v0 v1 v2 in
  if fst mp <? v3 then (v3, AlignState.JUMP) else mp.

(** Modelled from the spec: [AlignerUtil::updatePath] coalesces consecutive
    segments of one type: a change of type stores the segment in progress
    and begins an empty one of the new type. *)
Definition updatePath (path : ALIGNPATH.path_t) (ps : ALIGNPATH.path_segment)
    (atype : ALIGNPATH.align_t) : ALIGNPATH.path_t * ALIGNPATH.path_segment :=
  if bool_decide (ALIGNPATH.type ps = atype) then (path, ps)
  else
    (if bool_decide (ALIGNPATH.type ps = ALIGNPATH.NONE) then path else path ++ [ps],
     ALIGNPATH.mk_segment atype 0).

Record BackTrace := mk_bt {
  max : Z;
  state : AlignState.index_t;
  queryStart : nat;
  refStart : nat;
  isInit : bool
}.

(** [BackTrace()] *)
Definition BackTrace_init : BackTrace := mk_bt 0 AlignState.MATCH 0 0 false.

Definition badVal : Z := -10000.

(** A value stored in a [ScoreType] after unsigned arithmetic: the product
    of an [unsigned] or [size_t] index and a score is computed modulo a
    power of two and converted to the 32-bit signed [int]. *)
Definition wrapScore (z : Z) : Z := (z + 2 ^ 31) mod 2 ^ 32 - 2 ^ 31.

Section Align.

Variable scores : AlignmentScores.t.
Variable jumpScore : Z.
Variable query : list ascii.

Let querySize := length query.

(** The loops that give every cell of [thisSV] its boundary value. *)
Definition boundaryRow : ScoreVec :=
  map (fun queryIndex =>
         ScoreVal.mk (wrapScore (Z.of_nat queryIndex
                                 * AlignmentScores.mismatch scores))
                     badVal badVal badVal)
      (seq 0 (querySize + 1)).

(** [thisSV[0]] after [match = 0; del = badVal; ins = badVal]; its jump
    score is left as it was. *)
Definition startCell (thisSV : ScoreVec) : ScoreVal.t :=
  ScoreVal.mk 0 badVal badVal (ScoreVal.jump (hd ScoreVal_fresh thisSV)).

Definition symScore (q r : ascii) : Z :=
  if Ascii.eqb q r then AlignmentScores.match_ scores
  else AlignmentScores.mismatch scores.

(** One cell of pass 1.  [diag] is [prevSV[queryIndex]], [up] is
    [prevSV[queryIndex+1]] and [left] is [thisSV[queryIndex]]. *)
Definition cell1 (q r : ascii) (diag up left : ScoreVal.t) : ScoreVal.t * PtrVal.t :=
  (* update match matrix *)
  let m := max3 (ScoreVal.match_ diag) (ScoreVal.del diag) (ScoreVal.ins diag) in
  let hmatch := fst m + symScore q r in
  (* update delete *)
  let d := max3 (ScoreVal.match_ up + AlignmentScores.open scores)
                (ScoreVal.del up) (ScoreVal.ins up) in
  let hdel := fst d + AlignmentScores.extend scores in
  (* update insert *)
  let i := max3 (ScoreVal.match_ left + AlignmentScores.open scores)
                (ScoreVal.del left) (ScoreVal.ins left) in
  let hins := fst i + AlignmentScores.extend scores in
  (* update jump *)
  let j := max4 (ScoreVal.match_ up + jumpScore) badVal
                (ScoreVal.ins up + jumpScore) (ScoreVal.jump up) in
  let hdel' := hdel + AlignmentScores.extend scores in
  (ScoreVal.mk hmatch hdel' hins (fst j),
   PtrVal.mk (snd m) (snd d) (snd i) (snd j)).

(** One cell of pass 2. *)
Definition cell2 (q r : ascii) (diag up left : ScoreVal.t) : ScoreVal.t * PtrVal.t :=
  (* update match matrix *)
  let m := max4 (ScoreVal.match_ diag) (ScoreVal.del diag) (ScoreVal.ins diag)
                (ScoreVal.jump diag) in
  let hmatch := fst m + symScore q r in
  (* update delete *)
  let d := max3 (ScoreVal.match_ up + AlignmentScores.open scores)
                (ScoreVal.del up) (ScoreVal.ins up) in
  let hdel := fst d + AlignmentScores.extend scores in
  (* update insert *)
  let i := max4 (ScoreVal.match_ left + AlignmentScores.open scores)
                (ScoreVal.del left) (ScoreVal.ins left) (ScoreVal.jump left) in
  let hins := fst i + AlignmentScores.extend scores in
  (* update jump *)
  (ScoreVal.mk hmatch hdel hins (ScoreVal.jump up),
   PtrVal.mk (snd m) (snd d) (snd i) AlignState.JUMP).

(** The loop over the query for one reference symbol [r]: [prevSV] is read
    from [queryIndex] on, [left] is the cell of [thisSV] just written. *)
Fixpoint fillRow (cell : ascii -> ascii -> ScoreVal.t -> ScoreVal.t -> ScoreVal.t
                         -> ScoreVal.t * PtrVal.t)
    (r : ascii) (qs : list ascii) (prevSV : ScoreVec) (left : ScoreVal.t)
  : list (ScoreVal.t * PtrVal.t) :=
  match qs, prevSV with
  | q :: qs', diag :: ((up :: _) as prevSV') =>
      let hp := cell q r diag up left in
      hp :: fillRow cell r qs' prevSV' (fst hp)
  | _, _ => []
  end.

(** The state of the two passes: the score vectors behind [thisSV] and
    [prevSV], the two pointer matrices and the backtrace seed. *)
Record DP := mk_dp {
  thisSV : ScoreVec;
  prevSV : ScoreVec;
  _ptrMat1 : PtrMat;
  _ptrMat2 : PtrMat;
  bt : BackTrace
}.

(** "get backtrace info": a row replaces the seed only when its score is
    strictly greater. *)
Definition seed (b : BackTrace) (thisMax : Z) (refIndex queryIndex : nat) : BackTrace :=
  if isInit b && (thisMax <=? max b) then b
  else mk_bt thisMax (state b) queryIndex refIndex true.

Definition lastMatch (v : ScoreVec) : Z :=
  ScoreVal.match_ (nth querySize v ScoreVal_fresh).

(** One iteration of the loop over [ref1]. *)
Definition row1 (r : ascii) (ref1Index : nat) (st : DP) : DP :=
  (* std::swap(thisSV,prevSV) *)
  let this0 := prevSV st in
  let prev := thisSV st in
  let v0 := startCell this0 in
  let cells := fillRow cell1 r query prev v0 in
  let this' := v0 :: map fst cells in
  mk_dp this' prev
        (_ptrMat1 st ++ [PtrVal_fresh :: map snd cells])
        (_ptrMat2 st)
        (seed (bt st) (lastMatch this') (ref1Index + 1) querySize).

(** One iteration of the loop over [ref2]. *)
Definition row2 (r : ascii) (ref2Index : nat) (st : DP) : DP :=
  let this0 := prevSV st in
  let prev := thisSV st in
  let v0 := startCell this0 in
  let cells := fillRow cell2 r query prev v0 in
  let this' := v0 :: map fst cells in
  mk_dp this' prev
        (_ptrMat1 st)
        (_ptrMat2 st ++ [PtrVal_fresh :: map snd cells])
        (seed (bt st) (lastMatch this') (ref2Index + 1) querySize).

Fixpoint pass (row : ascii -> nat -> DP -> DP) (ref : list ascii) (refIndex : nat)
    (st : DP) : DP :=
  match ref with
  | [] => st
  | r :: ref' => pass row ref' (S refIndex) (row r refIndex st)
  end.

(** "also allow for the case where seq1 falls-off the end of the reference" *)
Fixpoint fallOff (refSize : nat) (v : ScoreVec) (queryIndex : nat) (b : BackTrace)
  : BackTrace :=
  match v with
  | [] => b
  | sval :: v' =>
      let thisMax := wrapScore (ScoreVal.match_ sval
                                + (Z.of_nat querySize - Z.of_nat queryIndex)
                                  * AlignmentScores.mismatch scores) in
      fallOff refSize v' (S queryIndex) (seed b thisMax refSize queryIndex)
  end.

(** The state after both passes.  [_score2] is what the vector of that name
    holds when the call begins: nothing in a newly constructed aligner, the
    row an earlier call has left otherwise; [resize] keeps its cells and
    adds value-initialised ones.  [_score1] is overwritten whole before it
    is read.  The cells of the pointer matrices that no loop writes, row 0
    and column 0, are shown value-initialised. *)
Definition dp (_score2 : ScoreVec) (ref1 ref2 : list ascii) : DP :=
  let st0 := mk_dp boundaryRow
                   (resize (querySize + 1) ScoreVal_fresh _score2)
                   [replicate (querySize + 1) PtrVal_fresh]
                   [replicate (querySize + 1) PtrVal_fresh]
                   BackTrace_init in
  let st1 := pass row1 ref1 0 st0 in
  let st1' := mk_dp boundaryRow (prevSV st1) (_ptrMat1 st1) (_ptrMat2 st1) (bt st1) in
  pass row2 ref2 0 st1'.

End Align.

(** The assertions of [align], and a read outside the pointer matrix. *)
Inductive failure :=
| EmptySequence        (* assert(0 != querySize), ref1Size, ref2Size *)
| SeedNotInit          (* assert(bt.isInit) *)
| SeedOutOfRange       (* assert(bt.refStart <= refSize), bt.queryStart <= querySize *)
| OutsideMatrix
| UnknownAlignState.   (* assert(! "Unknown align state") *)

(** What a call comes to: a result, a failed assertion, or (for the
    fuel-bounded loop only) not enough fuel. *)
Inductive outcome (A : Type) : Type :=
| Returned (a : A)
| Aborted (why : failure)
| OutOfFuel.
Arguments Returned {A} a.
Arguments Aborted {A} why.
Arguments OutOfFuel {A}.

(** The traceback loop, reading the pointer matrix [ptrMat]. *)
Fixpoint traceback (fuel : nat) (ptrMat : PtrMat) (b : BackTrace)
    (apath : ALIGNPATH.path_t) (ps : ALIGNPATH.path_segment)
  : outcome (BackTrace * ALIGNPATH.path_t * ALIGNPATH.path_segment) :=
  if (0 <? queryStart b)%nat && (0 <? refStart b)%nat then
    match fuel with
    | O => OutOfFuel
    | S fuel' =>
        match val ptrMat (queryStart b) (refStart b) with
        | None => Aborted OutsideMatrix
        | Some pv =>
            let nextMatrix := PtrVal.get pv (state b) in
            let step (atype : ALIGNPATH.align_t) (dq dr : nat) :=
              let pp := updatePath apath ps atype in
              traceback fuel' ptrMat
                (mk_bt (max b) nextMatrix (queryStart b - dq) (refStart b - dr) (isInit b))
                (fst pp)
                (ALIGNPATH.mk_segment (ALIGNPATH.type (snd pp))
                                      (ALIGNPATH.length (snd pp) + 1)) in
            match state b with
            | AlignState.MATCH => step ALIGNPATH.MATCH 1%nat 1%nat
            | AlignState.DELETE => step ALIGNPATH.DELETE 0%nat 1%nat
            | AlignState.INSERT => step ALIGNPATH.INSERT 1%nat 0%nat
            | AlignState.JUMP => Aborted UnknownAlignState
            end
        end
    end
  else Returned (b, apath, ps).

Record Alignment := mk_alignment { apath : ALIGNPATH.path_t; alignStart : nat }.

Record AlignmentResult := mk_result { score : Z; align_ : Alignment }.

(** Modelled from the spec: [refSize], which the fall-off loop and the
    assertion after it name and [align] does not declare, is the full
    combined reference length. *)
Definition refSize (ref1Size ref2Size : nat) : nat := (ref1Size + ref2Size)%nat.

(** [GlobalJumpAligner::align].  The traceback names [_ptrMat], which the
    function does not declare; it is a parameter here: the matrix the
    traceback reads, as a function of the two matrices the passes have
    filled.  [_score2] is the content of that vector when the call begins.
    The signed additions of scores are those of [Z]: where one would leave
    the range of [int] the source has no defined result. *)
Definition align (_ptrMat : PtrMat -> PtrMat -> PtrMat) (_score2 : ScoreVec)
    (scores : AlignmentScores.t) (jumpScore : Z)
    (query ref1 ref2 : list ascii) : outcome AlignmentResult :=
  let querySize := length query in
  let ref1Size := length ref1 in
  let ref2Size := length ref2 in
  let refSize := refSize ref1Size ref2Size in
  if bool_decide (querySize = 0%nat) then Aborted EmptySequence
  else if bool_decide (ref1Size = 0%nat) then Aborted EmptySequence
  else if bool_decide (ref2Size = 0%nat) then Aborted EmptySequence
  else
    let st := dp scores jumpScore query _score2 ref1 ref2 in
    let b := fallOff scores query refSize (thisSV st) 0 (bt st) in
    if negb (isInit b) then Aborted SeedNotInit
    else if negb (refStart b <=? refSize)%nat then Aborted SeedOutOfRange
    else if negb (queryStart b <=? querySize)%nat then Aborted SeedOutOfRange
    else
      let ps0 := ALIGNPATH.mk_segment ALIGNPATH.NONE 0 in
      let ps1 := if (queryStart b <? querySize)%nat
                 then ALIGNPATH.mk_segment ALIGNPATH.SOFT_CLIP (querySize - queryStart b)
                 else ps0 in
      match traceback (queryStart b + refStart b)
                      (_ptrMat (_ptrMat1 st) (_ptrMat2 st)) b [] ps1 with
      | Returned (b', path, ps) =>
          let path1 := if bool_decide (ALIGNPATH.type ps = ALIGNPATH.NONE)
                       then path else path ++ [ps] in
          let path2 := if bool_decide (queryStart b' = 0%nat) then path1
                       else path1 ++ [ALIGNPATH.mk_segment ALIGNPATH.SOFT_CLIP (queryStart b')] in
          Returned (mk_result (max b) (mk_alignment (rev path2) (refStart b')))
      | Aborted why => Aborted why
      | OutOfFuel => OutOfFuel
      end.

End JumpAligner.

(* ===================================================================== *)
(** ** Simple alignments (SimpleAlignment.cpp)                            *)
(* ===================================================================== *)

Module Alignment.
Import JumpAligner.

(** [SimpleAlignment], with the four fields SimpleAlignment.cpp names. *)
Record SimpleAlignment := mk_sa {
  is_fwd_strand : bool;
  tid : Z;
  pos : Z;
  path : ALIGNPATH.path_t
}.

(** [known_pos_range2(beginPos, endPos)]: the two positions it is built
    from. *)
Record known_pos_range2 := mk_range2 { begin_pos : Z; end_pos : Z }.

(** [pos_t], the type of the positions that [SVLocus::addNode] passes as
    [int32_t]: a 32-bit signed integer, with its wrap-around written out. *)
Definition wrap_pos (z : Z) : Z := (z + 2 ^ 31) mod 2 ^ 32 - 2 ^ 31.

(** Modelled from the spec: the length of a segment is an [unsigned]; its
    sums wrap at 32 bits. *)
Definition wrap_length (n : nat) : nat := N.to_nat (Locus.wrap32 (N.of_nat n)).

Section Matchify.

(** Functions of align_path.hh that the file calls and does not define. *)
Variable is_segment_type_read_length : ALIGNPATH.align_t -> bool.
Variable is_segment_type_ref_length : ALIGNPATH.align_t -> bool.
Variable get_match_edge_segments : ALIGNPATH.path_t -> nat * nat.

(** The body of the loop of [matchifyEdgeSegmentType], for segment [i]. *)
Definition matchifyStep (ends : nat * nat) (segmentType : ALIGNPATH.align_t)
    (isMatchLeadingEdge isMatchTrailingEdge : bool)
    (i : nat) (ps : ALIGNPATH.path_segment) (al2 : SimpleAlignment) : SimpleAlignment :=
  let isLeadingEdgeSegment := (i <? fst ends)%nat in
  let isTrailingEdgeSegment := (snd ends <? i)%nat in
  let isTargetType := bool_decide (ALIGNPATH.type ps = segmentType) in
  let isCandidateEdge := (isMatchLeadingEdge && isLeadingEdgeSegment)
                         || (isMatchTrailingEdge && isTrailingEdgeSegment) in
  let isEdgeTarget := isCandidateEdge && isTargetType in
  (* if (isEdgeTarget && isLeadingEdgeSegment) al2.pos-=ps.length *)
  let pos2 := if isEdgeTarget && isLeadingEdgeSegment
              then wrap_pos (pos al2 - Z.of_nat (ALIGNPATH.length ps))
              else pos al2 in
  let path2 :=
    if isEdgeTarget || bool_decide (ALIGNPATH.type ps = ALIGNPATH.MATCH) then
      match last (path al2) with
      | Some back =>
          if bool_decide (ALIGNPATH.type back = ALIGNPATH.MATCH)
          then (* al2.path.back().length += ps.length *)
               removelast (path al2)
               ++ [ALIGNPATH.mk_segment (ALIGNPATH.type back)
                     (wrap_length (ALIGNPATH.length back + ALIGNPATH.length ps))]
          else (* push_back(ps); back().type = MATCH *)
               path al2 ++ [ALIGNPATH.mk_segment ALIGNPATH.MATCH (ALIGNPATH.length ps)]
      | None => path al2 ++ [ALIGNPATH.mk_segment ALIGNPATH.MATCH (ALIGNPATH.length ps)]
      end
    else path al2 ++ [ps] in
  mk_sa (is_fwd_strand al2) (tid al2) pos2 path2.

(** [for (unsigned i(0); i<as; ++i)], from segment [i] on. *)
Fixpoint matchifyLoop (ends : nat * nat) (segmentType : ALIGNPATH.align_t)
    (isMatchLeadingEdge isMatchTrailingEdge : bool)
    (i : nat) (segments : list ALIGNPATH.path_segment) (al2 : SimpleAlignment)
  : SimpleAlignment :=
  match segments with
  | [] => al2
  | ps :: rest =>
      matchifyLoop ends segmentType isMatchLeadingEdge isMatchTrailingEdge (S i) rest
        (matchifyStep ends segmentType isMatchLeadingEdge isMatchTrailingEdge i ps al2)
  end.

(** [matchifyEdgeSegmentType]; [None] when the assertion on [segmentType]
    fails. *)
Definition matchifyEdgeSegmentType (al : SimpleAlignment)
    (segmentType : ALIGNPATH.align_t)
    (isMatchLeadingEdge isMatchTrailingEdge : bool) : option SimpleAlignment :=
  if is_segment_type_read_length segmentType then
    let al2 := mk_sa (is_fwd_strand al) (tid al) (pos al) [] in
    let ends := get_match_edge_segments (path al) in
    Some (matchifyLoop ends segmentType isMatchLeadingEdge isMatchTrailingEdge
            0 (path al) al2)
  else None.

(** The body of the loop of [matchifyEdgeSoftClipRefRange], on
    [(beginPos, endPos)]. *)
Definition refRangeStep (ends : nat * nat) (i : nat) (ps : ALIGNPATH.path_segment)
    (be : Z * Z) : Z * Z :=
  let isLeadingEdgeSegment := (i <? fst ends)%nat in
  let isTrailingEdgeSegment := (snd ends <? i)%nat in
  let isEdgeTarget := isLeadingEdgeSegment || isTrailingEdgeSegment in
  if isEdgeTarget then
    if is_segment_type_read_length (ALIGNPATH.type ps) then
      if isLeadingEdgeSegment
      then (wrap_pos (fst be - Z.of_nat (ALIGNPATH.length ps)), snd be)
      else (fst be, wrap_pos (snd be + Z.of_nat (ALIGNPATH.length ps)))
    else be
  else
    if is_segment_type_ref_length (ALIGNPATH.type ps)
    then (fst be, wrap_pos (snd be + Z.of_nat (ALIGNPATH.length ps)))
    else be.

Fixpoint refRangeLoop (ends : nat * nat) (i : nat)
    (segments : list ALIGNPATH.path_segment) (be : Z * Z) : Z * Z :=
  match segments with
  | [] => be
  | ps :: rest => refRangeLoop ends (S i) rest (refRangeStep ends i ps be)
  end.

(** [matchifyEdgeSoftClipRefRange] *)
Definition matchifyEdgeSoftClipRefRange (al : SimpleAlignment) : known_pos_range2 :=
  let ends := get_match_edge_segments (path al) in
  let be := refRangeLoop ends 0 (path al) (pos al, pos al) in
  mk_range2 (fst be) (snd be).

End Matchify.

End Alignment.

(* ===================================================================== *)
(** * Vocabulary of the statements                                        *)
(* ===================================================================== *)

Section LocusVocabulary.
Import Locus.

(** The node [insertEdge] leaves at [nodePtr]. *)
Definition withEdge (target : NodeIndexType) (node : SVLocusNode) : SVLocusNode :=
  mk_node (node_count node) (interval node)
          (map_insert target (SVLocusEdge_init 1) (edges node)).

(** The graph [linkNodes] builds when both asserts pass: the second insert
    reads the node the first insert has stored. *)
Definition linked (a b : NodeIndexType) (g : list SVLocusNode) : list SVLocusNode :=
  let g1 := alter (withEdge b) (N.to_nat a) g in
  alter (withEdge a) (N.to_nat b) g1.

(** Edge targets that the 32-bit index type holds. *)
Definition targets_in_range (node : SVLocusNode) : Prop :=
  forall k e, edges node !! k = Some e -> (k < 2 ^ 32)%N.

(** The delete-notifications [clear] emits, one per index below [size()]. *)
Definition deletes (s : SVLocus) : list SVLocusNodeMoveMessage :=
  map (fun i => (false, (_index s, N.of_nat i))) (seq 0 (N.to_nat (size s))).

(** Edge targets that stay below 2^32 when [offset] is added. *)
Definition targets_shift (offset : N) (node : SVLocusNode) : Prop :=
  forall k e, edges node !! k = Some e -> (k + offset < 2 ^ 32)%N.

(** A call of one of the members that change the graph. *)
Inductive call :=
| CallAddNode (tid beginPos endPos : Z)
| CallLinkNodes (nodePtr1 nodePtr2 : N)
| CallCopyLocus (fromLocus : SVLocus)
| CallClear.

Definition run_call (c : call) : M unit :=
  match c with
  | CallAddNode t b e => bind (addNode t b e) (fun _ => ret tt)
  | CallLinkNodes a b => linkNodes a b
  | CallCopyLocus fromLocus => copyLocus fromLocus
  | CallClear => clear
  end.

(** A sequence of calls on one object, each on the state the last one left. *)
Fixpoint run_calls (cs : list call) : M unit :=
  match cs with
  | [] => ret tt
  | c :: cs' => bind (run_call c) (fun _ => run_calls cs')
  end.

(** A graph the index type can address. *)
Definition size_ok (g : list SVLocusNode) : Prop :=
  (N.of_nat (length g) <= maxIndex)%N.

(** Every edge A->B has its target B in the graph, and B holds the edge B->A
    with the same count. *)
Definition edges_symmetric (g : list SVLocusNode) : Prop :=
  forall i n k e,
    g !! i = Some n -> edges n !! k = Some e ->
    exists m, g !! N.to_nat k = Some m /\ edges m !! N.of_nat i = Some e.

(** The graphs that a sequence of calls copies from have symmetric edges. *)
Definition copies_symmetric (cs : list call) : Prop :=
  Forall (fun c => match c with
                   | CallCopyLocus fromLocus => edges_symmetric (_graph fromLocus)
                   | _ => True
                   end) cs.

(** An observer that keeps the set of node indices it has been told of. *)
Definition observe (seen : gset N) (msg : SVLocusNodeMoveMessage) : gset N :=
  if msg.1 then {[msg.2.2]} ∪ seen else seen ∖ {[msg.2.2]}.

Definition observed (msgs : list SVLocusNodeMoveMessage) : gset N :=
  fold_left observe msgs ∅.

(** The node indices of a graph of [n] nodes. *)
Definition indices (n : nat) : gset N := list_to_set (map N.of_nat (seq 0 n)).

End LocusVocabulary.

(** A bound on the magnitude of every score that [align] computes for a
    query of [n] symbols, when match is a score and open and extend are
    penalties.  Where it is below 2^31 no product of an index and the
    mismatch penalty wraps around, and no signed addition of scores leaves
    the range of [int]. *)
Definition scoreSpan (scores : JumpAligner.AlignmentScores.t) (jumpScore : Z)
    (n : nat) : Z :=
  Z.of_nat n * Z.max (JumpAligner.AlignmentScores.match_ scores)
                     (- JumpAligner.AlignmentScores.mismatch scores)
  - JumpAligner.AlignmentScores.open scores
  - 2 * JumpAligner.AlignmentScores.extend scores
  + Z.abs jumpScore - JumpAligner.badVal.

(** Bounds on a cell at query column [q] when the match score is [M]: in
    pass 1 the gap states stay strictly below [q * M]. *)
Definition cellBound1 (M : Z) (q : nat) (v : JumpAligner.ScoreVal.t) : Prop :=
  JumpAligner.ScoreVal.match_ v <= Z.of_nat q * M
  /\ JumpAligner.ScoreVal.del v < Z.of_nat q * M
  /\ JumpAligner.ScoreVal.ins v < Z.of_nat q * M.

Definition rowBound1 (M : Z) (k : nat) (row : JumpAligner.ScoreVec) : Prop :=
  forall i v, row !! i = Some v -> cellBound1 M (k + i) v.

Definition cellBound2 (M : Z) (q : nat) (v : JumpAligner.ScoreVal.t) : Prop :=
  JumpAligner.ScoreVal.match_ v <= Z.of_nat q * M
  /\ JumpAligner.ScoreVal.del v <= Z.of_nat q * M
  /\ JumpAligner.ScoreVal.ins v <= Z.of_nat q * M
  /\ JumpAligner.ScoreVal.jump v <= Z.of_nat q * M.

Definition rowBound2 (M : Z) (k : nat) (row : JumpAligner.ScoreVec) : Prop :=
  forall i v, row !! i = Some v -> cellBound2 M (k + i) v.

(** A row whose match score at query column [q] is at least that of [q]
    mismatches. *)
Definition rowLower (X : Z) (k : nat) (row : JumpAligner.ScoreVec) : Prop :=
  forall i v, row !! i = Some v ->
    Z.of_nat (k + i) * X <= JumpAligner.ScoreVal.match_ v.

(** The cells from (q, r) down the diagonal to column 0 all record MATCH as
    the predecessor of their match state. *)
Fixpoint onDiagonal (mat : JumpAligner.PtrMat) (q r : nat) : Prop :=
  match q, r with
  | O, _ => True
  | S _, O => False
  | S q', S r' =>
      (exists pv, JumpAligner.val mat q r = Some pv
                  /\ JumpAligner.PtrVal.match_ pv = JumpAligner.AlignState.MATCH)
      /\ onDiagonal mat q' r'
  end.

(** A row whose cells of top score [q * M] sit on such a diagonal. *)
Definition rowTight (M : Z) (mat : JumpAligner.PtrMat) (k : nat)
    (row : JumpAligner.ScoreVec) (r : nat) : Prop :=
  forall i v, row !! i = Some v ->
    JumpAligner.ScoreVal.match_ v = Z.of_nat (k + i) * M -> onDiagonal mat (k + i) r.

(** The query symbols a segment accounts for: those of MATCH, INSERT and
    SOFT_CLIP segments. *)
Definition segRead (ps : JumpAligner.ALIGNPATH.path_segment) : nat :=
  match JumpAligner.ALIGNPATH.type ps with
  | JumpAligner.ALIGNPATH.MATCH | JumpAligner.ALIGNPATH.INSERT
  | JumpAligner.ALIGNPATH.SOFT_CLIP => JumpAligner.ALIGNPATH.length ps
  | _ => 0%nat
  end.

(** The reference symbols a segment accounts for: those of MATCH and DELETE
    segments. *)
Definition segRef (ps : JumpAligner.ALIGNPATH.path_segment) : nat :=
  match JumpAligner.ALIGNPATH.type ps with
  | JumpAligner.ALIGNPATH.MATCH | JumpAligner.ALIGNPATH.DELETE =>
      JumpAligner.ALIGNPATH.length ps
  | _ => 0%nat
  end.

Definition readLength (path : list JumpAligner.ALIGNPATH.path_segment) : nat :=
  list_sum (map segRead path).

Definition refLength (path : list JumpAligner.ALIGNPATH.path_segment) : nat :=
  list_sum (map segRef path).

(** A seed inside the query and inside the first [bound] reference rows. *)
Definition seedInRange (querySize bound : nat) (b : JumpAligner.BackTrace) : Prop :=
  JumpAligner.isInit b = true ->
  (JumpAligner.queryStart b <= querySize)%nat /\ (JumpAligner.refStart b <= bound)%nat.

(** A row function that seeds with the row just written. *)
Definition seeds_rows (query : list ascii)
    (row : ascii -> nat -> JumpAligner.DP -> JumpAligner.DP) : Prop :=
  forall r k st, exists m,
    JumpAligner.bt (row r k st)
    = JumpAligner.seed (JumpAligner.bt st) m (k + 1) (length query).

(** A seed that an initialised backtrace puts on a reference row, never on
    row 0. *)
Definition seedPositive (b : JumpAligner.BackTrace) : Prop :=
  JumpAligner.isInit b = true -> (1 <= JumpAligner.refStart b)%nat.

(** A segment of a finished path: of a type, and not empty. *)
Definition wellSeg (s : JumpAligner.ALIGNPATH.path_segment) : Prop :=
  JumpAligner.ALIGNPATH.type s <> JumpAligner.ALIGNPATH.NONE
  /\ (1 <= JumpAligner.ALIGNPATH.length s)%nat.

(** No two neighbours of one type. *)
Fixpoint compact (l : list JumpAligner.ALIGNPATH.path_segment) : Prop :=
  match l with
  | s :: rest =>
      match rest with
      | s' :: _ => JumpAligner.ALIGNPATH.type s <> JumpAligner.ALIGNPATH.type s'
      | [] => True
      end /\ compact rest
  | [] => True
  end.

(** Soft clips at the first and at the last place only. *)
Definition clipsAtEnds (l : list JumpAligner.ALIGNPATH.path_segment) : Prop :=
  forall i s, l !! i = Some s ->
    JumpAligner.ALIGNPATH.type s = JumpAligner.ALIGNPATH.SOFT_CLIP ->
    i = 0%nat \/ S i = length l.

Definition clipsLast (l : list JumpAligner.ALIGNPATH.path_segment) : Prop :=
  forall i s, l !! i = Some s ->
    JumpAligner.ALIGNPATH.type s = JumpAligner.ALIGNPATH.SOFT_CLIP ->
    S i = length l.

(** The segment types the traceback loop writes. *)
Definition isAligned (t : JumpAligner.ALIGNPATH.align_t) : Prop :=
  t = JumpAligner.ALIGNPATH.MATCH \/ t = JumpAligner.ALIGNPATH.INSERT
  \/ t = JumpAligner.ALIGNPATH.DELETE.

(** What the traceback loop keeps of the segments stored so far, read from
    the last one stored to the first, and of the segment in progress. *)
Definition building (stored : list JumpAligner.ALIGNPATH.path_segment)
    (ps : JumpAligner.ALIGNPATH.path_segment) : Prop :=
  Forall wellSeg stored
  /\ compact (ps :: stored)
  /\ clipsLast stored
  /\ (~ isAligned (JumpAligner.ALIGNPATH.type ps) -> stored = [])
  /\ (JumpAligner.ALIGNPATH.type ps <> JumpAligner.ALIGNPATH.NONE ->
      (1 <= JumpAligner.ALIGNPATH.length ps)%nat).

(** Two cells with the same match, delete and insert scores. *)
Definition simS (v v' : JumpAligner.ScoreVal.t) : Prop :=
  JumpAligner.ScoreVal.match_ v = JumpAligner.ScoreVal.match_ v'
  /\ JumpAligner.ScoreVal.del v = JumpAligner.ScoreVal.del v'
  /\ JumpAligner.ScoreVal.ins v = JumpAligner.ScoreVal.ins v'.

(** A pointer cell without its jump pointer. *)
Definition noJump (p : JumpAligner.PtrVal.t) : JumpAligner.PtrVal.t :=
  JumpAligner.PtrVal.mk (JumpAligner.PtrVal.match_ p) (JumpAligner.PtrVal.del p)
                        (JumpAligner.PtrVal.ins p) JumpAligner.AlignState.MATCH.

(** The jump score of cell 0 of a score vector, which no loop writes. *)
Definition headJump (v : JumpAligner.ScoreVec) : Z :=
  JumpAligner.ScoreVal.jump (hd JumpAligner.ScoreVal_fresh v).

(** Two states of pass 1 that differ in jump scores and jump pointers at
    most. *)
Definition sim1 (st st' : JumpAligner.DP) : Prop :=
  Forall2 simS (JumpAligner.thisSV st) (JumpAligner.thisSV st')
  /\ headJump (JumpAligner.thisSV st) = headJump (JumpAligner.thisSV st')
  /\ headJump (JumpAligner.prevSV st) = headJump (JumpAligner.prevSV st')
  /\ map (map noJump) (JumpAligner._ptrMat1 st)
     = map (map noJump) (JumpAligner._ptrMat1 st')
  /\ JumpAligner._ptrMat2 st = JumpAligner._ptrMat2 st'
  /\ JumpAligner.bt st = JumpAligner.bt st'.

(** Two states of pass 2 with the same row in [thisSV], the same matrix of
    pass 2 and the same seed. *)
Definition sim2 (st st' : JumpAligner.DP) : Prop :=
  JumpAligner.thisSV st = JumpAligner.thisSV st'
  /\ headJump (JumpAligner.prevSV st) = headJump (JumpAligner.prevSV st')
  /\ map (map noJump) (JumpAligner._ptrMat1 st)
     = map (map noJump) (JumpAligner._ptrMat1 st')
  /\ JumpAligner._ptrMat2 st = JumpAligner._ptrMat2 st'
  /\ JumpAligner.bt st = JumpAligner.bt st'.

(** A reading of [_ptrMat] that takes its match, delete and insert pointers
    from those of the two matrices. *)
Definition jumpBlind
    (_ptrMat : JumpAligner.PtrMat -> JumpAligner.PtrMat -> JumpAligner.PtrMat) : Prop :=
  forall m1 m1' m2,
    map (map noJump) m1 = map (map noJump) m1' ->
    map (map noJump) (_ptrMat m1 m2) = map (map noJump) (_ptrMat m1' m2).

(** The segment lengths of a path, added up. *)
Definition pathLength (l : list JumpAligner.ALIGNPATH.path_segment) : nat :=
  list_sum (map JumpAligner.ALIGNPATH.length l).

(** No MATCH segment next to a MATCH segment. *)
Definition adjMatchFree (l : list JumpAligner.ALIGNPATH.path_segment) : Prop :=
  forall i s s', l !! i = Some s -> l !! S i = Some s' ->
    JumpAligner.ALIGNPATH.type s = JumpAligner.ALIGNPATH.MATCH ->
    JumpAligner.ALIGNPATH.type s' <> JumpAligner.ALIGNPATH.MATCH.

(** What holds after [k] rows of pass 1. *)
Definition inv1 (M : Z) (query : list ascii) (k : nat) (st : JumpAligner.DP) : Prop :=
  length (JumpAligner.thisSV st) = S (length query)
  /\ rowBound1 M 0 (JumpAligner.thisSV st)
  /\ rowTight M (JumpAligner._ptrMat1 st) 0 (JumpAligner.thisSV st) k
  /\ length (JumpAligner._ptrMat1 st) = S k
  /\ JumpAligner.ScoreVal.jump
       (hd JumpAligner.ScoreVal_fresh (JumpAligner.thisSV st)) <= 0
  /\ JumpAligner.ScoreVal.jump
       (hd JumpAligner.ScoreVal_fresh (JumpAligner.prevSV st)) <= 0
  /\ JumpAligner.state (JumpAligner.bt st) = JumpAligner.AlignState.MATCH
  /\ (JumpAligner.isInit (JumpAligner.bt st) = true ->
      JumpAligner.max (JumpAligner.bt st) <= Z.of_nat (length query) * M
      /\ (JumpAligner.max (JumpAligner.bt st) = Z.of_nat (length query) * M ->
          JumpAligner.queryStart (JumpAligner.bt st) = length query
          /\ (JumpAligner.refStart (JumpAligner.bt st) <= k)%nat
          /\ onDiagonal (JumpAligner._ptrMat1 st) (length query)
                        (JumpAligner.refStart (JumpAligner.bt st))))
  /\ ((1 <= k)%nat ->
      JumpAligner.isInit (JumpAligner.bt st) = true
      /\ JumpAligner.lastMatch query (JumpAligner.thisSV st)
         <= JumpAligner.max (JumpAligner.bt st)).

(** What holds after any number of rows of pass 2. *)
Definition inv2 (M : Z) (query : list ascii) (st : JumpAligner.DP) : Prop :=
  length (JumpAligner.thisSV st) = S (length query)
  /\ rowBound2 M 0 (JumpAligner.thisSV st)
  /\ JumpAligner.ScoreVal.jump
       (hd JumpAligner.ScoreVal_fresh (JumpAligner.prevSV st)) <= 0.

(* ===================================================================== *)
(** * Properties of the locus graph                                       *)
(* ===================================================================== *)

Section LocusFacts.
Import Locus.

Lemma wrap32_small (n : N) : (n < 2 ^ 32)%N -> wrap32 n = n.
Proof. intros H. unfold wrap32. now apply N.mod_small. Qed.

Lemma resize_push (g : list SVLocusNode) (d : SVLocusNode) :
  resize (N.to_nat (N.of_nat (length g) + 1)) d g = g ++ [d].
Proof.
  replace (N.to_nat (N.of_nat (length g) + 1)) with (length g + 1)%nat by lia.
  rewrite resize_spec, firstn_all2 by lia.
  now replace (length g + 1 - length g)%nat with 1%nat by lia.
Qed.

(** [newGraphNode] below the index limit: one default node is appended. *)
Lemma newGraphNode_ok (s : SVLocus) :
  (N.of_nat (length (_graph s)) < maxIndex)%N ->
  newGraphNode s
  = Ok (N.of_nat (length (_graph s)))
       (mk_locus (_graph s ++ [SVLocusNode_default]) (_index s) (notified s)).
Proof.
  intros Hlt. unfold newGraphNode.
  rewrite wrap32_small by (unfold maxIndex in Hlt; lia).
  unfold bind, assert, set_graph, ret.
  destruct (N.ltb_spec (N.of_nat (length (_graph s))) maxIndex) as [_|Hge]; [|lia].
  cbn [_graph _index notified]. now rewrite resize_push.
Qed.

Lemma newGraphNode_full (s : SVLocus) :
  N.of_nat (length (_graph s)) = maxIndex -> newGraphNode s = Halt s.
Proof.
  intros Heq. unfold newGraphNode. rewrite Heq. reflexivity.
Qed.

Lemma lookup_push {A} (l : list A) (x : A) :
  (l ++ [x]) !! N.to_nat (N.of_nat (length l)) = Some x.
Proof.
  rewrite Nat2N.id, lookup_app_r by lia.
  now replace (length l - length l)%nat with 0%nat by lia.
Qed.

Lemma insert_push {A} (l : list A) (x y : A) :
  <[N.to_nat (N.of_nat (length l)) := y]> (l ++ [x]) = l ++ [y].
Proof.
  rewrite Nat2N.id.
  replace (length l) with (length l + 0)%nat at 1 by lia.
  now rewrite insert_app_r.
Qed.

(** C7. [addNode(tid, beginPos, endPos)] on a graph whose size the index
    type can hold either appends one node with count 1, interval
    tid:[beginPos, endPos) and no edges, emits the one add-notification
    carrying the new index, and returns that index, which is the size of the
    graph before the call; or it fails, and then the graph already holds
    [maxIndex] nodes: the index space is exhausted. *)
Theorem addNode_appends_and_notifies (s : SVLocus) (t b e : Z) :
  (N.of_nat (length (_graph s)) <= maxIndex)%N ->
  match addNode t b e s with
  | Ok nodePtr s' =>
      nodePtr = N.of_nat (length (_graph s))
      /\ _graph s' = _graph s ++ [mk_node 1 (mk_interval t (mk_range b e)) ∅]
      /\ notified s' = notified s ++ [(true, (_index s, nodePtr))]
      /\ _index s' = _index s
  | Halt _ => N.of_nat (length (_graph s)) = maxIndex
  end.
Proof.
  intros Hle.
  destruct (N.eq_dec (N.of_nat (length (_graph s))) maxIndex) as [Hfull|Hfree].
  - unfold addNode, bind. now rewrite newGraphNode_full.
  - unfold addNode, bind. rewrite newGraphNode_ok by lia.
    unfold getNode. cbn [_graph]. rewrite lookup_push.
    unfold setNode, set_graph, notifyAdd, notify_observers, ret.
    cbn [_graph _index notified]. rewrite insert_push.
    repeat split.
Qed.

Lemma addNode_appends_and_notifies_witness :
  match addNode 3 100 250 (SVLocus_init 7%N) with
  | Ok nodePtr s' =>
      nodePtr = N.of_nat (length (_graph (SVLocus_init 7%N)))
      /\ _graph s' = _graph (SVLocus_init 7%N)
                     ++ [mk_node 1 (mk_interval 3 (mk_range 100 250)) ∅]
      /\ notified s' = notified (SVLocus_init 7%N)
                       ++ [(true, (_index (SVLocus_init 7%N), nodePtr))]
      /\ _index s' = _index (SVLocus_init 7%N)
  | Halt _ => N.of_nat (length (_graph (SVLocus_init 7%N))) = maxIndex
  end.
Proof.
  apply (addNode_appends_and_notifies (SVLocus_init 7%N) 3 100 250).
  vm_compute. discriminate.
Defined.

Lemma map_insert_lookup (k k' : N) (e : SVLocusEdge) (m : gmap N SVLocusEdge) :
  map_insert k e m !! k'
  = if bool_decide (k = k' /\ m !! k = None) then Some e else m !! k'.
Proof.
  unfold map_insert. destruct (m !! k) as [e0|] eqn:Hk.
  - rewrite bool_decide_eq_false_2; [reflexivity|]. intros [_ H]. discriminate.
  - destruct (decide (k = k')) as [->|Hne].
    + rewrite bool_decide_eq_true_2 by auto. apply lookup_insert_eq.
    + rewrite bool_decide_eq_false_2 by (intros [H _]; auto).
      now apply lookup_insert_ne.
Qed.

Lemma insertEdge_ok (s : SVLocus) (nodePtr target : NodeIndexType) (node : SVLocusNode) :
  _graph s !! N.to_nat nodePtr = Some node ->
  insertEdge nodePtr target s
  = Ok tt (mk_locus (<[N.to_nat nodePtr := withEdge target node]> (_graph s))
                    (_index s) (notified s)).
Proof.
  intros H. unfold insertEdge, bind, getNode. now rewrite H.
Qed.

Lemma linkNodes_run (s : SVLocus) (a b : NodeIndexType) (na nb : SVLocusNode) :
  _graph s !! N.to_nat a = Some na ->
  _graph s !! N.to_nat b = Some nb ->
  edges na !! b = None ->
  edges nb !! a = None ->
  linkNodes a b s = Ok tt (mk_locus (linked a b (_graph s)) (_index s) (notified s)).
Proof.
  intros Ha Hb Hab Hba. unfold linkNodes, bind, getNode.
  rewrite Ha, Hb. unfold assert.
  rewrite !bool_decide_eq_true_2 by assumption.
  rewrite (insertEdge_ok s a b na Ha).
  assert (Hb1 : <[N.to_nat a := withEdge b na]> (_graph s) !! N.to_nat b
                = Some (if decide (N.to_nat a = N.to_nat b) then withEdge b na else nb)).
  { destruct (decide (N.to_nat a = N.to_nat b)) as [Heq|Hne].
    - rewrite <- Heq. apply list_lookup_insert_eq. now apply lookup_lt_Some in Ha.
    - now rewrite list_lookup_insert_ne. }
  erewrite insertEdge_ok by (cbn [_graph]; exact Hb1).
  cbn [_graph _index notified]. f_equal. f_equal. unfold linked.
  assert (H1 : alter (withEdge b) (N.to_nat a) (_graph s)
               = <[N.to_nat a := withEdge b na]> (_graph s)).
  { apply list_eq. intros i. destruct (decide (i = N.to_nat a)) as [->|Hne].
    - rewrite list_lookup_alter_eq, Ha. cbn.
      symmetry. apply list_lookup_insert_eq. now apply lookup_lt_Some in Ha.
    - rewrite list_lookup_alter_ne, list_lookup_insert_ne by auto. reflexivity. }
  rewrite H1. apply list_eq. intros i.
  destruct (decide (i = N.to_nat b)) as [->|Hne].
  - rewrite list_lookup_alter_eq, Hb1. cbn.
    apply list_lookup_insert_eq.
    rewrite length_insert. now apply lookup_lt_Some in Hb.
  - rewrite list_lookup_alter_ne, list_lookup_insert_ne by auto. reflexivity.
Qed.

Lemma linkNodes_halts (s : SVLocus) (a b : NodeIndexType) (na nb : SVLocusNode) :
  _graph s !! N.to_nat a = Some na ->
  _graph s !! N.to_nat b = Some nb ->
  is_Some (edges na !! b) \/ is_Some (edges nb !! a) ->
  linkNodes a b s = Halt s.
Proof.
  intros Ha Hb Hex. unfold linkNodes, bind, getNode. rewrite Ha, Hb. unfold assert.
  destruct (edges na !! b) as [e1|] eqn:H1.
  - now rewrite bool_decide_eq_false_2 by discriminate.
  - rewrite bool_decide_eq_true_2 by reflexivity.
    destruct Hex as [[e He]|[e He]]; [discriminate|].
    rewrite He. now rewrite bool_decide_eq_false_2 by discriminate.
Qed.

(** Every node of the linked graph, edge by edge. *)
Lemma linked_lookup (g : list SVLocusNode) (a b : NodeIndexType) (na nb : SVLocusNode)
    (i : nat) (n : SVLocusNode) :
  g !! N.to_nat a = Some na ->
  g !! N.to_nat b = Some nb ->
  edges na !! b = None ->
  edges nb !! a = None ->
  g !! i = Some n ->
  exists n', linked a b g !! i = Some n'
    /\ node_count n' = node_count n
    /\ interval n' = interval n
    /\ forall k, edges n' !! k
         = if bool_decide ((i = N.to_nat a /\ k = b) \/ (i = N.to_nat b /\ k = a))
           then Some (mk_edge 1) else edges n !! k.
Proof.
  intros Ha Hb Hab Hba Hi. unfold linked.
  destruct (decide (i = N.to_nat b)) as [->|Hnb];
    destruct (decide (N.to_nat b = N.to_nat a)) as [Hba'|Hna'].
  - (* a = b *)
    assert (a = b) by lia. subst b. rewrite Ha in Hi. injection Hi as <-.
    exists (withEdge a (withEdge a na)).
    rewrite list_lookup_alter_eq, list_lookup_alter_eq, Ha. cbn.
    repeat split. intros k. rewrite map_insert_lookup.
    cbn [withEdge edges]. rewrite !map_insert_lookup, Hab.
    rewrite (bool_decide_eq_true_2 (a = a /\ None = None)) by auto.
    rewrite (bool_decide_eq_false_2 (a = k /\ _ = None)) by (intros [_ H]; discriminate).
    destruct (decide (a = k)) as [->|Hk].
    + now rewrite !bool_decide_eq_true_2 by auto.
    + rewrite !bool_decide_eq_false_2; try reflexivity; intuition congruence.
  - rewrite Hb in Hi. injection Hi as <-.
    exists (withEdge a nb).
    rewrite list_lookup_alter_eq, list_lookup_alter_ne, Hb by auto. cbn.
    repeat split. intros k. rewrite map_insert_lookup, Hba.
    destruct (decide (a = k)) as [->|Hk].
    + rewrite !bool_decide_eq_true_2; auto.
    + rewrite !bool_decide_eq_false_2; try reflexivity; intuition (try congruence; lia).
  - exists n. rewrite !list_lookup_alter_ne by lia.
    repeat split; [assumption|]. intros k.
    rewrite bool_decide_eq_false_2; [reflexivity|]. intuition lia.
  - destruct (decide (i = N.to_nat a)) as [->|Hia].
    + rewrite Ha in Hi. injection Hi as <-.
      exists (withEdge b na).
      rewrite list_lookup_alter_ne, list_lookup_alter_eq, Ha by auto. cbn.
      repeat split. intros k. rewrite map_insert_lookup, Hab.
      destruct (decide (b = k)) as [->|Hk].
      * rewrite !bool_decide_eq_true_2; auto.
      * rewrite !bool_decide_eq_false_2; try reflexivity; intuition (try congruence; lia).
    + exists n. rewrite !list_lookup_alter_ne by auto.
      repeat split; [assumption|]. intros k.
      rewrite bool_decide_eq_false_2; [reflexivity|]. intuition lia.
Qed.

(** C8. For two existing nodes [a] and [b]: when neither holds an edge to the
    other, [linkNodes(a, b)] returns with edge (a->b) of count 1 and edge
    (b->a) of count 1 in place, and with every other edge, every node's
    count and interval, the number of nodes, the locus index and the
    notification channel as they were; when an edge exists in either
    direction the call halts on its assertion and the graph is as before. *)
Theorem linkNodes_links_or_halts (s : SVLocus) (a b : NodeIndexType)
    (na nb : SVLocusNode) :
  _graph s !! N.to_nat a = Some na ->
  _graph s !! N.to_nat b = Some nb ->
  (edges na !! b = None -> edges nb !! a = None ->
   exists s', linkNodes a b s = Ok tt s'
     /\ _index s' = _index s
     /\ notified s' = notified s
     /\ length (_graph s') = length (_graph s)
     /\ forall i n, _graph s !! i = Some n ->
          exists n', _graph s' !! i = Some n'
            /\ node_count n' = node_count n
            /\ interval n' = interval n
            /\ forall k, edges n' !! k
                 = if bool_decide ((i = N.to_nat a /\ k = b) \/ (i = N.to_nat b /\ k = a))
                   then Some (mk_edge 1) else edges n !! k)
  /\ (is_Some (edges na !! b) \/ is_Some (edges nb !! a) -> linkNodes a b s = Halt s).
Proof.
  intros Ha Hb. split.
  - intros Hab Hba. eexists. split; [now apply (linkNodes_run s a b na nb)|].
    cbn [_graph _index notified]. repeat split.
    + unfold linked. now rewrite !length_alter.
    + intros i n Hi. now apply (linked_lookup (_graph s) a b na nb).
  - now apply (linkNodes_halts s a b na nb).
Qed.

Lemma linkNodes_links_or_halts_witness :
  (exists s', linkNodes 0 1 (mk_locus [SVLocusNode_default; SVLocusNode_default] 4 []) = Ok tt s'
     /\ length (_graph s') = 2%nat)
  /\ linkNodes 0 1
       (mk_locus [withEdge 1 SVLocusNode_default; withEdge 0 SVLocusNode_default] 4 [])
     = Halt (mk_locus [withEdge 1 SVLocusNode_default; withEdge 0 SVLocusNode_default] 4 []).
Proof.
  split.
  - destruct (linkNodes_links_or_halts
                (mk_locus [SVLocusNode_default; SVLocusNode_default] 4 []) 0 1
                SVLocusNode_default SVLocusNode_default eq_refl eq_refl) as [Hlink _].
    destruct (Hlink eq_refl eq_refl) as (s' & Hrun & _ & _ & Hlen & _).
    exists s'. split; [exact Hrun | exact Hlen].
  - destruct (linkNodes_links_or_halts
                (mk_locus [withEdge 1 SVLocusNode_default; withEdge 0 SVLocusNode_default] 4 [])
                0 1 (withEdge 1 SVLocusNode_default) (withEdge 0 SVLocusNode_default)
                eq_refl eq_refl) as [_ Hhalt].
    apply Hhalt. left. exists (mk_edge 1). reflexivity.
Defined.

(** C10. For an existing node [a] without a self-edge, [linkNodes(a, a)]
    passes both assertions and returns; afterwards the edge map of [a] is the
    former one with the single key [a] added at count 1 (the second insert
    finds the key and stores nothing), and the rest of the graph is as
    before. *)
Theorem linkNodes_self_loop (s : SVLocus) (a : NodeIndexType) (na : SVLocusNode) :
  _graph s !! N.to_nat a = Some na ->
  edges na !! a = None ->
  exists s', linkNodes a a s = Ok tt s'
    /\ _graph s'
       = <[N.to_nat a := mk_node (node_count na) (interval na)
                                 (<[a := mk_edge 1]> (edges na))]> (_graph s)
    /\ _index s' = _index s
    /\ notified s' = notified s.
Proof.
  intros Ha Haa. eexists. split; [now apply (linkNodes_run s a a na na)|].
  cbn [_graph _index notified]. repeat split.
  unfold linked. apply list_eq. intros i.
  destruct (decide (i = N.to_nat a)) as [->|Hne].
  - rewrite !list_lookup_alter_eq, Ha. cbn [fmap option_fmap option_map].
    rewrite list_lookup_insert_eq by (now apply lookup_lt_Some in Ha).
    f_equal. unfold withEdge. cbn [node_count interval edges].
    f_equal. unfold map_insert at 2. rewrite Haa.
    unfold map_insert. now rewrite lookup_insert_eq.
  - now rewrite !list_lookup_alter_ne, list_lookup_insert_ne by auto.
Qed.

Lemma linkNodes_self_loop_witness :
  exists s', linkNodes 0 0 (mk_locus [SVLocusNode_default] 4 []) = Ok tt s'
    /\ _graph s' = [mk_node 0 GenomeInterval_default (<[0%N := mk_edge 1]> ∅)].
Proof.
  destruct (linkNodes_self_loop (mk_locus [SVLocusNode_default] 4 []) 0
              SVLocusNode_default eq_refl eq_refl) as (s' & Hrun & Hg & _).
  exists s'. split; [exact Hrun | exact Hg].
Defined.

(** *** Copying and archiving edge maps *)

Lemma map_items_perm (m : gmap N SVLocusEdge) : map_items m ≡ₚ map_to_list m.
Proof. unfold map_items. apply merge_sort_Permutation. Qed.

Lemma map_items_NoDup (m : gmap N SVLocusEdge) : NoDup (map_items m).*1.
Proof.
  rewrite (fmap_Permutation fst _ _ (map_items_perm m)).
  apply NoDup_fst_map_to_list.
Qed.

Lemma map_items_lookup (m : gmap N SVLocusEdge) (p : N * SVLocusEdge) :
  p ∈ map_items m -> m !! p.1 = Some p.2.
Proof.
  rewrite (map_items_perm m). destruct p as [k e]. apply elem_of_map_to_list.
Qed.

Lemma list_to_map_items (m : gmap N SVLocusEdge) : list_to_map (map_items m) = m.
Proof.
  rewrite (list_to_map_proper (map_items m) (map_to_list m)).
  - apply list_to_map_to_list.
  - apply map_items_NoDup.
  - apply map_items_perm.
Qed.

(** Inserting pairs with distinct keys, each key kept by [f], into a map
    that holds none of them. *)
Lemma fold_map_insert (f : N -> N) (l : list (N * SVLocusEdge)) :
  forall acc : gmap N SVLocusEdge,
  NoDup l.*1 ->
  (forall p, p ∈ l -> f p.1 = p.1) ->
  (forall p, p ∈ l -> acc !! p.1 = None) ->
  fold_left (fun acc val => map_insert (f val.1) val.2 acc) l acc
  = list_to_map l ∪ acc.
Proof.
  induction l as [|[k e] l IH]; intros acc Hnd Hf Hfresh.
  - cbn. now rewrite (left_id ∅ (∪)).
  - cbn [fold_left fst snd]. rewrite fmap_cons in Hnd. cbn in Hnd.
    apply NoDup_cons in Hnd as [Hk Hnd].
    pose proof (Hf (k, e) (list_elem_of_here _ _)) as Hfk.
    pose proof (Hfresh (k, e) (list_elem_of_here _ _)) as Hk0.
    cbn [fst] in Hfk, Hk0. rewrite Hfk.
    unfold map_insert at 2. rewrite Hk0.
    rewrite IH.
    + cbn [list_to_map foldr]. cbn.
      rewrite <- insert_union_l. symmetry.
      apply insert_union_r. now apply not_elem_of_list_to_map_1.
    + exact Hnd.
    + intros p Hp. apply Hf. now apply list_elem_of_further.
    + intros p Hp. rewrite lookup_insert_ne.
      * apply Hfresh. now apply list_elem_of_further.
      * intros ->. apply Hk. apply list_elem_of_fmap. now exists p.
Qed.

Lemma SVLocusNode_copy_0 (node : SVLocusNode) :
  targets_in_range node -> SVLocusNode_copy node 0 = node.
Proof.
  intros Hr. unfold SVLocusNode_copy. destruct node as [c gi m]. cbn in *.
  f_equal.
  rewrite (fold_map_insert (fun k => wrap32 (k + 0)) (map_items m) ∅).
  - rewrite (right_id ∅ (∪)). apply list_to_map_items.
  - apply map_items_NoDup.
  - intros p Hp. rewrite N.add_0_r. apply wrap32_small.
    apply (Hr p.1 p.2). now apply map_items_lookup.
  - intros p _. apply lookup_empty.
Qed.

(** [copyNodes] appends one copy per source node, in order, and emits one
    add-notification for each. *)
Lemma copyNodes_ok (fromNodes : list SVLocusNode) (offset : N) :
  forall s : SVLocus,
  (N.of_nat (length (_graph s) + length fromNodes) <= maxIndex)%N ->
  copyNodes fromNodes offset s
  = Ok tt (mk_locus
             (_graph s ++ map (fun n => SVLocusNode_copy n offset) fromNodes)
             (_index s)
             (notified s
              ++ map (fun i => (true, (_index s, N.of_nat i)))
                     (seq (length (_graph s)) (length fromNodes)))).
Proof.
  induction fromNodes as [|n rest IH]; intros s Hle.
  - cbn. unfold ret. rewrite !app_nil_r. now destruct s.
  - cbn [copyNodes]. unfold bind at 1.
    rewrite newGraphNode_ok by (cbn [length] in Hle; lia).
    unfold bind at 1. unfold getNode. cbn [_graph]. rewrite lookup_push.
    unfold bind at 1. unfold setNode, set_graph. cbn [_graph _index notified].
    rewrite insert_push.
    unfold bind at 1. unfold notifyAdd, notify_observers. cbn [_graph _index notified].
    rewrite IH.
    + cbn [_graph _index notified map length seq]. rewrite length_app. cbn [length].
      rewrite <- !app_assoc. cbn [app].
      now replace (length (_graph s) + 1)%nat with (S (length (_graph s))) by lia.
    + cbn [_graph]. rewrite length_app. cbn [length] in *. lia.
Qed.

(** C6. [copyLocus(other)] into an empty graph, for a source whose size and
    edge targets the index type holds, returns with a node sequence equal to
    that of [other]: the same number of nodes, and for each node the same
    count, interval and edge map (targets offset by zero); it emits one
    add-notification per copied node, in index order. *)
Theorem copyLocus_into_empty (other this : SVLocus) :
  _graph this = [] ->
  (N.of_nat (length (_graph other)) <= maxIndex)%N ->
  Forall targets_in_range (_graph other) ->
  exists s', copyLocus other this = Ok tt s'
    /\ _graph s' = _graph other
    /\ _index s' = _index this
    /\ notified s'
       = notified this
         ++ map (fun i => (true, (_index this, N.of_nat i)))
                (seq 0 (length (_graph other))).
Proof.
  intros Hempty Hle Hr. unfold copyLocus. rewrite Hempty. cbn [length].
  assert (Hw : wrap32 (N.of_nat 0) = 0%N) by reflexivity. rewrite Hw.
  eexists. split.
  - apply copyNodes_ok. rewrite Hempty. cbn [length]. lia.
  - cbn [_graph _index notified]. rewrite Hempty. cbn [app length].
    repeat split.
    clear Hle. induction Hr as [|n l Hn _ IH]; [reflexivity|].
    cbn [map]. now rewrite SVLocusNode_copy_0, IH.
Qed.

Lemma copyLocus_into_empty_witness :
  exists s',
    copyLocus (mk_locus [mk_node 2 (mk_interval 1 (mk_range 10 20)) {[1%N := mk_edge 3]};
                         mk_node 1 (mk_interval 1 (mk_range 50 60)) {[0%N := mk_edge 3]}]
                        5 [])
              (SVLocus_init 9)
    = Ok tt s'
    /\ _graph s' = [mk_node 2 (mk_interval 1 (mk_range 10 20)) {[1%N := mk_edge 3]};
                    mk_node 1 (mk_interval 1 (mk_range 50 60)) {[0%N := mk_edge 3]}]
    /\ notified s' = [(true, (9%N, 0%N)); (true, (9%N, 1%N))].
Proof.
  destruct (copyLocus_into_empty
              (mk_locus [mk_node 2 (mk_interval 1 (mk_range 10 20)) {[1%N := mk_edge 3]};
                         mk_node 1 (mk_interval 1 (mk_range 50 60)) {[0%N := mk_edge 3]}]
                        5 [])
              (SVLocus_init 9))
    as (s' & Hrun & Hg & _ & Hn).
  - reflexivity.
  - vm_compute. discriminate.
  - repeat constructor; intros k e H; cbn in H;
      apply lookup_singleton_Some in H as [<- _]; reflexivity.
  - exists s'. split; [exact Hrun|]. split; [exact Hg | exact Hn].
Defined.

(** *** Archives *)

Lemma load_edges_items_ok (l : list (N * SVLocusEdge)) :
  forall (acc : gmap N SVLocusEdge) (rest : archive),
  load_edges_items (length l) acc
    (flat_map (fun val => Z.of_N val.1 :: save_edge val.2) l ++ rest)
  = Some (fold_left (fun acc val => map_insert (Z.to_N (Z.of_N val.1)) val.2 acc) l acc,
          rest).
Proof.
  induction l as [|[k [c]] l IH]; intros acc rest; [reflexivity|].
  cbn [length flat_map save_edge fst snd edge_count app load_edges_items load_edge fold_left].
  rewrite (N2Z.id c). apply IH.
Qed.

Lemma load_edges_ok (m : gmap N SVLocusEdge) (rest : archive) :
  load_edges (save_edges m ++ rest) = Some (m, rest).
Proof.
  unfold save_edges, load_edges. cbn [app]. rewrite Nat2Z.id, load_edges_items_ok.
  rewrite (fold_map_insert (fun k => Z.to_N (Z.of_N k)) (map_items m) ∅).
  - now rewrite (right_id ∅ (∪)), list_to_map_items.
  - apply map_items_NoDup.
  - intros p _. apply N2Z.id.
  - intros p _. apply lookup_empty.
Qed.

Lemma load_node_ok (n : SVLocusNode) (rest : archive) :
  load_node (save_node n ++ rest) = Some (n, rest).
Proof.
  destruct n as [c [t [b e]] m].
  unfold save_node, save_interval, save_range, load_node, load_interval, load_range.
  cbn [node_count interval edges tid range begin_pos end_pos app].
  now rewrite load_edges_ok, N2Z.id.
Qed.

Lemma load_nodes_ok (g : list SVLocusNode) (rest : archive) :
  load_nodes (length g) (flat_map save_node g ++ rest) = Some (g, rest).
Proof.
  induction g as [|n g IH]; [reflexivity|].
  cbn [length flat_map load_nodes]. rewrite <- app_assoc.
  now rewrite load_node_ok, IH.
Qed.

Lemma load_graph_ok (g : list SVLocusNode) :
  load_graph (save_graph g) = Some (g, []).
Proof.
  unfold load_graph, save_graph. rewrite Nat2Z.id.
  rewrite <- (app_nil_r (flat_map save_node g)). apply load_nodes_ok.
Qed.

Lemma notifyDeletes_ok (idxs : list nat) :
  forall s : SVLocus,
  notifyDeletes idxs s
  = Ok tt (mk_locus (_graph s) (_index s)
                    (notified s ++ map (fun i => (false, (_index s, N.of_nat i))) idxs)).
Proof.
  induction idxs as [|i idxs IH]; intros s.
  - cbn. unfold ret. rewrite app_nil_r. now destruct s.
  - cbn [notifyDeletes]. unfold bind, notifyDelete, notify_observers.
    rewrite IH. cbn [_graph _index notified map]. now rewrite <- app_assoc.
Qed.

Lemma clear_ok (s : SVLocus) :
  clear s = Ok tt (mk_locus [] (_index s) (notified s ++ deletes s)).
Proof.
  unfold clear, bind. rewrite notifyDeletes_ok. reflexivity.
Qed.

(** [load] of any archive that reads to the end: the nodes are those of the
    archive, the locus index is untouched, and the channel has received the
    delete-notifications of [clear] and nothing else. *)
Lemma load_ok (ar : archive) (s : SVLocus) (g : list SVLocusNode) (rest : archive) :
  load_graph ar = Some (g, rest) ->
  load ar s = Ok tt (mk_locus g (_index s) (notified s ++ deletes s)).
Proof.
  intros H. unfold load, bind. rewrite clear_ok, H. reflexivity.
Qed.

(** C1 (as amended). Loading the archive saved from [g] into any graph [g2]
    returns; the node storage of [g2] is replaced, none of its former nodes
    staying, by the node sequence of [g]: the same number of nodes and for
    each its count, interval and edge map.  The locus index is not part of
    the archive: [g2] keeps its own. *)
Theorem load_save_restores_nodes (g g2 : SVLocus) :
  load (save g) g2
  = Ok tt (mk_locus (_graph g) (_index g2) (notified g2 ++ deletes g2)).
Proof.
  apply (load_ok _ _ _ []). apply load_graph_ok.
Qed.

(** C1 as stated fails: a graph saved with locus index 5 and loaded into a
    graph of locus index 7 comes back with locus index 7. *)
Lemma load_save_keeps_target_index :
  exists s', load (save (mk_locus [SVLocusNode_default] 5 [])) (SVLocus_init 7%N) = Ok tt s'
    /\ _graph s' = _graph (mk_locus [SVLocusNode_default] 5 [])
    /\ _index s' = 7%N
    /\ _index s' <> _index (mk_locus [SVLocusNode_default] 5 []).
Proof.
  eexists. split; [apply load_ok with (g := [SVLocusNode_default]) (rest := []); reflexivity|].
  cbn. repeat split. discriminate.
Qed.

(** C2 at its failing input. A graph of one node is saved and loaded into an
    empty graph that is being observed: the load returns with that node at
    index 0 and the channel has received no message at all. *)
Theorem load_creates_node_unannounced :
  exists s',
    load (save (mk_locus [mk_node 1 (mk_interval 1 (mk_range 10 20)) ∅] 0 []))
         (SVLocus_init 0)
    = Ok tt s'
    /\ _graph s' = [mk_node 1 (mk_interval 1 (mk_range 10 20)) ∅]
    /\ notified s' = [].
Proof.
  eexists. split.
  - apply load_ok with (g := [mk_node 1 (mk_interval 1 (mk_range 10 20)) ∅]) (rest := []).
    reflexivity.
  - split; reflexivity.
Qed.

End LocusFacts.

(* ===================================================================== *)
(** * Properties of the assembler configuration                           *)
(* ===================================================================== *)

(** C9. A default-constructed [SVLocusAssembler] holds initial word length
    37, maximum word length 65, minimum contig length 15, minimum coverage 1,
    maximum error rate 0.2, minimum seed-read count 2 and at most 50
    assembly iterations. *)
Theorem SVLocusAssembler_default_configuration :
  Assembler.wordLength_ Assembler.SVLocusAssembler_init = 37%N
  /\ Assembler.maxWordLength_ Assembler.SVLocusAssembler_init = 65%N
  /\ Assembler.minContigLength_ Assembler.SVLocusAssembler_init = 15%N
  /\ Assembler.minCoverage_ Assembler.SVLocusAssembler_init = 1%N
  /\ Assembler.maxError_ Assembler.SVLocusAssembler_init = (2 # 10)%Q
  /\ Assembler.minSeedReads_ Assembler.SVLocusAssembler_init = 2%N
  /\ Assembler.maxAssemblyIterations_ Assembler.SVLocusAssembler_init = 50%N.
Proof. repeat split. Qed.

(* ===================================================================== *)
(** * Properties of the jump aligner                                      *)
(* ===================================================================== *)

Section AlignerFacts.
Import JumpAligner.

Lemma max3_value (v0 v1 v2 : Z) : fst (max3 v0 v1 v2) = Z.max (Z.max v0 v1) v2.
Proof.
  unfold max3.
  destruct (Z.ltb_spec v0 v1); cbn [fst];
    match goal with |- context [?a <? ?b] => destruct (Z.ltb_spec a b) end;
    cbn [fst]; lia.
Qed.

Lemma max4_value (v0 v1 v2 v3 : Z) :
  fst (max4 v0 v1 v2 v3) = Z.max (Z.max (Z.max v0 v1) v2) v3.
Proof.
  unfold max4. pose proof (max3_value v0 v1 v2) as H3.
  destruct (Z.ltb_spec (fst (max3 v0 v1 v2)) v3); cbn [fst]; lia.
Qed.

Lemma wrapScore_small (z : Z) : - 2 ^ 31 <= z < 2 ^ 31 -> wrapScore z = z.
Proof. intros Hz. unfold wrapScore. rewrite Z.mod_small; lia. Qed.

Lemma rowLower_tail (x : Z) (k : nat) (v : ScoreVal.t) (row : list ScoreVal.t) :
  rowLower x k (v :: row) -> rowLower x (S k) row.
Proof.
  intros H i w Hi. replace (S k + i)%nat with (k + S i)%nat by lia.
  now apply H.
Qed.

(** The first score wins unless another is strictly greater. *)
Lemma max3_first (v0 v1 v2 : Z) :
  v1 <= v0 -> v2 <= v0 -> max3 v0 v1 v2 = (v0, AlignState.MATCH).
Proof.
  intros H1 H2. unfold max3.
  destruct (Z.ltb_spec v0 v1); [lia|]. cbn [fst].
  destruct (Z.ltb_spec v0 v2); [lia|]. reflexivity.
Qed.

(** C3, what the code does. In pass 1 the delete score of a cell is the
    best of (previous-row match + open, previous-row delete, previous-row
    insert) plus the gap-extend penalty twice: once in the delete block and
    once more in the jump block. *)
Theorem pass1_delete_extends_twice (scores : AlignmentScores.t) (jumpScore : Z)
    (q r : ascii) (diag up left : ScoreVal.t) :
  ScoreVal.del (fst (cell1 scores jumpScore q r diag up left))
  = Z.max (Z.max (ScoreVal.match_ up + AlignmentScores.open scores) (ScoreVal.del up))
          (ScoreVal.ins up)
    + 2 * AlignmentScores.extend scores.
Proof.
  unfold cell1. cbn [fst ScoreVal.del]. rewrite max3_value. lia.
Qed.

(** Pass 2 adds it once. *)
Lemma pass2_delete_extends_once (scores : AlignmentScores.t)
    (q r : ascii) (diag up left : ScoreVal.t) :
  ScoreVal.del (fst (cell2 scores q r diag up left))
  = Z.max (Z.max (ScoreVal.match_ up + AlignmentScores.open scores) (ScoreVal.del up))
          (ScoreVal.ins up)
    + AlignmentScores.extend scores.
Proof.
  unfold cell2. cbn [fst ScoreVal.del]. now rewrite max3_value.
Qed.

(** The first cell of pass 1 for query "A" against ref1 "A" with scores
    match 2, mismatch -4, open -5, extend -1: the three predecessors are
    -9, -10000 and -10000, and the delete score stored is -11, not -10. *)
Example pass1_delete_score_A_A :
  map ScoreVal.del
      (thisSV (pass (row1 (AlignmentScores.mk 2 (-4) (-5) (-1)) (-3) ["A"%char])
                    ["A"%char] 0
                    (mk_dp (boundaryRow (AlignmentScores.mk 2 (-4) (-5) (-1)) ["A"%char])
                           (replicate 2 ScoreVal_fresh)
                           [replicate 2 PtrVal_fresh] [replicate 2 PtrVal_fresh]
                           BackTrace_init)))
  = [badVal; -11].
Proof. reflexivity. Qed.

(** C4 at its failing input. Scores: match 1, mismatch -20000, open -20000,
    extend -1; query "AA", ref1 "C", ref2 "CCA".  Row 3 of pass 2 records
    JUMP as the predecessor of the match state of cell (2,3), with the
    strictly best score -9999, and the traceback is seeded there.  Reading
    the matrix of pass 2, or the two matrices one after the other, the
    traceback moves to (1,2) in state JUMP and reaches the
    unknown-align-state assertion; reading the matrix of pass 1 alone it has
    no cell (2,3) to read.  In no case does the loop terminate normally. *)
Theorem align_reaches_unknown_state :
  bt (dp (AlignmentScores.mk 1 (-20000) (-20000) (-1)) (-3)
         ["A"; "A"]%char [] ["C"]%char ["C"; "C"; "A"]%char)
  = mk_bt (-9999) AlignState.MATCH 2 3 true
  /\ (exists pv,
       val (_ptrMat2 (dp (AlignmentScores.mk 1 (-20000) (-20000) (-1)) (-3)
                         ["A"; "A"]%char [] ["C"]%char ["C"; "C"; "A"]%char)) 2 3
       = Some pv
       /\ PtrVal.match_ pv = AlignState.JUMP)
  /\ align (fun _ m2 => m2) [] (AlignmentScores.mk 1 (-20000) (-20000) (-1)) (-3)
           ["A"; "A"]%char ["C"]%char ["C"; "C"; "A"]%char
     = Aborted UnknownAlignState
  /\ align (fun m1 m2 => m1 ++ tail m2) []
           (AlignmentScores.mk 1 (-20000) (-20000) (-1)) (-3)
           ["A"; "A"]%char ["C"]%char ["C"; "C"; "A"]%char
     = Aborted UnknownAlignState
  /\ align (fun m1 _ => m1) [] (AlignmentScores.mk 1 (-20000) (-20000) (-1)) (-3)
           ["A"; "A"]%char ["C"]%char ["C"; "C"; "A"]%char
     = Aborted OutsideMatrix.
Proof.
  split; [reflexivity|]. split; [eexists; split; reflexivity|].
  repeat split; reflexivity.
Qed.

(** The same with penalties that are each smaller than the sentinel:
    mismatch, open and extend -4000, query "AAAA". *)
Example align_reaches_unknown_state_4000 :
  align (fun _ m2 => m2) [] (AlignmentScores.mk 1 (-4000) (-4000) (-4000)) (-3)
        ["A"; "A"; "A"; "A"]%char ["C"]%char ["C"; "C"; "A"]%char
  = Aborted UnknownAlignState
  /\ align (fun m1 m2 => m1 ++ tail m2) []
           (AlignmentScores.mk 1 (-4000) (-4000) (-4000)) (-3)
           ["A"; "A"; "A"; "A"]%char ["C"]%char ["C"; "C"; "A"]%char
     = Aborted UnknownAlignState.
Proof. split; reflexivity. Qed.

End AlignerFacts.

(** ** A query that is a substring of ref1 *)

Section SubstringOfRef1.
Import JumpAligner.

Variable scores : AlignmentScores.t.
Variable jumpScore : Z.
Variable query : list ascii.

Local Abbreviation M := (AlignmentScores.match_ scores).
Local Abbreviation X := (AlignmentScores.mismatch scores).
Local Abbreviation O := (AlignmentScores.open scores).
Local Abbreviation E := (AlignmentScores.extend scores).

Hypothesis Hmatch : 0 <= M.
Hypothesis Hmis : X < M.
Hypothesis Hopen : O <= 0.
Hypothesis Hext : E < 0.

(** The scores of a whole query of mismatches and of a whole query of
    matches are in the range of [ScoreType]. *)
Hypothesis Hlow : - 2 ^ 31 <= Z.of_nat (length query) * X.
Hypothesis Hhigh : Z.of_nat (length query) * M < 2 ^ 31.

Lemma symScore_le (q r : ascii) : symScore scores q r <= M.
Proof. unfold symScore. destruct (Ascii.eqb q r); lia. Qed.


Lemma cell1_bound (q r : ascii) (i : nat) (diag up left : ScoreVal.t) :
  cellBound1 M i diag -> cellBound1 M (S i) up -> cellBound1 M i left ->
  cellBound1 M (S i) (fst (cell1 scores jumpScore q r diag up left)).
Proof.
  intros (Hd1 & Hd2 & Hd3) (Hu1 & Hu2 & Hu3) (Hl1 & Hl2 & Hl3).
  unfold cellBound1, cell1. cbn [fst ScoreVal.match_ ScoreVal.del ScoreVal.ins].
  rewrite !max3_value. pose proof (symScore_le q r).
  rewrite Nat2Z.inj_succ in *. lia.
Qed.

Lemma cell1_tight (q r : ascii) (i : nat) (diag up left : ScoreVal.t) :
  cellBound1 M i diag ->
  ScoreVal.match_ (fst (cell1 scores jumpScore q r diag up left)) = Z.of_nat (S i) * M ->
  ScoreVal.match_ diag = Z.of_nat i * M
  /\ PtrVal.match_ (snd (cell1 scores jumpScore q r diag up left)) = AlignState.MATCH.
Proof.
  intros (Hd1 & Hd2 & Hd3). unfold cell1.
  cbn [fst snd ScoreVal.match_ PtrVal.match_].
  rewrite max3_value. pose proof (symScore_le q r). rewrite Nat2Z.inj_succ.
  intros Heq.
  assert (Hm : ScoreVal.match_ diag = Z.of_nat i * M) by lia.
  split; [exact Hm|]. rewrite max3_first by lia. reflexivity.
Qed.


Lemma cell2_bound (q r : ascii) (i : nat) (diag up left : ScoreVal.t) :
  cellBound2 M i diag -> cellBound2 M (S i) up -> cellBound2 M i left ->
  cellBound2 M (S i) (fst (cell2 scores q r diag up left)).
Proof.
  intros (Hd1 & Hd2 & Hd3 & Hd4) (Hu1 & Hu2 & Hu3 & Hu4) (Hl1 & Hl2 & Hl3 & Hl4).
  unfold cellBound2, cell2.
  cbn [fst ScoreVal.match_ ScoreVal.del ScoreVal.ins ScoreVal.jump].
  rewrite !max4_value, !max3_value. pose proof (symScore_le q r).
  rewrite Nat2Z.inj_succ in *. lia.
Qed.

(** *** One row *)

Lemma rowBound1_tail (k : nat) (v : ScoreVal.t) (row : ScoreVec) :
  rowBound1 M k (v :: row) -> rowBound1 M (S k) row.
Proof.
  intros H i w Hi. replace (S k + i)%nat with (k + S i)%nat by lia.
  now apply H.
Qed.

Lemma rowBound2_tail (k : nat) (v : ScoreVal.t) (row : ScoreVec) :
  rowBound2 M k (v :: row) -> rowBound2 M (S k) row.
Proof.
  intros H i w Hi. replace (S k + i)%nat with (k + S i)%nat by lia.
  now apply H.
Qed.

Lemma fillRow_length (cell : ascii -> ascii -> ScoreVal.t -> ScoreVal.t -> ScoreVal.t
                             -> ScoreVal.t * PtrVal.t)
    (r : ascii) (qs : list ascii) :
  forall (prev : ScoreVec) (left : ScoreVal.t),
  length prev = S (length qs) -> length (fillRow cell r qs prev left) = length qs.
Proof.
  induction qs as [|q qs IH]; intros prev left Hlen; [now destruct prev|].
  destruct prev as [|diag [|up prev]]; cbn in Hlen; try lia.
  cbn [fillRow length]. f_equal. apply IH. cbn. lia.
Qed.


Lemma fillRow_bound1 (r : ascii) (qs : list ascii) :
  forall (prev : ScoreVec) (left : ScoreVal.t) (k : nat),
  cellBound1 M k left -> rowBound1 M k prev ->
  forall i c, fillRow (cell1 scores jumpScore) r qs prev left !! i = Some c ->
              cellBound1 M (S k + i) (fst c).
Proof.
  induction qs as [|q qs IH]; intros prev left k Hl Hp i c Hc; [simplify_eq/=|].
  destruct prev as [|diag [|up prev]]; [simplify_eq/= | simplify_eq/= |].
  assert (Hhead : cellBound1 M (S k) (fst (cell1 scores jumpScore q r diag up left))).
  { apply cell1_bound; [| |exact Hl].
    - replace k with (k + 0)%nat by lia. exact (Hp 0%nat diag eq_refl).
    - replace (S k) with (k + 1)%nat by lia. exact (Hp 1%nat up eq_refl). }
  destruct i as [|i].
  - simplify_eq/=. now replace (S (k + 0))%nat with (S k) by lia.
  - cbn [fillRow] in Hc. rewrite lookup_cons in Hc.
    replace (S k + S i)%nat with (S (S k) + i)%nat by lia.
    eapply IH; [exact Hhead | eapply rowBound1_tail; exact Hp | exact Hc].
Qed.

Lemma fillRow_bound2 (r : ascii) (qs : list ascii) :
  forall (prev : ScoreVec) (left : ScoreVal.t) (k : nat),
  cellBound2 M k left -> rowBound2 M k prev ->
  forall i c, fillRow (cell2 scores) r qs prev left !! i = Some c ->
              cellBound2 M (S k + i) (fst c).
Proof.
  induction qs as [|q qs IH]; intros prev left k Hl Hp i c Hc; [simplify_eq/=|].
  destruct prev as [|diag [|up prev]]; [simplify_eq/= | simplify_eq/= |].
  assert (Hhead : cellBound2 M (S k) (fst (cell2 scores q r diag up left))).
  { apply cell2_bound; [| |exact Hl].
    - replace k with (k + 0)%nat by lia. exact (Hp 0%nat diag eq_refl).
    - replace (S k) with (k + 1)%nat by lia. exact (Hp 1%nat up eq_refl). }
  destruct i as [|i].
  - simplify_eq/=. now replace (S (k + 0))%nat with (S k) by lia.
  - cbn [fillRow] in Hc. rewrite lookup_cons in Hc.
    replace (S k + S i)%nat with (S (S k) + i)%nat by lia.
    eapply IH; [exact Hhead | eapply rowBound2_tail; exact Hp | exact Hc].
Qed.

Lemma fillRow_tight (r : ascii) (qs : list ascii) :
  forall (prev : ScoreVec) (left : ScoreVal.t) (k : nat),
  rowBound1 M k prev ->
  forall i c, fillRow (cell1 scores jumpScore) r qs prev left !! i = Some c ->
    ScoreVal.match_ (fst c) = Z.of_nat (S k + i) * M ->
    (exists d, prev !! i = Some d /\ ScoreVal.match_ d = Z.of_nat (k + i) * M)
    /\ PtrVal.match_ (snd c) = AlignState.MATCH.
Proof.
  induction qs as [|q qs IH]; intros prev left k Hp i c Hc Hm; [simplify_eq/=|].
  destruct prev as [|diag [|up prev]]; [simplify_eq/= | simplify_eq/= |].
  destruct i as [|i].
  - injection Hc as <-.
    replace (S k + 0)%nat with (S k) in Hm by lia.
    assert (Hd : cellBound1 M k diag).
    { replace k with (k + 0)%nat by lia. exact (Hp 0%nat diag eq_refl). }
    destruct (cell1_tight q r k diag up left Hd Hm) as [Hdm Hptr].
    split; [|exact Hptr]. exists diag. split; [reflexivity|].
    now replace (k + 0)%nat with k by lia.
  - cbn [fillRow] in Hc. rewrite lookup_cons in Hc.
    replace (S k + S i)%nat with (S (S k) + i)%nat in Hm by lia.
    destruct (IH (up :: prev) _ (S k) (rowBound1_tail _ _ _ Hp) i c Hc Hm)
      as [(d & Hd & Hdm) Hptr].
    split; [|exact Hptr]. exists d. split; [exact Hd|].
    now replace (k + S i)%nat with (S k + i)%nat by lia.
Qed.

(** *** The seed *)

Lemma lookup_map {A B} (f : A -> B) (l : list A) (i : nat) :
  map f l !! i = f <$> l !! i.
Proof. exact (list_lookup_fmap f l i). Qed.

Lemma seed_cases (b : BackTrace) (m : Z) (r q : nat) :
  (seed b m r q = b /\ isInit b = true /\ m <= max b)
  \/ (seed b m r q = mk_bt m (state b) q r true /\ (isInit b = true -> max b < m)).
Proof.
  unfold seed. destruct (isInit b); cbn [andb].
  - destruct (Z.leb_spec m (max b)); [left|right]; auto.
  - right. split; [reflexivity|discriminate].
Qed.


Lemma onDiagonal_app (mat ext : PtrMat) (q : nat) :
  forall r, onDiagonal mat q r -> onDiagonal (mat ++ ext) q r.
Proof.
  induction q as [|q IH]; intros r H; [exact I|].
  destruct r as [|r]; [exact H|].
  destruct H as [(pv & Hv & Hm) Hrest]. split; [|now apply IH].
  exists pv. split; [|exact Hm]. unfold val in *.
  destruct (mat !! S r) as [row|] eqn:Hrow; [|discriminate].
  now rewrite (lookup_app_l_Some _ _ _ _ Hrow).
Qed.

Lemma lastMatch_lookup (v : ScoreVec) (d : ScoreVal.t) :
  v !! length query = Some d -> lastMatch query v = ScoreVal.match_ d.
Proof.
  intros H. unfold lastMatch. now rewrite (nth_lookup_Some _ _ _ _ H).
Qed.

Lemma lastMatch_bound1 (v : ScoreVec) :
  length v = S (length query) -> rowBound1 M 0 v ->
  lastMatch query v <= Z.of_nat (length query) * M.
Proof.
  intros Hlen Hb.
  destruct (lookup_lt_is_Some_2 v (length query)) as [d Hd]; [lia|].
  rewrite (lastMatch_lookup v d Hd). apply (Hb _ _ Hd).
Qed.

Lemma lastMatch_bound2 (v : ScoreVec) :
  length v = S (length query) -> rowBound2 M 0 v ->
  lastMatch query v <= Z.of_nat (length query) * M.
Proof.
  intros Hlen Hb.
  destruct (lookup_lt_is_Some_2 v (length query)) as [d Hd]; [lia|].
  rewrite (lastMatch_lookup v d Hd). apply (Hb _ _ Hd).
Qed.

Lemma startCell_bound1 (v : ScoreVec) : cellBound1 M 0 (startCell v).
Proof. unfold cellBound1, startCell, badVal. cbn. lia. Qed.

Lemma startCell_bound2 (v : ScoreVec) :
  ScoreVal.jump (hd ScoreVal_fresh v) <= 0 -> cellBound2 M 0 (startCell v).
Proof. intros H. unfold cellBound2, startCell, badVal. cbn. lia. Qed.

(** *** Pass 1 *)

Lemma row1_inv (r : ascii) (k : nat) (st : DP) :
  inv1 M query k st -> inv1 M query (S k) (row1 scores jumpScore query r k st).
Proof.
  intros (Hlen & Hb & Ht & Hmat & Hj1 & Hj2 & Hst & Hbt & _).
  set (v0 := startCell (prevSV st)).
  set (cells := fillRow (cell1 scores jumpScore) r query (thisSV st) v0).
  assert (Hcl : length cells = length query) by now apply fillRow_length.
  assert (Hlen' : length (v0 :: map fst cells) = S (length query)).
  { cbn [length]. now rewrite length_map, Hcl. }
  assert (Hb' : rowBound1 M 0 (v0 :: map fst cells)).
  { intros [|i] v Hv.
    - simplify_eq/=. apply startCell_bound1.
    - rewrite lookup_cons, lookup_map in Hv.
      destruct (cells !! i) as [c|] eqn:Hc; [|discriminate]. simplify_eq/=.
      apply (fillRow_bound1 r query (thisSV st) v0 0%nat
               (startCell_bound1 _) Hb i c Hc). }
  assert (Ht' : rowTight M (_ptrMat1 st ++ [PtrVal_fresh :: map snd cells]) 0
                         (v0 :: map fst cells) (S k)).
  { intros [|i] v Hv Hm; [exact I|].
    rewrite lookup_cons, lookup_map in Hv.
    destruct (cells !! i) as [c|] eqn:Hc; [|discriminate]. simplify_eq/=.
    destruct (fillRow_tight r query (thisSV st) v0 0%nat Hb i c Hc Hm)
      as [(d & Hd & Hdm) Hptr].
    split.
    - exists (snd c). split; [|exact Hptr]. unfold val.
      rewrite lookup_app_r by lia. rewrite Hmat, Nat.sub_diag.
      rewrite !lookup_cons.
      now rewrite lookup_map, Hc.
    - apply onDiagonal_app. exact (Ht i d Hd Hdm). }
  unfold row1. fold v0. fold cells. unfold inv1.
  cbn [thisSV prevSV _ptrMat1 _ptrMat2 bt].
  pose proof (lastMatch_bound1 _ Hlen' Hb') as Hlast.
  split; [exact Hlen'|]. split; [exact Hb'|]. split; [exact Ht'|].
  split; [rewrite length_app; cbn; lia|].
  split; [exact Hj2|]. split; [exact Hj1|].
  destruct (seed_cases (bt st) (lastMatch query (v0 :: map fst cells))
                       (k + 1) (length query)) as [(-> & Hi & Hle)|(-> & Hlt)].
  - split; [exact Hst|]. split.
    + intros _. destruct (Hbt Hi) as [Hmax Htop]. split; [exact Hmax|].
      intros Heq. destruct (Htop Heq) as (Hq & Hr & Hd).
      split; [exact Hq|]. split; [lia|]. now apply onDiagonal_app.
    + intros _. split; [exact Hi | exact Hle].
  - cbn [state isInit max queryStart refStart].
    split; [exact Hst|]. split.
    + intros _. split; [exact Hlast|]. intros Heq.
      split; [reflexivity|]. split; [lia|].
      destruct (lookup_lt_is_Some_2 (v0 :: map fst cells) (length query)) as [d Hd];
        [lia|].
      rewrite (lastMatch_lookup _ d Hd) in Heq.
      replace (k + 1)%nat with (S k) by lia.
      exact (Ht' (length query) d Hd Heq).
    + intros _. split; [reflexivity|lia].
Qed.

Lemma pass1_inv (ref : list ascii) :
  forall (k : nat) (st : DP),
  inv1 M query k st ->
  inv1 M query (k + length ref) (pass (row1 scores jumpScore query) ref k st).
Proof.
  induction ref as [|r ref IH]; intros k st Hinv.
  - cbn. now replace (k + 0)%nat with k by lia.
  - cbn [pass length]. replace (k + S (length ref))%nat with (S k + length ref)%nat by lia.
    apply IH. now apply row1_inv.
Qed.


(** No product of an index and the mismatch score wraps. *)
Lemma mismatch_range (i : nat) :
  (i <= length query)%nat -> - 2 ^ 31 <= Z.of_nat i * X < 2 ^ 31.
Proof.
  intros Hi.
  assert (Hup : Z.of_nat i * X <= Z.of_nat (length query) * M) by nia.
  destruct (Z.le_gt_cases 0 X) as [Hpos|Hneg]; [nia|].
  assert (Hdown : Z.of_nat (length query) * X <= Z.of_nat i * X) by nia. lia.
Qed.

Lemma boundaryRow_lookup (i : nat) (v : ScoreVal.t) :
  boundaryRow scores query !! i = Some v ->
  v = ScoreVal.mk (Z.of_nat i * X) badVal badVal badVal.
Proof.
  unfold boundaryRow. rewrite lookup_map. intros H.
  destruct (seq 0 (length query + 1) !! i) as [j|] eqn:Hj; [|discriminate].
  apply lookup_seq in Hj as [-> Hi]. simplify_eq/=.
  rewrite wrapScore_small; [reflexivity|apply mismatch_range; lia].
Qed.

Lemma boundaryRow_length : length (boundaryRow scores query) = S (length query).
Proof. unfold boundaryRow. rewrite length_map, length_seq. lia. Qed.

Lemma boundaryRow_bound1 : rowBound1 M 0 (boundaryRow scores query).
Proof.
  intros i v Hv. apply boundaryRow_lookup in Hv as ->.
  unfold cellBound1, badVal. cbn. nia.
Qed.

Lemma boundaryRow_bound2 : rowBound2 M 0 (boundaryRow scores query).
Proof.
  intros i v Hv. apply boundaryRow_lookup in Hv as ->.
  unfold cellBound2, badVal. cbn. nia.
Qed.

Lemma boundaryRow_head :
  hd ScoreVal_fresh (boundaryRow scores query) = ScoreVal.mk 0 badVal badVal badVal.
Proof.
  unfold boundaryRow. now replace (length query + 1)%nat with (S (length query)) by lia.
Qed.

Lemma headJump_resize (n : nat) (v : list ScoreVal.t) :
  headJump (resize (S n) ScoreVal_fresh v) = headJump v.
Proof. now destruct v. Qed.

(** The state before the first row of pass 1. *)
Lemma inv1_start (_score2 : list ScoreVal.t) :
  headJump _score2 <= 0 ->
  inv1 M query 0
       (mk_dp (boundaryRow scores query)
              (resize (length query + 1) ScoreVal_fresh _score2)
              [replicate (length query + 1) PtrVal_fresh]
              [replicate (length query + 1) PtrVal_fresh]
              BackTrace_init).
Proof.
  intros Hstale. unfold inv1. cbn [thisSV prevSV _ptrMat1 bt].
  split; [apply boundaryRow_length|]. split; [apply boundaryRow_bound1|].
  split.
  { intros i v Hv Hm. apply boundaryRow_lookup in Hv as ->. cbn in Hm.
    assert (i = 0%nat) by nia. subst i. exact I. }
  split; [reflexivity|].
  split; [rewrite boundaryRow_head; unfold badVal; cbn; lia|].
  split.
  { replace (length query + 1)%nat with (S (length query)) by lia.
    fold (headJump (resize (S (length query)) ScoreVal_fresh _score2)).
    now rewrite headJump_resize. }
  split; [reflexivity|]. split; [discriminate|lia].
Qed.








(** *** Pass 2 and the fall-off loop *)

Lemma row2_inv (r : ascii) (k : nat) (st : DP) :
  inv2 M query st -> inv2 M query (row2 scores query r k st).
Proof.
  intros (Hlen & Hb & Hj).
  set (v0 := startCell (prevSV st)).
  set (cells := fillRow (cell2 scores) r query (thisSV st) v0).
  assert (Hcl : length cells = length query) by now apply fillRow_length.
  unfold row2. fold v0. fold cells. unfold inv2. cbn [thisSV prevSV].
  split; [cbn [length]; now rewrite length_map, Hcl|]. split.
  - intros [|i] v Hv.
    + simplify_eq/=. now apply startCell_bound2.
    + rewrite lookup_cons, lookup_map in Hv.
      destruct (cells !! i) as [c|] eqn:Hc; [|discriminate]. simplify_eq/=.
      apply (fillRow_bound2 r query (thisSV st) v0 0%nat
               (startCell_bound2 _ Hj) Hb i c Hc).
  - destruct (thisSV st) as [|d row] eqn:Hrow; [discriminate|].
    cbn [hd]. destruct (Hb 0%nat d eq_refl) as (_ & _ & _ & Hjd). cbn in Hjd. lia.
Qed.

Lemma symScore_ge (q r : ascii) : X <= symScore scores q r.
Proof. unfold symScore. destruct (Ascii.eqb q r); lia. Qed.

Lemma fillRow_lower (r : ascii) (qs : list ascii) :
  forall (prev : ScoreVec) (left : ScoreVal.t) (k : nat),
  rowLower X k prev ->
  forall i c, fillRow (cell2 scores) r qs prev left !! i = Some c ->
              Z.of_nat (S k + i) * X <= ScoreVal.match_ (fst c).
Proof.
  induction qs as [|q qs IH]; intros prev left k Hp i c Hc; [simplify_eq/=|].
  destruct prev as [|diag [|up prev]]; [simplify_eq/= | simplify_eq/= |].
  destruct i as [|i].
  - simplify_eq/=. pose proof (Hp 0%nat diag eq_refl) as Hd.
    replace (k + 0)%nat with k in Hd by lia.
    rewrite max4_value. pose proof (symScore_ge q r).
    replace (S (k + 0))%nat with (S k) by lia. rewrite Nat2Z.inj_succ. lia.
  - cbn [fillRow] in Hc. rewrite lookup_cons in Hc.
    replace (S k + S i)%nat with (S (S k) + i)%nat by lia.
    eapply IH; [eapply rowLower_tail; exact Hp | exact Hc].
Qed.

Lemma row2_lower (r : ascii) (k : nat) (st : DP) :
  rowLower X 0 (thisSV st) -> rowLower X 0 (thisSV (row2 scores query r k st)).
Proof.
  intros Hp. unfold row2. cbn [thisSV]. intros [|i] v Hv.
  - simplify_eq/=. lia.
  - rewrite lookup_cons, lookup_map in Hv.
    match type of Hv with
    | context [fillRow ?c ?r ?q ?p ?l !! i] =>
        destruct (fillRow c r q p l !! i) as [cl|] eqn:Hc; [|discriminate]
    end.
    simplify_eq/=. exact (fillRow_lower _ _ _ _ 0%nat Hp i cl Hc).
Qed.

Lemma pass2_lower (ref : list ascii) :
  forall (k : nat) (st : DP),
  rowLower X 0 (thisSV st) ->
  rowLower X 0 (thisSV (pass (row2 scores query) ref k st)).
Proof.
  induction ref as [|r ref IH]; intros k st Hp; [exact Hp|].
  cbn [pass]. now apply IH, row2_lower.
Qed.

Lemma boundaryRow_lower : rowLower X 0 (boundaryRow scores query).
Proof. intros i v Hv. apply boundaryRow_lookup in Hv as ->. cbn. lia. Qed.

(** No score that the fall-off loop compares wraps. *)
Lemma fallOff_range (d : ScoreVal.t) (qi : nat) :
  (qi <= length query)%nat ->
  Z.of_nat qi * X <= ScoreVal.match_ d <= Z.of_nat qi * M ->
  Z.of_nat (length query) * X
  <= wrapScore (ScoreVal.match_ d
                + (Z.of_nat (length query) - Z.of_nat qi) * X)
  <= Z.of_nat (length query) * M.
Proof.
  intros Hqi Hd.
  assert (Hgap : (Z.of_nat (length query) - Z.of_nat qi) * X
                 <= (Z.of_nat (length query) - Z.of_nat qi) * M) by nia.
  rewrite wrapScore_small; lia.
Qed.




(** *** The traceback down a diagonal *)




End SubstringOfRef1.

Lemma scoreSpan_range (scores : JumpAligner.AlignmentScores.t) (jumpScore : Z) (n : nat) :
  0 <= JumpAligner.AlignmentScores.match_ scores ->
  JumpAligner.AlignmentScores.open scores <= 0 ->
  JumpAligner.AlignmentScores.extend scores < 0 ->
  scoreSpan scores jumpScore n < 2 ^ 31 ->
  - 2 ^ 31 <= Z.of_nat n * JumpAligner.AlignmentScores.mismatch scores
  /\ Z.of_nat n * JumpAligner.AlignmentScores.match_ scores < 2 ^ 31.
Proof.
  unfold scoreSpan, JumpAligner.badVal. intros HM HO HE Hspan.
  destruct (Z.max_spec (JumpAligner.AlignmentScores.match_ scores)
              (- JumpAligner.AlignmentScores.mismatch scores)) as [[_ Hmax]|[_ Hmax]];
    rewrite Hmax in Hspan; nia.
Qed.




(** ** The traceback in general *)

Section TracebackFacts.
Import JumpAligner.

(** The loop ends within [queryStart + refStart] iterations. *)
Lemma traceback_enough_fuel (mat : list (list PtrVal.t)) (fuel : nat) :
  forall (b : BackTrace) (path : list ALIGNPATH.path_segment) (ps : ALIGNPATH.path_segment),
  (queryStart b + refStart b <= fuel)%nat ->
  traceback fuel mat b path ps <> OutOfFuel.
Proof.
  induction fuel as [|fuel IH]; intros b path ps Hf.
  - cbn. destruct (queryStart b), (refStart b); cbn; (discriminate || lia).
  - cbn [traceback].
    destruct (queryStart b) as [|q] eqn:Hq; [cbn; discriminate|].
    destruct (refStart b) as [|r] eqn:Hr; [cbn; discriminate|].
    cbn [Nat.ltb Nat.leb andb].
    destruct (val mat (S q) (S r)) as [pv|]; [|discriminate].
    destruct (state b); try discriminate; apply IH; cbn [queryStart refStart]; lia.
Qed.

(** The segments a path can hold. *)
Lemma updatePath_types (path : list ALIGNPATH.path_segment)
    (ps : ALIGNPATH.path_segment) (atype : ALIGNPATH.align_t) :
  Forall (fun s => ALIGNPATH.type s <> ALIGNPATH.NONE) path ->
  atype <> ALIGNPATH.NONE ->
  Forall (fun s => ALIGNPATH.type s <> ALIGNPATH.NONE) (fst (updatePath path ps atype))
  /\ ALIGNPATH.type (snd (updatePath path ps atype)) <> ALIGNPATH.NONE.
Proof.
  intros Hp Ha. unfold updatePath.
  destruct (bool_decide_reflect (ALIGNPATH.type ps = atype)) as [Heq|Hne]; cbn [fst snd].
  - split; [exact Hp|congruence].
  - split; [|exact Ha].
    destruct (bool_decide_reflect (ALIGNPATH.type ps = ALIGNPATH.NONE)); [exact Hp|].
    apply Forall_app. split; [exact Hp|]. now constructor.
Qed.

Lemma traceback_types (mat : list (list PtrVal.t)) (fuel : nat) :
  forall (b b' : BackTrace) (path path' : list ALIGNPATH.path_segment)
         (ps ps' : ALIGNPATH.path_segment),
  Forall (fun s => ALIGNPATH.type s <> ALIGNPATH.NONE) path ->
  traceback fuel mat b path ps = Returned (b', path', ps') ->
  Forall (fun s => ALIGNPATH.type s <> ALIGNPATH.NONE) path'.
Proof.
  induction fuel as [|fuel IH]; intros b b' path path' ps ps' Hp Hrun.
  - cbn [traceback] in Hrun.
    destruct ((0 <? queryStart b)%nat && (0 <? refStart b)%nat);
      [discriminate|]. now simplify_eq.
  - cbn [traceback] in Hrun.
    destruct ((0 <? queryStart b)%nat && (0 <? refStart b)%nat); [|now simplify_eq].
    destruct (val mat (queryStart b) (refStart b)) as [pv|]; [|discriminate].
    destruct (state b); try discriminate;
      (eapply IH; [|exact Hrun]; apply updatePath_types; [exact Hp|discriminate]).
Qed.

(** Whenever [align] returns, whichever matrix the traceback reads, the
    path holds MATCH, INSERT, DELETE and SOFT_CLIP segments only. *)
Lemma align_path_types (_ptrMat : list (list PtrVal.t) -> list (list PtrVal.t)
                                  -> list (list PtrVal.t))
    (_score2 : list ScoreVal.t)
    (scores : AlignmentScores.t) (jumpScore : Z) (query ref1 ref2 : list ascii)
    (res : AlignmentResult) :
  align _ptrMat _score2 scores jumpScore query ref1 ref2 = Returned res ->
  Forall (fun s => ALIGNPATH.type s <> ALIGNPATH.NONE) (apath (align_ res)).
Proof.
  unfold align. intros Hrun.
  repeat match type of Hrun with
         | (if ?c then _ else _) = _ => destruct c; [discriminate|]
         end.
  match type of Hrun with
  | match traceback ?f ?m ?b ?p ?s with _ => _ end = _ =>
      destruct (traceback f m b p s) as [[[b' path'] ps']| |] eqn:Htb; try discriminate
  end.
  apply traceback_types in Htb; [|constructor].
  simplify_eq. cbn [apath align_]. apply Forall_rev.
  destruct (bool_decide_reflect (queryStart b' = 0%nat));
    destruct (bool_decide_reflect (ALIGNPATH.type ps' = ALIGNPATH.NONE));
    repeat (apply Forall_app; split); try exact Htb;
    constructor; (assumption || discriminate || constructor).
Qed.

(** [align] never stops for lack of fuel. *)
Lemma align_total (_ptrMat : list (list PtrVal.t) -> list (list PtrVal.t)
                             -> list (list PtrVal.t))
    (_score2 : list ScoreVal.t)
    (scores : AlignmentScores.t) (jumpScore : Z) (query ref1 ref2 : list ascii) :
  align _ptrMat _score2 scores jumpScore query ref1 ref2 <> OutOfFuel.
Proof.
  unfold align.
  repeat match goal with
         | |- (if ?c then _ else _) <> _ => destruct c; [discriminate|]
         end.
  match goal with
  | |- match traceback ?f ?m ?b ?p ?s with _ => _ end <> _ =>
      pose proof (traceback_enough_fuel m f b p s (Nat.le_refl _)) as Hf;
      destruct (traceback f m b p s) as [[[b' path'] ps']| |]
  end; congruence.
Qed.

End TracebackFacts.

(* ===================================================================== *)
(** * Further properties of the locus graph                               *)
(* ===================================================================== *)

Section LocusMore.
Import Locus.
Local Set Warnings "-clear-no-such-hyp".

(** ** Copying a node with an offset *)

Lemma fold_map_insert_image (f : N -> N) (l : list (N * SVLocusEdge)) :
  forall acc : gmap N SVLocusEdge,
  NoDup (f <$> l.*1) ->
  (forall p, p ∈ l -> acc !! f p.1 = None) ->
  fold_left (fun acc val => map_insert (f val.1) val.2 acc) l acc
  = list_to_map ((fun p => (f p.1, p.2)) <$> l) ∪ acc.
Proof.
  induction l as [|[k e] l IH]; intros acc Hnd Hfresh.
  - cbn. now rewrite (left_id ∅ (∪)).
  - cbn [fold_left fst snd]. rewrite !fmap_cons in Hnd. cbn [fst] in Hnd.
    apply NoDup_cons in Hnd as [Hk Hnd].
    pose proof (Hfresh (k, e) (list_elem_of_here _ _)) as Hk0. cbn [fst] in Hk0.
    unfold map_insert at 2. rewrite Hk0. rewrite IH.
    + rewrite fmap_cons. cbn [list_to_map foldr fst snd]. cbn.
      rewrite <- insert_union_l. symmetry.
      apply insert_union_r. apply not_elem_of_list_to_map_1.
      rewrite <- list_fmap_compose. intros Hin. apply Hk.
      rewrite <- list_fmap_compose. exact Hin.
    + exact Hnd.
    + intros p Hp. rewrite lookup_insert_ne.
      * apply Hfresh. now apply list_elem_of_further.
      * intros Heq. apply Hk. rewrite Heq. apply list_elem_of_fmap.
        exists p.1. split; [reflexivity|]. apply list_elem_of_fmap. now exists p.
Qed.

Lemma SVLocusNode_copy_edges (node : SVLocusNode) (offset : N) :
  targets_shift offset node ->
  edges (SVLocusNode_copy node offset)
  = list_to_map ((fun p => ((p.1 + offset)%N, p.2)) <$> map_items (edges node)).
Proof.
  intros Hs. unfold SVLocusNode_copy. cbn [edges].
  assert (Hfold :
    fold_left (fun acc val => map_insert (wrap32 (val.1 + offset)) val.2 acc)
              (map_items (edges node)) ∅
    = fold_left (fun acc val => map_insert ((fun k => (k + offset)%N) val.1) val.2 acc)
                (map_items (edges node)) ∅).
  { assert (Hin : forall p, p ∈ map_items (edges node) -> wrap32 (p.1 + offset) = (p.1 + offset)%N).
    { intros p Hp. apply wrap32_small. apply (Hs p.1 p.2). now apply map_items_lookup. }
    generalize (∅ : gmap N SVLocusEdge). revert Hin.
    induction (map_items (edges node)) as [|p l IH]; intros Hin acc; [reflexivity|].
    cbn [fold_left]. rewrite (Hin p) by apply list_elem_of_here.
    apply IH. intros q Hq. apply Hin. now apply list_elem_of_further. }
  rewrite Hfold.
  rewrite (fold_map_insert_image (fun k => (k + offset)%N) (map_items (edges node)) ∅).
  - now rewrite (right_id ∅ (∪)).
  - assert (Inj eq eq (fun k => (k + offset)%N)) by (intros x y Hxy; lia).
    apply (NoDup_fmap_2 (fun k => (k + offset)%N)), map_items_NoDup.
  - intros p _. apply lookup_empty.
Qed.

(** The copy holds, at every shifted key, the edge the source holds at the
    key, and holds nothing else. *)
Lemma SVLocusNode_copy_lookup (node : SVLocusNode) (offset : N) (k' : N) (e : SVLocusEdge) :
  targets_shift offset node ->
  edges (SVLocusNode_copy node offset) !! k' = Some e
  <-> exists k, k' = (k + offset)%N /\ edges node !! k = Some e.
Proof.
  intros Hs. rewrite (SVLocusNode_copy_edges node offset Hs).
  rewrite <- elem_of_list_to_map.
  - rewrite list_elem_of_fmap. split.
    + intros ([k e0] & Heq & Hin). cbn in Heq. injection Heq as -> ->.
      exists k. split; [reflexivity|]. now apply (map_items_lookup _ (k, e0)).
    + intros (k & -> & Hk). exists (k, e). split; [reflexivity|].
      rewrite (map_items_perm (edges node)). now apply elem_of_map_to_list.
  - rewrite <- list_fmap_compose.
    assert (Heq : (fst ∘ (fun p : N * SVLocusEdge => ((p.1 + offset)%N, p.2)))
                  <$> map_items (edges node)
                  = (fun k => (k + offset)%N) <$> (map_items (edges node)).*1).
    { rewrite <- list_fmap_compose. reflexivity. }
    rewrite Heq.
    assert (Inj eq eq (fun k => (k + offset)%N)) by (intros x y Hxy; lia).
    apply (NoDup_fmap_2 (fun k => (k + offset)%N)), map_items_NoDup.
Qed.

(** X1. [copyLocus(other)] into a graph, when the node index type holds the
    size of the union and every shifted edge target: the call returns, the
    nodes already there stay as they are, and node [j] of [other] is found
    at index [size + j] with its count and interval and with an edge
    [k + size -> e] for each of its edges [k -> e], and no other edge; one
    add-notification per copied node follows in index order. *)
Theorem copyLocus_appends_shifted (other this : SVLocus) :
  (N.of_nat (length (_graph this) + length (_graph other)) <= maxIndex)%N ->
  Forall (targets_shift (N.of_nat (length (_graph this)))) (_graph other) ->
  exists s', copyLocus other this = Ok tt s'
    /\ _index s' = _index this
    /\ notified s'
       = notified this
         ++ map (fun i => (true, (_index this, N.of_nat i)))
                (seq (length (_graph this)) (length (_graph other)))
    /\ length (_graph s') = (length (_graph this) + length (_graph other))%nat
    /\ (forall i n, _graph this !! i = Some n -> _graph s' !! i = Some n)
    /\ (forall j n, _graph other !! j = Some n ->
        exists n', _graph s' !! (length (_graph this) + j)%nat = Some n'
          /\ node_count n' = node_count n
          /\ interval n' = interval n
          /\ forall k e, edges n' !! k = Some e
               <-> exists k0, k = (k0 + N.of_nat (length (_graph this)))%N
                              /\ edges n !! k0 = Some e).
Proof.
  intros Hle Hs. unfold copyLocus.
  rewrite wrap32_small by (unfold maxIndex in Hle; lia).
  eexists. split; [now apply copyNodes_ok|].
  cbn [_graph _index notified].
  split; [reflexivity|]. split; [reflexivity|].
  split; [now rewrite length_app, length_map|].
  split; [intros i n Hi; now apply lookup_app_l_Some|].
  intros j n Hj.
  exists (SVLocusNode_copy n (N.of_nat (length (_graph this)))).
  split.
  - rewrite lookup_app_r by lia.
    replace (length (_graph this) + j - length (_graph this))%nat with j by lia.
    now rewrite lookup_map, Hj.
  - split; [reflexivity|]. split; [reflexivity|].
    intros k e. apply SVLocusNode_copy_lookup.
    rewrite Forall_forall in Hs. apply Hs.
    apply list_elem_of_lookup. now exists j.
Qed.

Lemma copyLocus_appends_shifted_witness :
  exists s',
    copyLocus (mk_locus [mk_node 2 (mk_interval 1 (mk_range 10 20)) {[1%N := mk_edge 3]};
                         mk_node 1 (mk_interval 1 (mk_range 50 60)) {[0%N := mk_edge 3]}]
                        5 [])
              (mk_locus [SVLocusNode_default] 9 [])
    = Ok tt s'
    /\ length (_graph s') = 3%nat
    /\ notified s' = [(true, (9%N, 1%N)); (true, (9%N, 2%N))].
Proof.
  destruct (copyLocus_appends_shifted
              (mk_locus [mk_node 2 (mk_interval 1 (mk_range 10 20)) {[1%N := mk_edge 3]};
                         mk_node 1 (mk_interval 1 (mk_range 50 60)) {[0%N := mk_edge 3]}]
                        5 [])
              (mk_locus [SVLocusNode_default] 9 []))
    as (s' & Hrun & _ & Hn & Hlen & _).
  - vm_compute. discriminate.
  - repeat constructor; intros k e H; cbn in H;
      apply lookup_singleton_Some in H as [<- _]; reflexivity.
  - exists s'. split; [exact Hrun|]. split; [exact Hlen | exact Hn].
Defined.

(** ** What each call does to the object *)

Lemma addNode_ok (s : SVLocus) (t b e : Z) :
  (N.of_nat (length (_graph s)) < maxIndex)%N ->
  addNode t b e s
  = Ok (N.of_nat (length (_graph s)))
       (mk_locus (_graph s ++ [mk_node 1 (mk_interval t (mk_range b e)) ∅])
                 (_index s)
                 (notified s ++ [(true, (_index s, N.of_nat (length (_graph s))))])).
Proof.
  intros Hlt. unfold addNode, bind. rewrite newGraphNode_ok by exact Hlt.
  unfold getNode. cbn [_graph]. rewrite lookup_push.
  unfold setNode, set_graph, notifyAdd, notify_observers, ret.
  cbn [_graph _index notified]. now rewrite insert_push.
Qed.

Lemma addNode_inv (s s' : SVLocus) (t b e : Z) (nodePtr : N) :
  size_ok (_graph s) ->
  addNode t b e s = Ok nodePtr s' ->
  (N.of_nat (length (_graph s)) < maxIndex)%N.
Proof.
  unfold size_ok. intros Hle Hrun.
  destruct (N.eq_dec (N.of_nat (length (_graph s))) maxIndex) as [Hfull|Hfree]; [|lia].
  unfold addNode, bind in Hrun. rewrite newGraphNode_full in Hrun by exact Hfull.
  discriminate.
Qed.

Lemma linkNodes_inv (s s' : SVLocus) (a b : N) :
  linkNodes a b s = Ok tt s' ->
  exists na nb,
    _graph s !! N.to_nat a = Some na
    /\ _graph s !! N.to_nat b = Some nb
    /\ edges na !! b = None
    /\ edges nb !! a = None
    /\ s' = mk_locus (linked a b (_graph s)) (_index s) (notified s).
Proof.
  intros Hrun.
  destruct (_graph s !! N.to_nat a) as [na|] eqn:Ha.
  2: { unfold linkNodes, bind, getNode in Hrun. rewrite Ha in Hrun. discriminate. }
  destruct (_graph s !! N.to_nat b) as [nb|] eqn:Hb.
  2: { unfold linkNodes, bind, getNode in Hrun. rewrite Ha, Hb in Hrun. discriminate. }
  destruct (edges na !! b) as [e1|] eqn:Hab.
  { rewrite (linkNodes_halts s a b na nb Ha Hb) in Hrun; [discriminate|].
    left. rewrite Hab. now eexists. }
  destruct (edges nb !! a) as [e2|] eqn:Hba.
  { rewrite (linkNodes_halts s a b na nb Ha Hb) in Hrun; [discriminate|].
    right. rewrite Hba. now eexists. }
  rewrite (linkNodes_run s a b na nb Ha Hb Hab Hba) in Hrun.
  exists na, nb. repeat split; trivial. now injection Hrun as <-.
Qed.

(** X9. A [linkNodes] that names a node the graph does not hold halts on
    the assertion of [getNode], before any edge is inserted: the object is
    as it was. *)
Theorem linkNodes_missing_node (s : SVLocus) (a b : N) :
  (length (_graph s) <= N.to_nat a)%nat \/ (length (_graph s) <= N.to_nat b)%nat ->
  linkNodes a b s = Halt s.
Proof.
  intros Hout. unfold linkNodes, bind, getNode.
  destruct (_graph s !! N.to_nat a) as [na|] eqn:Ha; [|reflexivity].
  destruct (_graph s !! N.to_nat b) as [nb|] eqn:Hb; [|reflexivity].
  apply lookup_lt_Some in Ha, Hb. lia.
Qed.

Lemma linkNodes_missing_node_witness :
  linkNodes 0 1 (mk_locus [SVLocusNode_default] 4 [])
  = Halt (mk_locus [SVLocusNode_default] 4 []).
Proof.
  apply (linkNodes_missing_node (mk_locus [SVLocusNode_default] 4 []) 0 1).
  right. cbn. lia.
Defined.

Lemma copyNodes_inv (fromNodes : list SVLocusNode) (offset : N) :
  forall s s' : SVLocus,
  size_ok (_graph s) ->
  copyNodes fromNodes offset s = Ok tt s' ->
  (N.of_nat (length (_graph s) + length fromNodes) <= maxIndex)%N.
Proof.
  unfold size_ok.
  induction fromNodes as [|n rest IH]; intros s s' Hle Hrun.
  - cbn [length]. lia.
  - destruct (N.eq_dec (N.of_nat (length (_graph s))) maxIndex) as [Hfull|Hfree].
    { cbn [copyNodes] in Hrun. unfold bind at 1 in Hrun.
      rewrite newGraphNode_full in Hrun by exact Hfull. discriminate. }
    cbn [copyNodes] in Hrun. unfold bind at 1 in Hrun.
    rewrite newGraphNode_ok in Hrun by lia.
    unfold bind at 1 in Hrun. unfold getNode in Hrun. cbn [_graph] in Hrun.
    rewrite lookup_push in Hrun.
    unfold bind at 1 in Hrun. unfold setNode, set_graph in Hrun.
    cbn [_graph _index notified] in Hrun. rewrite insert_push in Hrun.
    unfold bind at 1 in Hrun. unfold notifyAdd, notify_observers in Hrun.
    cbn [_graph _index notified] in Hrun.
    apply IH in Hrun.
    + cbn [_graph] in Hrun. rewrite length_app in Hrun. cbn [length] in *. lia.
    + cbn [_graph]. rewrite length_app. cbn [length]. lia.
Qed.

Lemma copyLocus_inv (other s s' : SVLocus) :
  size_ok (_graph s) ->
  copyLocus other s = Ok tt s' ->
  (N.of_nat (length (_graph s) + length (_graph other)) <= maxIndex)%N
  /\ s' = mk_locus
            (_graph s ++ map (fun n => SVLocusNode_copy n (N.of_nat (length (_graph s))))
                             (_graph other))
            (_index s)
            (notified s
             ++ map (fun i => (true, (_index s, N.of_nat i)))
                    (seq (length (_graph s)) (length (_graph other)))).
Proof.
  intros Hle Hrun. unfold copyLocus in Hrun.
  pose proof (copyNodes_inv _ _ _ _ Hle Hrun) as Hsum. split; [exact Hsum|].
  rewrite copyNodes_ok in Hrun by exact Hsum.
  rewrite wrap32_small in Hrun by (unfold size_ok, maxIndex in *; lia).
  now injection Hrun as <-.
Qed.

Lemma size_small (s : SVLocus) : size_ok (_graph s) -> size s = N.of_nat (length (_graph s)).
Proof. intros H. apply wrap32_small. unfold size_ok, maxIndex in H. lia. Qed.

(** ** Sequences of calls *)

(** What one call that returns leaves behind. *)
Lemma run_call_inv (c : call) (s s' : SVLocus) :
  size_ok (_graph s) ->
  run_call c s = Ok tt s' ->
  match c with
  | CallAddNode t b e =>
      (N.of_nat (length (_graph s)) < maxIndex)%N
      /\ s' = mk_locus (_graph s ++ [mk_node 1 (mk_interval t (mk_range b e)) ∅])
                       (_index s)
                       (notified s ++ [(true, (_index s, N.of_nat (length (_graph s))))])
  | CallLinkNodes a b =>
      exists na nb,
        _graph s !! N.to_nat a = Some na
        /\ _graph s !! N.to_nat b = Some nb
        /\ edges na !! b = None
        /\ edges nb !! a = None
        /\ s' = mk_locus (linked a b (_graph s)) (_index s) (notified s)
  | CallCopyLocus other =>
      (N.of_nat (length (_graph s) + length (_graph other)) <= maxIndex)%N
      /\ s' = mk_locus
                (_graph s ++ map (fun n => SVLocusNode_copy n (N.of_nat (length (_graph s))))
                                 (_graph other))
                (_index s)
                (notified s
                 ++ map (fun i => (true, (_index s, N.of_nat i)))
                        (seq (length (_graph s)) (length (_graph other))))
  | CallClear =>
      s' = mk_locus [] (_index s)
                    (notified s
                     ++ map (fun i => (false, (_index s, N.of_nat i)))
                            (seq 0 (length (_graph s))))
  end.
Proof.
  intros Hok Hrun. destruct c as [t b e|a b|other|]; cbn [run_call] in Hrun.
  - unfold bind in Hrun.
    destruct (addNode t b e s) as [nodePtr s1|s1] eqn:Hadd; [|discriminate].
    pose proof (addNode_inv _ _ _ _ _ _ Hok Hadd) as Hlt. split; [exact Hlt|].
    rewrite addNode_ok in Hadd by exact Hlt.
    unfold ret in Hrun. congruence.
  - now apply linkNodes_inv.
  - now apply copyLocus_inv.
  - rewrite clear_ok in Hrun. injection Hrun as <-.
    unfold deletes. rewrite (size_small s Hok), Nat2N.id. reflexivity.
Qed.

Lemma run_calls_ind (P : SVLocus -> Prop) (cs : list call) :
  (forall c s s', c ∈ cs -> size_ok (_graph s) -> P s -> run_call c s = Ok tt s' ->
                  size_ok (_graph s') /\ P s') ->
  forall s s', size_ok (_graph s) -> P s -> run_calls cs s = Ok tt s' ->
               size_ok (_graph s') /\ P s'.
Proof.
  induction cs as [|c cs IH]; intros Hstep s s' Hok HP Hrun.
  - cbn in Hrun. unfold ret in Hrun. injection Hrun as <-. now split.
  - cbn [run_calls] in Hrun. unfold bind in Hrun.
    destruct (run_call c s) as [[] s1|s1] eqn:Hc; [|discriminate].
    destruct (Hstep c s s1 (list_elem_of_here _ _) Hok HP Hc) as [Hok1 HP1].
    apply (IH (fun c0 s0 s0' Hin => Hstep c0 s0 s0' (list_elem_of_further _ _ _ Hin))
              s1 s' Hok1 HP1 Hrun).
Qed.

Lemma run_call_size (c : call) (s s' : SVLocus) :
  size_ok (_graph s) -> run_call c s = Ok tt s' -> size_ok (_graph s').
Proof.
  intros Hok Hrun. pose proof (run_call_inv c s s' Hok Hrun) as Hinv.
  destruct c as [t b e|a b|other|].
  - destruct Hinv as [Hlt ->]. unfold size_ok. cbn [_graph].
    rewrite length_app. cbn [length]. lia.
  - destruct Hinv as (na & nb & _ & _ & _ & _ & ->). unfold size_ok, linked in *.
    cbn [_graph]. now rewrite !length_alter.
  - destruct Hinv as [Hle ->]. unfold size_ok. cbn [_graph].
    now rewrite length_app, length_map.
  - subst s'. unfold size_ok, maxIndex. cbn. lia.
Qed.

(** X2. Starting from a graph the node index type can address, every
    sequence of [addNode], [linkNodes], [copyLocus] and [clear] calls that
    returns leaves a graph the index type can address: at most
    [maxIndex] nodes. *)
Theorem calls_keep_size_addressable (cs : list call) (s s' : SVLocus) :
  size_ok (_graph s) ->
  run_calls cs s = Ok tt s' ->
  size_ok (_graph s').
Proof.
  intros Hok Hrun.
  apply (run_calls_ind (fun _ => True) cs) with (s := s) (s' := s'); trivial.
  intros c s0 s0' _ Hok0 _ Hc. split; [|exact I]. now apply (run_call_size c s0).
Qed.

(** *** The observer *)

Lemma indices_S (n : nat) : indices (S n) = {[N.of_nat n]} ∪ indices n.
Proof.
  unfold indices. rewrite seq_S, map_app, list_to_set_app_L. cbn. set_solver.
Qed.

Lemma observed_app (l1 l2 : list SVLocusNodeMoveMessage) :
  observed (l1 ++ l2) = fold_left observe l2 (observed l1).
Proof. unfold observed. apply fold_left_app. Qed.

Lemma observe_adds (idx : N) (n : nat) :
  forall (a : nat) (seen : gset N),
  seen = indices a ->
  fold_left observe (map (fun i => (true, (idx, N.of_nat i))) (seq a n)) seen
  = indices (a + n).
Proof.
  induction n as [|n IH]; intros a seen Hseen.
  - cbn. now rewrite Nat.add_0_r.
  - cbn [seq map fold_left]. rewrite (IH (S a)).
    + f_equal. lia.
    + unfold observe. cbn [fst snd]. now rewrite indices_S, Hseen.
Qed.

Lemma observe_deletes (idx : N) (n : nat) :
  forall (a : nat) (seen : gset N),
  fold_left observe (map (fun i => (false, (idx, N.of_nat i))) (seq a n)) seen
  = seen ∖ list_to_set (map N.of_nat (seq a n)).
Proof.
  induction n as [|n IH]; intros a seen.
  - cbn. set_solver.
  - cbn [seq map fold_left]. rewrite (IH (S a)).
    unfold observe. cbn [fst snd list_to_set]. set_solver.
Qed.

(** X3. Starting from a graph the index type can address and an observer
    that knows exactly its node indices, every sequence of [addNode],
    [linkNodes], [copyLocus] and [clear] calls that returns leaves the
    observer knowing exactly the node indices of the graph: each node was
    announced and each removed node was withdrawn. *)
Theorem calls_keep_observer_in_step (cs : list call) (s s' : SVLocus) :
  size_ok (_graph s) ->
  observed (notified s) = indices (length (_graph s)) ->
  run_calls cs s = Ok tt s' ->
  observed (notified s') = indices (length (_graph s')).
Proof.
  intros Hok Hobs Hrun.
  apply (run_calls_ind
           (fun s0 => observed (notified s0) = indices (length (_graph s0))) cs)
    with (s := s) (s' := s'); trivial.
  intros c s0 s0' _ Hok0 Hobs0 Hc. split; [now apply (run_call_size c s0)|].
  pose proof (run_call_inv c s0 s0' Hok0 Hc) as Hinv.
  destruct c as [t b e|a b|other|].
  - destruct Hinv as [Hlt ->]. cbn [_graph notified].
    rewrite observed_app, length_app. cbn [length fold_left].
    unfold observe. cbn [fst snd].
    replace (length (_graph s0) + 1)%nat with (S (length (_graph s0))) by lia.
    now rewrite indices_S, Hobs0.
  - destruct Hinv as (na & nb & _ & _ & _ & _ & ->). cbn [_graph notified].
    unfold linked. now rewrite !length_alter.
  - destruct Hinv as [Hle ->]. cbn [_graph notified].
    rewrite observed_app, length_app, length_map.
    now apply observe_adds.
  - subst s0'. cbn [_graph notified length].
    rewrite observed_app, observe_deletes, Hobs0. unfold indices. cbn. set_solver.
Qed.

(** *** Symmetric edges *)

Lemma edges_symmetric_push (g : list SVLocusNode) (n0 : SVLocusNode) :
  edges n0 = ∅ -> edges_symmetric g -> edges_symmetric (g ++ [n0]).
Proof.
  intros Hn0 Hsym i n k e Hi Hk.
  destruct (decide (i < length g)%nat) as [Hlt|Hge].
  - rewrite lookup_app_l in Hi by exact Hlt.
    destruct (Hsym i n k e Hi Hk) as (m & Hm & Hback).
    exists m. split; [now apply lookup_app_l_Some | exact Hback].
  - rewrite lookup_app_r in Hi by lia.
    destruct (i - length g)%nat; [|now destruct n1].
    cbn in Hi. injection Hi as <-. rewrite Hn0, lookup_empty in Hk. discriminate.
Qed.

Lemma edges_symmetric_linked (g : list SVLocusNode) (a b : N) (na nb : SVLocusNode) :
  g !! N.to_nat a = Some na ->
  g !! N.to_nat b = Some nb ->
  edges na !! b = None ->
  edges nb !! a = None ->
  edges_symmetric g -> edges_symmetric (linked a b g).
Proof.
  intros Ha Hb Hab Hba Hsym i n' k e Hi Hk.
  assert (Hlen : length (linked a b g) = length g)
    by (unfold linked; now rewrite !length_alter).
  destruct (lookup_lt_is_Some_2 g i) as [n Hn];
    [rewrite <- Hlen; now apply lookup_lt_Some in Hi|].
  destruct (linked_lookup g a b na nb i n Ha Hb Hab Hba Hn)
    as (n1 & Hn1 & _ & _ & Hedges).
  rewrite Hi in Hn1. injection Hn1 as <-. rewrite Hedges in Hk.
  destruct (bool_decide_reflect ((i = N.to_nat a /\ k = b) \/ (i = N.to_nat b /\ k = a)))
    as [Hnew|Hold].
  - injection Hk as <-.
    destruct Hnew as [[-> ->]|[-> ->]].
    + destruct (linked_lookup g a b na nb (N.to_nat b) nb Ha Hb Hab Hba Hb)
        as (m & Hm & _ & _ & Hme).
      exists m. split; [exact Hm|]. rewrite Hme, N2Nat.id.
      now rewrite bool_decide_eq_true_2 by (right; split; reflexivity).
    + destruct (linked_lookup g a b na nb (N.to_nat a) na Ha Hb Hab Hba Ha)
        as (m & Hm & _ & _ & Hme).
      exists m. split; [exact Hm|]. rewrite Hme, N2Nat.id.
      now rewrite bool_decide_eq_true_2 by (left; split; reflexivity).
  - destruct (Hsym i n k e Hn Hk) as (m & Hm & Hback).
    destruct (linked_lookup g a b na nb (N.to_nat k) m Ha Hb Hab Hba Hm)
      as (m' & Hm' & _ & _ & Hme).
    exists m'. split; [exact Hm'|]. rewrite Hme.
    rewrite bool_decide_eq_false_2; [exact Hback|].
    intros [[Hka Hib]|[Hkb Hia]].
    + assert (k = a) by lia. subst k. rewrite Ha in Hm. injection Hm as <-.
      rewrite Hib in Hback. congruence.
    + assert (k = b) by lia. subst k. rewrite Hb in Hm. injection Hm as <-.
      rewrite Hia in Hback. congruence.
Qed.

Lemma edges_symmetric_targets (g : list SVLocusNode) (i : nat) (n : SVLocusNode)
    (k : N) (e : SVLocusEdge) :
  edges_symmetric g -> g !! i = Some n -> edges n !! k = Some e ->
  (N.to_nat k < length g)%nat.
Proof.
  intros Hsym Hi Hk. destruct (Hsym i n k e Hi Hk) as (m & Hm & _).
  now apply lookup_lt_Some in Hm.
Qed.

Lemma edges_symmetric_copy (g other : list SVLocusNode) :
  (N.of_nat (length g + length other) <= maxIndex)%N ->
  edges_symmetric g -> edges_symmetric other ->
  edges_symmetric (g ++ map (fun n => SVLocusNode_copy n (N.of_nat (length g))) other).
Proof.
  intros Hle Hg Ho i n k e Hi Hk.
  assert (Hshift : forall j n0, other !! j = Some n0 ->
                     targets_shift (N.of_nat (length g)) n0).
  { intros j n0 Hj k0 e0 Hk0.
    pose proof (edges_symmetric_targets other j n0 k0 e0 Ho Hj Hk0).
    unfold maxIndex in Hle. lia. }
  destruct (decide (i < length g)%nat) as [Hlt|Hge].
  - rewrite lookup_app_l in Hi by exact Hlt.
    destruct (Hg i n k e Hi Hk) as (m & Hm & Hback).
    exists m. split; [now apply lookup_app_l_Some | exact Hback].
  - rewrite lookup_app_r, lookup_map in Hi by lia.
    destruct (other !! (i - length g)%nat) as [n0|] eqn:Hn0; [|discriminate].
    cbn in Hi. injection Hi as <-.
    apply (SVLocusNode_copy_lookup n0 _ k e (Hshift _ _ Hn0)) in Hk
      as (k0 & -> & Hk0).
    destruct (Ho _ n0 k0 e Hn0 Hk0) as (m0 & Hm0 & Hback).
    exists (SVLocusNode_copy m0 (N.of_nat (length g))). split.
    + rewrite lookup_app_r by lia.
      replace (N.to_nat (k0 + N.of_nat (length g)) - length g)%nat
        with (N.to_nat k0) by lia.
      now rewrite lookup_map, Hm0.
    + apply (SVLocusNode_copy_lookup m0 _ _ e (Hshift _ _ Hm0)).
      exists (N.of_nat (i - length g)). split; [lia | exact Hback].
Qed.

(** X4. Starting from a graph the index type can address whose edges are
    symmetric (each edge A->B has B in the graph, holding B->A with the same
    count), every sequence of [addNode], [linkNodes], [copyLocus] and [clear]
    calls that returns, copying only from graphs with symmetric edges, leaves
    a graph whose edges are symmetric. *)
Theorem calls_keep_edges_symmetric (cs : list call) (s s' : SVLocus) :
  size_ok (_graph s) ->
  edges_symmetric (_graph s) ->
  copies_symmetric cs ->
  run_calls cs s = Ok tt s' ->
  edges_symmetric (_graph s').
Proof.
  intros Hok Hsym Hcs Hrun. unfold copies_symmetric in Hcs.
  rewrite Forall_forall in Hcs.
  apply (run_calls_ind (fun s0 => edges_symmetric (_graph s0)) cs)
    with (s := s) (s' := s'); trivial.
  intros c s0 s0' Hin Hok0 Hsym0 Hc. split; [now apply (run_call_size c s0)|].
  pose proof (run_call_inv c s0 s0' Hok0 Hc) as Hinv.
  specialize (Hcs c Hin).
  destruct c as [t b e|a b|other|].
  - destruct Hinv as [_ ->]. cbn [_graph]. now apply edges_symmetric_push.
  - destruct Hinv as (na & nb & Ha & Hb & Hab & Hba & ->). cbn [_graph].
    now apply (edges_symmetric_linked _ a b na nb).
  - destruct Hinv as [Hle ->]. cbn [_graph]. now apply edges_symmetric_copy.
  - subst s0'. cbn [_graph]. intros i n k e Hi. now destruct i.
Qed.

Lemma calls_keep_size_addressable_witness :
  exists s',
    run_calls [CallAddNode 1 10 20; CallAddNode 1 50 60; CallLinkNodes 0 1;
               CallCopyLocus (mk_locus [SVLocusNode_default] 8 [])]
              (SVLocus_init 4)
    = Ok tt s'
    /\ size_ok (_graph s').
Proof.
  eexists. split; [vm_compute; reflexivity|].
  apply (calls_keep_size_addressable
           [CallAddNode 1 10 20; CallAddNode 1 50 60; CallLinkNodes 0 1;
            CallCopyLocus (mk_locus [SVLocusNode_default] 8 [])]
           (SVLocus_init 4)).
  - vm_compute. discriminate.
  - vm_compute. reflexivity.
Defined.

Lemma calls_keep_observer_in_step_witness :
  exists s',
    run_calls [CallAddNode 1 10 20; CallAddNode 1 50 60; CallLinkNodes 0 1;
               CallClear; CallAddNode 2 5 9]
              (SVLocus_init 4)
    = Ok tt s'
    /\ observed (notified s') = indices (length (_graph s')).
Proof.
  eexists. split; [vm_compute; reflexivity|].
  apply (calls_keep_observer_in_step
           [CallAddNode 1 10 20; CallAddNode 1 50 60; CallLinkNodes 0 1;
            CallClear; CallAddNode 2 5 9]
           (SVLocus_init 4)).
  - vm_compute. discriminate.
  - reflexivity.
  - vm_compute. reflexivity.
Defined.

Lemma calls_keep_edges_symmetric_witness :
  exists s',
    run_calls [CallAddNode 1 10 20; CallAddNode 1 50 60; CallLinkNodes 0 1;
               CallCopyLocus
                 (mk_locus [mk_node 2 (mk_interval 1 (mk_range 10 20)) {[1%N := mk_edge 3]};
                            mk_node 1 (mk_interval 1 (mk_range 50 60)) {[0%N := mk_edge 3]}]
                           5 [])]
              (SVLocus_init 4)
    = Ok tt s'
    /\ length (_graph s') = 4%nat
    /\ edges_symmetric (_graph s').
Proof.
  eexists. split; [vm_compute; reflexivity|]. split; [reflexivity|].
  apply (calls_keep_edges_symmetric
           [CallAddNode 1 10 20; CallAddNode 1 50 60; CallLinkNodes 0 1;
            CallCopyLocus
              (mk_locus [mk_node 2 (mk_interval 1 (mk_range 10 20)) {[1%N := mk_edge 3]};
                         mk_node 1 (mk_interval 1 (mk_range 50 60)) {[0%N := mk_edge 3]}]
                        5 [])]
           (SVLocus_init 4)).
  - vm_compute. discriminate.
  - intros i n k e Hi. now destruct i.
  - repeat constructor. cbn [_graph]. intros i n k e Hi Hk.
    destruct i as [|[|i]]; cbn in Hi; [| |now destruct i]; injection Hi as <-;
      cbn [edges] in Hk; apply lookup_singleton_Some in Hk as [<- <-];
      eexists; (split; [reflexivity|]); reflexivity.
  - vm_compute. reflexivity.
Defined.

(** ** Archives in a stream *)

(** X5. Reading a graph back consumes exactly the numbers [save] wrote for
    it: from an archive that continues after the graph, [load] gets the
    graph and leaves the continuation, so graphs saved one after another are
    read back one after another. *)
Theorem load_graph_leaves_the_rest (g : list SVLocusNode) (rest : list Z) :
  load_graph (save_graph g ++ rest) = Some (g, rest).
Proof.
  unfold load_graph, save_graph. cbn [app]. rewrite Nat2Z.id. apply load_nodes_ok.
Qed.

(** ** Intervals and edges *)

(** X7. [GenomeInterval::operator<] is a strict total order whenever the
    order of ranges is one: no interval is below itself, the order is
    transitive, and two intervals neither of which is below the other are
    the same interval. *)
Theorem GenomeInterval_lt_strict_total
    (range_lt : known_pos_range -> known_pos_range -> bool) :
  (forall r, range_lt r r = false) ->
  (forall a b c, range_lt a b = true -> range_lt b c = true -> range_lt a c = true) ->
  (forall a b, range_lt a b = false -> range_lt b a = false -> a = b) ->
  (forall x, GenomeInterval_lt range_lt x x = false)
  /\ (forall x y z, GenomeInterval_lt range_lt x y = true ->
                    GenomeInterval_lt range_lt y z = true ->
                    GenomeInterval_lt range_lt x z = true)
  /\ (forall x y, GenomeInterval_lt range_lt x y = false ->
                  GenomeInterval_lt range_lt y x = false -> x = y).
Proof.
  intros Hirr Htrans Htri. unfold GenomeInterval_lt. repeat split.
  - intros x. rewrite Z.ltb_irrefl, Z.eqb_refl. apply Hirr.
  - intros x y z.
    destruct (Z.ltb_spec (tid x) (tid y)), (Z.ltb_spec (tid y) (tid z)),
             (Z.ltb_spec (tid x) (tid z)),
             (Z.eqb_spec (tid x) (tid y)), (Z.eqb_spec (tid y) (tid z)),
             (Z.eqb_spec (tid x) (tid z));
      try lia; try discriminate; trivial. apply Htrans.
  - intros [tx rx] [ty ry]. cbn [tid range].
    destruct (Z.ltb_spec tx ty), (Z.ltb_spec ty tx),
             (Z.eqb_spec tx ty), (Z.eqb_spec ty tx);
      try lia; try discriminate.
    intros H1 H2. subst ty. f_equal. now apply Htri.
Qed.

Lemma GenomeInterval_lt_strict_total_witness :
  GenomeInterval_lt
    (fun a b => (begin_pos a <? begin_pos b)
                || ((begin_pos a =? begin_pos b) && (end_pos a <? end_pos b)))
    (mk_interval 1 (mk_range 10 20)) (mk_interval 1 (mk_range 10 20)) = false.
Proof.
  apply (GenomeInterval_lt_strict_total
           (fun a b => (begin_pos a <? begin_pos b)
                       || ((begin_pos a =? begin_pos b) && (end_pos a <? end_pos b)))).
  - intros r. rewrite !Z.ltb_irrefl, Z.eqb_refl. reflexivity.
  - intros a b c.
    destruct (Z.ltb_spec (begin_pos a) (begin_pos b)), (Z.ltb_spec (begin_pos b) (begin_pos c)),
             (Z.ltb_spec (begin_pos a) (begin_pos c)),
             (Z.eqb_spec (begin_pos a) (begin_pos b)), (Z.eqb_spec (begin_pos b) (begin_pos c)),
             (Z.eqb_spec (begin_pos a) (begin_pos c)),
             (Z.ltb_spec (end_pos a) (end_pos b)), (Z.ltb_spec (end_pos b) (end_pos c)),
             (Z.ltb_spec (end_pos a) (end_pos c));
      cbn; try lia; try discriminate; trivial.
  - intros [ba ea] [bb eb]. cbn [begin_pos end_pos].
    destruct (Z.ltb_spec ba bb), (Z.ltb_spec bb ba), (Z.eqb_spec ba bb), (Z.eqb_spec bb ba),
             (Z.ltb_spec ea eb), (Z.ltb_spec eb ea);
      cbn; try lia; try discriminate.
    intros _ _. f_equal; lia.
Defined.

(** X8. [mergeEdge] gives the same count whichever way edges are merged:
    merging is commutative and associative, also when the 16-bit count
    wraps. *)
Theorem mergeEdge_order_free (a b c : SVLocusEdge) :
  mergeEdge a b = mergeEdge b a
  /\ mergeEdge (mergeEdge a b) c = mergeEdge a (mergeEdge b c).
Proof.
  unfold mergeEdge, wrap16. cbn [edge_count]. split.
  - now rewrite N.add_comm.
  - f_equal.
    rewrite N.Div0.add_mod_idemp_l, N.Div0.add_mod_idemp_r. f_equal. lia.
Qed.

End LocusMore.

(* ===================================================================== *)
(** * Further properties of the jump aligner                              *)
(* ===================================================================== *)

Section AlignerMore.
Import JumpAligner.

(** ** The seed that the passes and the fall-off loop retain *)

Lemma seed_init (b : BackTrace) (m : Z) (r q : nat) : isInit (seed b m r q) = true.
Proof. destruct (seed_cases b m r q) as [(-> & Hi & _)|(-> & _)]; trivial. Qed.

Lemma seed_max (b : BackTrace) (m : Z) (r q : nat) :
  m <= max (seed b m r q) /\ (isInit b = true -> max b <= max (seed b m r q)).
Proof.
  destruct (seed_cases b m r q) as [(-> & Hi & Hle)|(-> & Hlt)]; cbn [max].
  - split; [exact Hle|lia].
  - split; [lia|]. intros Hi. specialize (Hlt Hi). lia.
Qed.

Lemma seed_in_range (querySize bound : nat) (b : BackTrace) (m : Z) (r q : nat) :
  seedInRange querySize bound b -> (q <= querySize)%nat -> (r <= bound)%nat ->
  seedInRange querySize bound (seed b m r q).
Proof.
  intros Hb Hq Hr. destruct (seed_cases b m r q) as [(-> & Hi & _)|(-> & _)].
  - exact Hb.
  - intros _. cbn. now split.
Qed.

Lemma row1_seeds (scores : AlignmentScores.t) (jumpScore : Z) (query : list ascii) :
  seeds_rows query (row1 scores jumpScore query).
Proof. intros r k st. eexists. reflexivity. Qed.

Lemma row2_seeds (scores : AlignmentScores.t) (query : list ascii) :
  seeds_rows query (row2 scores query).
Proof. intros r k st. eexists. reflexivity. Qed.

Lemma pass_seed_in_range (query : list ascii) (row : ascii -> nat -> DP -> DP)
    (bound : nat) (ref : list ascii) :
  seeds_rows query row ->
  forall (k : nat) (st : DP),
  (k + length ref <= bound)%nat ->
  seedInRange (length query) bound (bt st) ->
  seedInRange (length query) bound (bt (pass row ref k st))
  /\ (isInit (bt st) = true \/ ref <> [] -> isInit (bt (pass row ref k st)) = true).
Proof.
  intros Hrow. induction ref as [|r ref IH]; intros k st Hk Hb.
  - cbn. split; [exact Hb|]. intros [Hi|Hne]; [exact Hi|congruence].
  - cbn [pass length] in *. destruct (Hrow r k st) as [m Hm].
    destruct (IH (S k) (row r k st)) as [Hrange Hinit]; [lia| |].
    + rewrite Hm. apply seed_in_range; [exact Hb|lia|lia].
    + split; [exact Hrange|]. intros _. apply Hinit. left.
      rewrite Hm. apply seed_init.
Qed.

Lemma fillRow_length_le (cell : ascii -> ascii -> ScoreVal.t -> ScoreVal.t -> ScoreVal.t
                                -> ScoreVal.t * PtrVal.t)
    (r : ascii) (qs : list ascii) :
  forall (prev : list ScoreVal.t) (left : ScoreVal.t),
  (length (fillRow cell r qs prev left) <= length qs)%nat.
Proof.
  induction qs as [|q qs IH]; intros prev left; [cbn; lia|].
  destruct prev as [|diag [|up prev]]; cbn [fillRow length]; try lia.
  specialize (IH (up :: prev) (fst (cell q r diag up left))). lia.
Qed.

(** The last row a non-empty pass leaves in [thisSV]: it begins with the
    start cell and is no longer than the boundary row. *)
Lemma pass2_last_row (scores : AlignmentScores.t) (query : list ascii) (ref : list ascii) :
  ref <> [] ->
  forall (k : nat) (st : DP),
  exists v0 rest,
    thisSV (pass (row2 scores query) ref k st) = v0 :: rest
    /\ ScoreVal.match_ v0 = 0
    /\ (length rest <= length query)%nat.
Proof.
  induction ref as [|r ref IH]; intros Hne k st; [congruence|].
  cbn [pass]. destruct ref as [|r' ref'].
  - cbn [pass]. unfold row2. cbn [thisSV]. eexists _, _. split; [reflexivity|].
    split; [reflexivity|]. rewrite length_map. apply fillRow_length_le.
  - apply IH. discriminate.
Qed.

Lemma fallOff_in_range (scores : AlignmentScores.t) (query : list ascii)
    (refSize bound : nat) (v : list ScoreVal.t) :
  forall (queryIndex : nat) (b : BackTrace),
  (refSize <= bound)%nat ->
  (queryIndex + length v <= S (length query))%nat ->
  seedInRange (length query) bound b ->
  seedInRange (length query) bound (fallOff scores query refSize v queryIndex b).
Proof.
  induction v as [|d v IH]; intros qi b Hr Hlen Hb; [exact Hb|].
  cbn [fallOff]. cbn [length] in Hlen.
  apply IH; [exact Hr|lia|]. apply seed_in_range; [exact Hb|lia|exact Hr].
Qed.

Lemma fallOff_init (scores : AlignmentScores.t) (query : list ascii)
    (refSize : nat) (v : list ScoreVal.t) :
  forall (queryIndex : nat) (b : BackTrace),
  isInit b = true -> isInit (fallOff scores query refSize v queryIndex b) = true.
Proof.
  induction v as [|d v IH]; intros qi b Hi; [exact Hi|].
  cbn [fallOff]. apply IH. apply seed_init.
Qed.

(** The seed [align] hands to the traceback. *)
Lemma align_seed (scores : AlignmentScores.t) (jumpScore : Z)
    (_score2 : list ScoreVal.t) (query ref1 ref2 : list ascii) :
  ref1 <> [] -> ref2 <> [] ->
  let st := dp scores jumpScore query _score2 ref1 ref2 in
  let b := fallOff scores query (refSize (length ref1) (length ref2)) (thisSV st) 0 (bt st) in
  isInit b = true
  /\ (queryStart b <= length query)%nat
  /\ (refStart b <= refSize (length ref1) (length ref2))%nat.
Proof.
  intros Hr1 Hr2 st b. unfold refSize in *.
  set (B := (length ref1 + length ref2)%nat).
  set (st0 := mk_dp (boundaryRow scores query)
                    (resize (length query + 1) ScoreVal_fresh _score2)
                    [replicate (length query + 1) PtrVal_fresh]
                    [replicate (length query + 1) PtrVal_fresh] BackTrace_init).
  destruct (pass_seed_in_range query (row1 scores jumpScore query) B ref1
              (row1_seeds scores jumpScore query) 0 st0) as [Hrange1 Hinit1];
    [unfold B; lia | intros Hi; discriminate |].
  set (st1 := pass (row1 scores jumpScore query) ref1 0 st0) in *.
  set (st1' := mk_dp (boundaryRow scores query) (prevSV st1) (_ptrMat1 st1)
                     (_ptrMat2 st1) (bt st1)).
  destruct (pass_seed_in_range query (row2 scores query) B ref2
              (row2_seeds scores query) 0 st1') as [Hrange2 Hinit2];
    [unfold B; lia | exact Hrange1 |].
  assert (Hst : st = pass (row2 scores query) ref2 0 st1') by reflexivity.
  destruct (pass2_last_row scores query ref2 Hr2 0 st1') as (v0 & rest & Hrow & _ & Hlen).
  assert (Hi : isInit b = true).
  { unfold b. apply fallOff_init. rewrite Hst. apply Hinit2. now right. }
  split; [exact Hi|].
  assert (Hb : seedInRange (length query) B b).
  { unfold b. apply fallOff_in_range; [unfold B; lia| |rewrite Hst; exact Hrange2].
    rewrite Hst, Hrow. cbn [length]. lia. }
  exact (Hb Hi).
Qed.

Lemma traceback_aborts (mat : list (list PtrVal.t)) (fuel : nat) :
  forall (b : BackTrace) (path : list ALIGNPATH.path_segment)
         (ps : ALIGNPATH.path_segment) (why : failure),
  traceback fuel mat b path ps = Aborted why ->
  why = OutsideMatrix \/ why = UnknownAlignState.
Proof.
  induction fuel as [|fuel IH]; intros b path ps why Hrun; cbn [traceback] in Hrun.
  - destruct ((0 <? queryStart b)%nat && (0 <? refStart b)%nat); discriminate.
  - destruct ((0 <? queryStart b)%nat && (0 <? refStart b)%nat); [|discriminate].
    destruct (val mat (queryStart b) (refStart b)) as [pv|];
      [|left; congruence].
    destruct (state b); try (now apply IH in Hrun); right; congruence.
Qed.

(** X10. For non-empty query, ref1 and ref2 the seed handed to the traceback
    is always initialised and always inside the query and the combined
    reference: the three assertions on it never fail.  A call returns a
    result, or the traceback reads outside the pointer matrix, or it
    reaches the unknown-align-state assertion. *)
Theorem align_seed_assertions_hold
    (_ptrMat : list (list PtrVal.t) -> list (list PtrVal.t) -> list (list PtrVal.t))
    (_score2 : list ScoreVal.t)
    (scores : AlignmentScores.t) (jumpScore : Z) (query ref1 ref2 : list ascii) :
  query <> [] -> ref1 <> [] -> ref2 <> [] ->
  (exists res, align _ptrMat _score2 scores jumpScore query ref1 ref2 = Returned res)
  \/ align _ptrMat _score2 scores jumpScore query ref1 ref2 = Aborted OutsideMatrix
  \/ align _ptrMat _score2 scores jumpScore query ref1 ref2 = Aborted UnknownAlignState.
Proof.
  intros Hq Hr1 Hr2.
  pose proof (align_total _ptrMat _score2 scores jumpScore query ref1 ref2) as Htotal.
  destruct (align_seed scores jumpScore _score2 query ref1 ref2 Hr1 Hr2) as (Hi & Hqs & Hrs).
  unfold align in *.
  rewrite bool_decide_eq_false_2 in * by (now destruct query).
  rewrite bool_decide_eq_false_2 in * by (now destruct ref1).
  rewrite bool_decide_eq_false_2 in * by (now destruct ref2).
  rewrite Hi in *. cbn [negb] in *.
  destruct (Nat.leb_spec (refStart (fallOff scores query
               (refSize (length ref1) (length ref2))
               (thisSV (dp scores jumpScore query _score2 ref1 ref2)) 0
               (bt (dp scores jumpScore query _score2 ref1 ref2))))
             (refSize (length ref1) (length ref2))) as [_|Hbad]; [|lia].
  destruct (Nat.leb_spec (queryStart (fallOff scores query
               (refSize (length ref1) (length ref2))
               (thisSV (dp scores jumpScore query _score2 ref1 ref2)) 0
               (bt (dp scores jumpScore query _score2 ref1 ref2))))
             (length query)) as [_|Hbad]; [|lia].
  cbn [negb] in *.
  match goal with
  | |- context [traceback ?f ?m ?b ?p ?s] =>
      destruct (traceback f m b p s) as [[[b' path'] ps']|why|] eqn:Htb
  end.
  - left. now eexists.
  - right. apply traceback_aborts in Htb as [->| ->]; [now left | now right].
  - congruence.
Qed.

Lemma align_seed_assertions_hold_witness :
  (exists res,
     align (fun m1 _ => m1) [] (AlignmentScores.mk 2 (-4) (-5) (-1)) (-3)
           ["C"; "G"]%char ["A"; "C"; "G"]%char ["T"]%char = Returned res)
  \/ align (fun m1 _ => m1) [] (AlignmentScores.mk 2 (-4) (-5) (-1)) (-3)
           ["C"; "G"]%char ["A"; "C"; "G"]%char ["T"]%char = Aborted OutsideMatrix
  \/ align (fun m1 _ => m1) [] (AlignmentScores.mk 2 (-4) (-5) (-1)) (-3)
           ["C"; "G"]%char ["A"; "C"; "G"]%char ["T"]%char = Aborted UnknownAlignState.
Proof.
  apply (align_seed_assertions_hold (fun m1 _ => m1) []
           (AlignmentScores.mk 2 (-4) (-5) (-1)) (-3)); discriminate.
Defined.

(** ** Bounds on the score *)

Lemma fallOff_max (scores : AlignmentScores.t) (query : list ascii)
    (refSize : nat) (v : list ScoreVal.t) :
  forall (queryIndex : nat) (b : BackTrace),
  (isInit b = true -> max b <= max (fallOff scores query refSize v queryIndex b))
  /\ (forall d rest, v = d :: rest ->
        wrapScore (ScoreVal.match_ d
                   + (Z.of_nat (length query) - Z.of_nat queryIndex)
                     * AlignmentScores.mismatch scores)
        <= max (fallOff scores query refSize v queryIndex b)).
Proof.
  induction v as [|d v IH]; intros qi b.
  - split; [cbn; lia|]. intros d rest H. discriminate.
  - cbn [fallOff].
    set (m := wrapScore (ScoreVal.match_ d
                         + (Z.of_nat (length query) - Z.of_nat qi)
                           * AlignmentScores.mismatch scores)).
    destruct (IH (S qi) (seed b m refSize qi)) as [Hmono _].
    destruct (seed_max b m refSize qi) as [Hm Hb].
    specialize (Hmono (seed_init b m refSize qi)).
    split.
    + intros Hi. specialize (Hb Hi). lia.
    + intros d0 rest Heq. injection Heq as <- <-. fold m. lia.
Qed.

Lemma row2_max_bound (scores : AlignmentScores.t) (query : list ascii)
    (r : ascii) (k : nat) (st : DP) :
  0 <= AlignmentScores.match_ scores ->
  AlignmentScores.mismatch scores < AlignmentScores.match_ scores ->
  AlignmentScores.open scores <= 0 ->
  AlignmentScores.extend scores < 0 ->
  inv2 (AlignmentScores.match_ scores) query st ->
  (isInit (bt st) = true ->
   max (bt st) <= Z.of_nat (length query) * AlignmentScores.match_ scores) ->
  isInit (bt (row2 scores query r k st)) = true ->
  max (bt (row2 scores query r k st))
  <= Z.of_nat (length query) * AlignmentScores.match_ scores.
Proof.
  intros HM HX HO HE Hinv Hb _.
  destruct (row2_inv scores query HM HX HO HE r k st Hinv) as (Hlen & Hrow & _).
  pose proof (lastMatch_bound2 scores query _ Hlen Hrow) as Hlast.
  unfold row2 in *. cbn [thisSV bt] in *.
  match goal with
  | |- max (seed ?b ?m ?r ?q) <= _ =>
      destruct (seed_cases b m r q) as [(-> & Hi & _)|(-> & _)]
  end.
  - now apply Hb.
  - cbn [max]. exact Hlast.
Qed.

Lemma pass2_max_bound (scores : AlignmentScores.t) (query : list ascii)
    (ref : list ascii) :
  0 <= AlignmentScores.match_ scores ->
  AlignmentScores.mismatch scores < AlignmentScores.match_ scores ->
  AlignmentScores.open scores <= 0 ->
  AlignmentScores.extend scores < 0 ->
  forall (k : nat) (st : DP),
  inv2 (AlignmentScores.match_ scores) query st ->
  (isInit (bt st) = true ->
   max (bt st) <= Z.of_nat (length query) * AlignmentScores.match_ scores) ->
  inv2 (AlignmentScores.match_ scores) query (pass (row2 scores query) ref k st)
  /\ (isInit (bt (pass (row2 scores query) ref k st)) = true ->
      max (bt (pass (row2 scores query) ref k st))
      <= Z.of_nat (length query) * AlignmentScores.match_ scores).
Proof.
  intros HM HX HO HE. induction ref as [|r ref IH]; intros k st Hinv Hb.
  - now split.
  - cbn [pass]. apply IH.
    + now apply row2_inv.
    + now apply row2_max_bound.
Qed.

Lemma fallOff_max_bound (scores : AlignmentScores.t) (query : list ascii)
    (refSize : nat) (v : list ScoreVal.t) :
  0 <= AlignmentScores.match_ scores ->
  AlignmentScores.mismatch scores < AlignmentScores.match_ scores ->
  - 2 ^ 31 <= Z.of_nat (length query) * AlignmentScores.mismatch scores ->
  Z.of_nat (length query) * AlignmentScores.match_ scores < 2 ^ 31 ->
  forall (queryIndex : nat) (b : BackTrace),
  rowBound2 (AlignmentScores.match_ scores) queryIndex v ->
  rowLower (AlignmentScores.mismatch scores) queryIndex v ->
  (queryIndex + length v <= S (length query))%nat ->
  (isInit b = true -> max b <= Z.of_nat (length query) * AlignmentScores.match_ scores) ->
  isInit (fallOff scores query refSize v queryIndex b) = true ->
  max (fallOff scores query refSize v queryIndex b)
  <= Z.of_nat (length query) * AlignmentScores.match_ scores.
Proof.
  intros HM HX Hlow Hhigh. induction v as [|d v IH]; intros qi b Hrow Hlo Hlen Hb.
  - exact Hb.
  - cbn [fallOff]. cbn [length] in Hlen.
    destruct (Hrow 0%nat d eq_refl) as (Hd & _).
    replace (qi + 0)%nat with qi in Hd by lia.
    pose proof (Hlo 0%nat d eq_refl) as Hd'.
    replace (qi + 0)%nat with qi in Hd' by lia.
    apply IH; [now apply rowBound2_tail in Hrow|now apply rowLower_tail in Hlo|lia|].
    intros _.
    match goal with
    | |- max (seed ?b0 ?m ?r ?q) <= _ =>
        destruct (seed_cases b0 m r q) as [(-> & Hi & _)|(-> & _)]
    end; [now apply Hb|cbn [max]].
    apply (fallOff_range scores query HX Hlow Hhigh d qi); lia.
Qed.

(** What a call that returns has gone through. *)
Lemma align_returned_inv
    (_ptrMat : list (list PtrVal.t) -> list (list PtrVal.t) -> list (list PtrVal.t))
    (_score2 : list ScoreVal.t)
    (scores : AlignmentScores.t) (jumpScore : Z) (query ref1 ref2 : list ascii)
    (res : AlignmentResult) :
  align _ptrMat _score2 scores jumpScore query ref1 ref2 = Returned res ->
  let st := dp scores jumpScore query _score2 ref1 ref2 in
  let b := fallOff scores query (refSize (length ref1) (length ref2)) (thisSV st) 0 (bt st) in
  let ps1 := if (queryStart b <? length query)%nat
             then ALIGNPATH.mk_segment ALIGNPATH.SOFT_CLIP (length query - queryStart b)
             else ALIGNPATH.mk_segment ALIGNPATH.NONE 0 in
  query <> [] /\ ref1 <> [] /\ ref2 <> []
  /\ (queryStart b <= length query)%nat
  /\ (refStart b <= refSize (length ref1) (length ref2))%nat
  /\ exists b' path ps,
       traceback (queryStart b + refStart b)
                 (_ptrMat (_ptrMat1 st) (_ptrMat2 st)) b [] ps1
       = Returned (b', path, ps)
       /\ res = mk_result (max b)
                  (mk_alignment
                     (rev ((if bool_decide (queryStart b' = 0%nat)
                            then (fun l => l)
                            else (fun l => l ++ [ALIGNPATH.mk_segment ALIGNPATH.SOFT_CLIP
                                                   (queryStart b')]))
                             (if bool_decide (ALIGNPATH.type ps = ALIGNPATH.NONE)
                              then path else path ++ [ps])))
                     (refStart b')).
Proof.
  intros Hrun st b ps1. unfold align in Hrun.
  destruct (bool_decide_reflect (length query = 0%nat)) as [|Hq]; [discriminate|].
  destruct (bool_decide_reflect (length ref1 = 0%nat)) as [|Hr1]; [discriminate|].
  destruct (bool_decide_reflect (length ref2 = 0%nat)) as [|Hr2]; [discriminate|].
  fold st in Hrun. fold b in Hrun.
  destruct (isInit b); [|discriminate]. cbn [negb] in Hrun.
  destruct (Nat.leb_spec (refStart b) (refSize (length ref1) (length ref2)));
    [|discriminate].
  destruct (Nat.leb_spec (queryStart b) (length query)); [|discriminate].
  cbn [negb] in Hrun. fold ps1 in Hrun.
  destruct (traceback (queryStart b + refStart b)
                      (_ptrMat (_ptrMat1 st) (_ptrMat2 st)) b [] ps1)
    as [[[b' path] ps]|why|] eqn:Htb; try discriminate.
  injection Hrun as <-.
  split; [now destruct query|]. split; [now destruct ref1|]. split; [now destruct ref2|].
  split; [assumption|]. split; [assumption|].
  exists b', path, ps. split; [reflexivity|].
  now destruct (bool_decide (queryStart b' = 0%nat)).
Qed.

(** X11. For a match score that is not negative, a mismatch score below
    it, a gap-open penalty that is not positive and a negative gap-extend
    penalty, all small enough for the query that no score computed leaves
    the range of [ScoreType], and an aligner whose [_score2] holds no
    positive jump score in cell 0: whenever [align] returns, the score is
    at least [querySize * mismatch] and at most [querySize * match]. *)
Theorem align_score_bounds
    (_ptrMat : list (list PtrVal.t) -> list (list PtrVal.t) -> list (list PtrVal.t))
    (_score2 : list ScoreVal.t)
    (scores : AlignmentScores.t) (jumpScore : Z) (query ref1 ref2 : list ascii)
    (res : AlignmentResult) :
  0 <= AlignmentScores.match_ scores ->
  AlignmentScores.mismatch scores < AlignmentScores.match_ scores ->
  AlignmentScores.open scores <= 0 ->
  AlignmentScores.extend scores < 0 ->
  scoreSpan scores jumpScore (length query) < 2 ^ 31 ->
  headJump _score2 <= 0 ->
  align _ptrMat _score2 scores jumpScore query ref1 ref2 = Returned res ->
  Z.of_nat (length query) * AlignmentScores.mismatch scores <= score res
  <= Z.of_nat (length query) * AlignmentScores.match_ scores.
Proof.
  intros HM HX HO HE Hspan Hstale Hrun.
  destruct (scoreSpan_range scores jumpScore (length query) HM HO HE Hspan)
    as [Hlow Hhigh].
  destruct (align_returned_inv _ _ _ _ _ _ _ _ Hrun)
    as (Hq & Hr1 & Hr2 & _ & _ & b' & path & ps & _ & ->).
  cbn [score].
  destruct (align_seed scores jumpScore _score2 query ref1 ref2 Hr1 Hr2) as (Hi & _ & _).
  set (st0 := mk_dp (boundaryRow scores query)
                    (resize (length query + 1) ScoreVal_fresh _score2)
                    [replicate (length query + 1) PtrVal_fresh]
                    [replicate (length query + 1) PtrVal_fresh] BackTrace_init).
  set (st1 := pass (row1 scores jumpScore query) ref1 0 st0).
  set (st1' := mk_dp (boundaryRow scores query) (prevSV st1) (_ptrMat1 st1)
                     (_ptrMat2 st1) (bt st1)).
  assert (Hst : dp scores jumpScore query _score2 ref1 ref2
                = pass (row2 scores query) ref2 0 st1') by reflexivity.
  rewrite Hst in *. split.
  - destruct (pass2_last_row scores query ref2 Hr2 0 st1') as (v0 & rest & Hrow & Hv0 & _).
    destruct (fallOff_max scores query (refSize (length ref1) (length ref2))
                (thisSV (pass (row2 scores query) ref2 0 st1')) 0
                (bt (pass (row2 scores query) ref2 0 st1'))) as [_ Hhead].
    specialize (Hhead v0 rest Hrow). rewrite Hv0 in Hhead.
    rewrite wrapScore_small in Hhead.
    + cbn in Hhead. lia.
    + pose proof (mismatch_range scores query HM HX Hlow Hhigh (length query)
                    (Nat.le_refl _)). cbn. lia.
  - pose proof (pass1_inv scores jumpScore query HM HX HO HE ref1 0 st0
                  (inv1_start scores query HM HX Hlow Hhigh _score2 Hstale)) as Hinv1.
    fold st1 in Hinv1.
    destruct Hinv1 as (_ & _ & _ & _ & _ & Hj & _ & Hbt1 & _).
    assert (Hinv2 : inv2 (AlignmentScores.match_ scores) query st1').
    { unfold inv2, st1'. cbn [thisSV prevSV].
      split; [apply boundaryRow_length|].
      split; [now apply boundaryRow_bound2 | exact Hj]. }
    assert (Hlower : rowLower (AlignmentScores.mismatch scores) 0
                       (thisSV (pass (row2 scores query) ref2 0 st1'))).
    { apply (pass2_lower scores query HX). unfold st1'. cbn [thisSV].
      now apply boundaryRow_lower. }
    destruct (pass2_max_bound scores query ref2 HM HX HO HE 0 st1' Hinv2)
      as ((Hlen & Hrow2 & _) & Hb2).
    { unfold st1'. cbn [bt]. intros Hi1. now apply Hbt1. }
    apply fallOff_max_bound; trivial. lia.
Qed.

Lemma align_score_bounds_witness :
  2 * (-4) <= 4 <= 2 * 2.
Proof.
  apply (align_score_bounds (fun m1 _ => m1) []
           (AlignmentScores.mk 2 (-4) (-5) (-1)) (-3)
           ["C"; "G"]%char ["A"; "C"; "G"]%char ["T"]%char
           (mk_result 4 (mk_alignment [ALIGNPATH.mk_segment ALIGNPATH.MATCH 2] 1)));
    try (cbn; lia); vm_compute; reflexivity.
Defined.

(** ** The path *)

Lemma readLength_app (l1 l2 : list ALIGNPATH.path_segment) :
  readLength (l1 ++ l2) = (readLength l1 + readLength l2)%nat.
Proof. unfold readLength. now rewrite map_app, list_sum_app. Qed.

Lemma refLength_app (l1 l2 : list ALIGNPATH.path_segment) :
  refLength (l1 ++ l2) = (refLength l1 + refLength l2)%nat.
Proof. unfold refLength. now rewrite map_app, list_sum_app. Qed.

Lemma readLength_cons (x : ALIGNPATH.path_segment) (l : list ALIGNPATH.path_segment) :
  readLength (x :: l) = (segRead x + readLength l)%nat.
Proof. reflexivity. Qed.

Lemma refLength_cons (x : ALIGNPATH.path_segment) (l : list ALIGNPATH.path_segment) :
  refLength (x :: l) = (segRef x + refLength l)%nat.
Proof. reflexivity. Qed.

Lemma readLength_rev (l : list ALIGNPATH.path_segment) : readLength (rev l) = readLength l.
Proof.
  induction l as [|x l IH]; [reflexivity|].
  cbn [rev]. rewrite readLength_app, IH, !readLength_cons.
  change (readLength []) with 0%nat. lia.
Qed.

Lemma refLength_rev (l : list ALIGNPATH.path_segment) : refLength (rev l) = refLength l.
Proof.
  induction l as [|x l IH]; [reflexivity|].
  cbn [rev]. rewrite refLength_app, IH, !refLength_cons.
  change (refLength []) with 0%nat. lia.
Qed.

Lemma updatePath_type (path : list ALIGNPATH.path_segment)
    (ps : ALIGNPATH.path_segment) (atype : ALIGNPATH.align_t) :
  ALIGNPATH.type (snd (updatePath path ps atype)) = atype.
Proof.
  unfold updatePath.
  now destruct (bool_decide_reflect (ALIGNPATH.type ps = atype)).
Qed.

(** [updatePath] moves lengths from the segment in progress to the path and
    loses none. *)
Lemma updatePath_lengths (path : list ALIGNPATH.path_segment)
    (ps : ALIGNPATH.path_segment) (atype : ALIGNPATH.align_t) :
  (readLength (fst (updatePath path ps atype)) + segRead (snd (updatePath path ps atype))
   = readLength path + segRead ps)%nat
  /\ (refLength (fst (updatePath path ps atype)) + segRef (snd (updatePath path ps atype))
      = refLength path + segRef ps)%nat.
Proof.
  unfold updatePath.
  destruct (bool_decide_reflect (ALIGNPATH.type ps = atype)) as [Heq|Hne];
    cbn [fst snd]; [now split|].
  destruct (bool_decide_reflect (ALIGNPATH.type ps = ALIGNPATH.NONE)) as [Hnone|Hsome].
  - unfold segRead, segRef. rewrite Hnone.
    cbn [ALIGNPATH.type ALIGNPATH.length]. destruct atype; lia.
  - rewrite readLength_app, refLength_app, readLength_cons, refLength_cons.
    change (readLength []) with 0%nat. change (refLength []) with 0%nat.
    unfold segRead at 2. unfold segRef at 2.
    cbn [ALIGNPATH.type ALIGNPATH.length]. destruct atype; lia.
Qed.

Lemma segment_grow (t : ALIGNPATH.align_t) (len : nat) :
  (segRead (ALIGNPATH.mk_segment t (len + 1))
   = segRead (ALIGNPATH.mk_segment t len)
     + match t with
       | ALIGNPATH.MATCH | ALIGNPATH.INSERT | ALIGNPATH.SOFT_CLIP => 1
       | _ => 0
       end)%nat
  /\ (segRef (ALIGNPATH.mk_segment t (len + 1))
      = segRef (ALIGNPATH.mk_segment t len)
        + match t with
          | ALIGNPATH.MATCH | ALIGNPATH.DELETE => 1
          | _ => 0
          end)%nat.
Proof. unfold segRead, segRef. destruct t; cbn; lia. Qed.

(** The traceback accounts for every query and reference position it
    steps over. *)
Lemma traceback_lengths (mat : list (list PtrVal.t)) (fuel : nat) :
  forall (b b' : BackTrace) (path path' : list ALIGNPATH.path_segment)
         (ps ps' : ALIGNPATH.path_segment),
  traceback fuel mat b path ps = Returned (b', path', ps') ->
  (readLength path' + segRead ps' + queryStart b'
   = readLength path + segRead ps + queryStart b)%nat
  /\ (refLength path' + segRef ps' + refStart b'
      = refLength path + segRef ps + refStart b)%nat.
Proof.
  induction fuel as [|fuel IH]; intros b b' path path' ps ps' Hrun;
    cbn [traceback] in Hrun.
  - destruct ((0 <? queryStart b)%nat && (0 <? refStart b)%nat);
      [discriminate|]. now simplify_eq.
  - destruct ((0 <? queryStart b)%nat && (0 <? refStart b)%nat) eqn:Hpos;
      [|now simplify_eq].
    apply andb_true_iff in Hpos as [Hq Hr].
    apply Nat.ltb_lt in Hq, Hr.
    destruct (val mat (queryStart b) (refStart b)) as [pv|]; [|discriminate].
    destruct (state b); try discriminate;
      apply IH in Hrun; cbn [queryStart refStart] in Hrun;
      match type of Hrun with
      | context [updatePath path ps ?t] =>
          pose proof (updatePath_lengths path ps t) as [Hrd Hrf];
          pose proof (updatePath_type path ps t) as Hty;
          destruct (updatePath path ps t) as [p1 [t1 len1]]
      end;
      cbn [fst snd ALIGNPATH.type ALIGNPATH.length] in *; subst t1;
      match type of Hrun with
      | context [ALIGNPATH.mk_segment ?t (?l + 1)] =>
          pose proof (segment_grow t l) as [Hg1 Hg2]
      end; cbv beta iota in Hg1, Hg2;
      rewrite Hg1, Hg2 in Hrun; destruct Hrun as [H1 H2]; split; lia.
Qed.

Lemma close_segment_lengths (path : list ALIGNPATH.path_segment)
    (ps : ALIGNPATH.path_segment) :
  readLength (if bool_decide (ALIGNPATH.type ps = ALIGNPATH.NONE)
              then path else path ++ [ps])
  = (readLength path + segRead ps)%nat
  /\ refLength (if bool_decide (ALIGNPATH.type ps = ALIGNPATH.NONE)
                then path else path ++ [ps])
     = (refLength path + segRef ps)%nat.
Proof.
  destruct (bool_decide_reflect (ALIGNPATH.type ps = ALIGNPATH.NONE)) as [Hn|Hn].
  - unfold segRead, segRef. rewrite Hn. lia.
  - rewrite readLength_app, refLength_app, readLength_cons, refLength_cons.
    change (readLength []) with 0%nat. change (refLength []) with 0%nat. lia.
Qed.

Lemma leading_clip_lengths (l : list ALIGNPATH.path_segment) (q : nat) :
  readLength ((if bool_decide (q = 0%nat) then (fun l => l)
               else (fun l => l ++ [ALIGNPATH.mk_segment ALIGNPATH.SOFT_CLIP q])) l)
  = (readLength l + q)%nat
  /\ refLength ((if bool_decide (q = 0%nat) then (fun l => l)
                 else (fun l => l ++ [ALIGNPATH.mk_segment ALIGNPATH.SOFT_CLIP q])) l)
     = refLength l.
Proof.
  destruct (bool_decide_reflect (q = 0%nat)) as [->|Hq]; [lia|].
  rewrite readLength_app, refLength_app, readLength_cons, refLength_cons.
  change (readLength []) with 0%nat. change (refLength []) with 0%nat.
  unfold segRead, segRef. cbn [ALIGNPATH.type ALIGNPATH.length]. lia.
Qed.

Lemma trailing_clip_lengths (querySize q0 : nat) :
  (q0 <= querySize)%nat ->
  (segRead (if (q0 <? querySize)%nat
            then ALIGNPATH.mk_segment ALIGNPATH.SOFT_CLIP (querySize - q0)
            else ALIGNPATH.mk_segment ALIGNPATH.NONE 0) + q0 = querySize)%nat
  /\ segRef (if (q0 <? querySize)%nat
             then ALIGNPATH.mk_segment ALIGNPATH.SOFT_CLIP (querySize - q0)
             else ALIGNPATH.mk_segment ALIGNPATH.NONE 0) = 0%nat.
Proof.
  intros Hle. destruct (Nat.ltb_spec q0 querySize);
    unfold segRead, segRef; cbn [ALIGNPATH.type ALIGNPATH.length]; lia.
Qed.

(** X12. Whenever [align] returns, the path accounts for the whole query:
    the lengths of its MATCH, INSERT and SOFT_CLIP segments add up to
    [querySize].  And the path stays inside the reference: [alignStart] plus
    the lengths of its MATCH and DELETE segments is at most the combined
    reference length. *)
Theorem align_path_lengths
    (_ptrMat : list (list PtrVal.t) -> list (list PtrVal.t) -> list (list PtrVal.t))
    (_score2 : list ScoreVal.t)
    (scores : AlignmentScores.t) (jumpScore : Z) (query ref1 ref2 : list ascii)
    (res : AlignmentResult) :
  align _ptrMat _score2 scores jumpScore query ref1 ref2 = Returned res ->
  readLength (apath (align_ res)) = length query
  /\ (alignStart (align_ res) + refLength (apath (align_ res))
      <= length ref1 + length ref2)%nat.
Proof.
  intros Hrun.
  destruct (align_returned_inv _ _ _ _ _ _ _ _ Hrun)
    as (_ & _ & _ & Hqs & Hrs & b' & path & ps & Htb & ->).
  apply traceback_lengths in Htb as [Hrd Hrf].
  cbn [apath align_ alignStart]. rewrite readLength_rev, refLength_rev.
  unfold refSize in *.
  destruct (trailing_clip_lengths (length query) _ Hqs) as [Hc1 Hc2].
  match goal with
  | |- context [readLength (?f ?l)] =>
      destruct (leading_clip_lengths l (queryStart b')) as [Hl1 Hl2]
  end.
  rewrite Hl1, Hl2.
  destruct (close_segment_lengths path ps) as [Hs1 Hs2]. rewrite Hs1, Hs2.
  change (readLength []) with 0%nat in Hrd. change (refLength []) with 0%nat in Hrf.
  lia.
Qed.

Lemma align_path_lengths_witness :
  readLength [ALIGNPATH.mk_segment ALIGNPATH.MATCH 2] = 2%nat
  /\ (1 + refLength [ALIGNPATH.mk_segment ALIGNPATH.MATCH 2] <= 3 + 1)%nat.
Proof.
  exact (align_path_lengths (fun m1 _ => m1) []
           (AlignmentScores.mk 2 (-4) (-5) (-1)) (-3)
           ["C"; "G"]%char ["A"; "C"; "G"]%char ["T"]%char
           (mk_result 4 (mk_alignment [ALIGNPATH.mk_segment ALIGNPATH.MATCH 2] 1))
           eq_refl).
Defined.

(** ** The shape of the path *)

Lemma seed_positive (b : BackTrace) (m : Z) (r q : nat) :
  seedPositive b -> (1 <= r)%nat -> seedPositive (seed b m r q).
Proof.
  intros Hb Hr. destruct (seed_cases b m r q) as [(-> & _)|(-> & _)];
    [exact Hb|]. intros _. exact Hr.
Qed.

Lemma pass_seed_positive (query : list ascii) (row : ascii -> nat -> DP -> DP)
    (ref : list ascii) :
  seeds_rows query row ->
  forall (k : nat) (st : DP),
  seedPositive (bt st) -> seedPositive (bt (pass row ref k st)).
Proof.
  intros Hrow. induction ref as [|r ref IH]; intros k st Hb; [exact Hb|].
  cbn [pass]. apply IH. destruct (Hrow r k st) as [m ->].
  apply seed_positive; [exact Hb|lia].
Qed.

Lemma fallOff_seed_positive (scores : AlignmentScores.t) (query : list ascii)
    (refSize : nat) (v : list ScoreVal.t) :
  (1 <= refSize)%nat ->
  forall (queryIndex : nat) (b : BackTrace),
  seedPositive b -> seedPositive (fallOff scores query refSize v queryIndex b).
Proof.
  intros Hr. induction v as [|d v IH]; intros qi b Hb; [exact Hb|].
  cbn [fallOff]. apply IH. now apply seed_positive.
Qed.

Lemma align_seed_positive (scores : AlignmentScores.t) (jumpScore : Z)
    (_score2 : list ScoreVal.t) (query ref1 ref2 : list ascii) :
  ref1 <> [] ->
  seedPositive (fallOff scores query (refSize (length ref1) (length ref2))
                  (thisSV (dp scores jumpScore query _score2 ref1 ref2)) 0
                  (bt (dp scores jumpScore query _score2 ref1 ref2))).
Proof.
  intros Hr1. apply fallOff_seed_positive.
  { unfold refSize. destruct ref1; [congruence|cbn; lia]. }
  unfold dp. apply (pass_seed_positive query); [apply row2_seeds|]. cbn [bt].
  apply (pass_seed_positive query); [apply row1_seeds|]. intros Hi. discriminate.
Qed.

Local Ltac split5 := split; [|split; [|split; [|split]]].

(** One iteration of the loop: [updatePath] and [ps.length++]. *)
Lemma building_step (path : list ALIGNPATH.path_segment)
    (ps : ALIGNPATH.path_segment) (atype : ALIGNPATH.align_t) :
  isAligned atype ->
  building (rev path) ps ->
  building (rev (fst (updatePath path ps atype)))
           (ALIGNPATH.mk_segment (ALIGNPATH.type (snd (updatePath path ps atype)))
                                 (ALIGNPATH.length (snd (updatePath path ps atype)) + 1))
  /\ ALIGNPATH.type (snd (updatePath path ps atype)) = atype.
Proof.
  intros Ha (Hwell & [Hhead Htail] & Hclips & Hfirst & Hlen). unfold updatePath.
  destruct (bool_decide_reflect (ALIGNPATH.type ps = atype)) as [Heq|Hne];
    cbn [fst snd].
  - split; [|exact Heq]. split5.
    + exact Hwell.
    + split; [exact Hhead|exact Htail].
    + exact Hclips.
    + exact Hfirst.
    + intros _. cbn [ALIGNPATH.length]. lia.
  - split; [|reflexivity].
    destruct (bool_decide_reflect (ALIGNPATH.type ps = ALIGNPATH.NONE)) as [Hn|Hn].
    + assert (Hnil : rev path = []).
      { apply Hfirst. rewrite Hn. intros [H|[H|H]]; discriminate. }
      rewrite Hnil. split5.
      * constructor.
      * split; exact I.
      * intros i s Hi. destruct i; discriminate.
      * reflexivity.
      * intros _. cbn [ALIGNPATH.length]. lia.
    + rewrite rev_app_distr. cbn [rev app]. split5.
      * constructor; [split; [exact Hn|exact (Hlen Hn)]|exact Hwell].
      * split; [cbn [ALIGNPATH.type]; congruence|]. split; [exact Hhead|exact Htail].
      * intros i s Hi Hs. destruct i as [|i]; cbn in Hi.
        -- injection Hi as <-.
           assert (Hnil : rev path = []).
           { apply Hfirst. rewrite Hs. intros [H|[H|H]]; discriminate. }
           now rewrite Hnil.
        -- cbn [length]. f_equal. exact (Hclips i s Hi Hs).
      * cbn [ALIGNPATH.type]. intros Hc. now contradict Hc.
      * intros _. cbn [ALIGNPATH.length]. lia.
Qed.

(** The loop keeps the path in shape; and a segment in progress that is not
    of a type the loop writes shows that the loop has not run. *)
Lemma traceback_building (mat : list (list PtrVal.t)) (fuel : nat) :
  forall (b b' : BackTrace) (path path' : list ALIGNPATH.path_segment)
         (ps ps' : ALIGNPATH.path_segment),
  traceback fuel mat b path ps = Returned (b', path', ps') ->
  building (rev path) ps ->
  building (rev path') ps'
  /\ (isAligned (ALIGNPATH.type ps) -> isAligned (ALIGNPATH.type ps'))
  /\ (~ isAligned (ALIGNPATH.type ps') ->
      b' = b /\ (queryStart b = 0 \/ refStart b = 0)%nat).
Proof.
  induction fuel as [|fuel IH]; intros b b' path path' ps ps' Hrun Hb;
    cbn [traceback] in Hrun.
  - destruct ((0 <? queryStart b)%nat && (0 <? refStart b)%nat) eqn:Hpos;
      [discriminate|]. simplify_eq.
    split; [exact Hb|]. split; [trivial|]. intros _. split; [reflexivity|].
    apply andb_false_iff in Hpos as [H|H]; apply Nat.ltb_ge in H; lia.
  - destruct ((0 <? queryStart b)%nat && (0 <? refStart b)%nat) eqn:Hpos.
    2:{ simplify_eq.
        split; [exact Hb|]. split; [trivial|]. intros _. split; [reflexivity|].
        apply andb_false_iff in Hpos as [H|H]; apply Nat.ltb_ge in H; lia. }
    destruct (val mat (queryStart b) (refStart b)) as [pv|]; [|discriminate].
    destruct (state b); try discriminate;
      match type of Hrun with
      | context [updatePath path ps ?t] =>
          assert (Ht : isAligned t) by (unfold isAligned; auto);
          destruct (building_step path ps t Ht Hb) as [Hstep Hty]
      end;
      destruct (IH _ _ _ _ _ _ Hrun Hstep) as (Hb' & Hal & _);
      cbn [ALIGNPATH.type] in Hal; rewrite Hty in Hal;
      (split; [exact Hb'|]); (split; [intros _; now apply Hal|]);
      intros Hn; contradict Hn; now apply Hal.
Qed.

(** X13. Whenever [align] returns, the path is in normal form: every
    segment has a type and is at least 1 long, no two neighbouring segments
    have the same type, and a soft clip is the first or the last segment. *)
Theorem align_path_normal_form
    (_ptrMat : list (list PtrVal.t) -> list (list PtrVal.t) -> list (list PtrVal.t))
    (_score2 : list ScoreVal.t)
    (scores : AlignmentScores.t) (jumpScore : Z) (query ref1 ref2 : list ascii)
    (res : AlignmentResult) :
  align _ptrMat _score2 scores jumpScore query ref1 ref2 = Returned res ->
  Forall wellSeg (apath (align_ res))
  /\ compact (apath (align_ res))
  /\ clipsAtEnds (apath (align_ res)).
Proof.
  intros Hrun.
  destruct (align_returned_inv _ _ _ _ _ _ _ _ Hrun)
    as (_ & Hr1 & _ & Hqs & _ & b' & path & ps & Htb & ->).
  pose proof (align_seed_positive scores jumpScore _score2 query ref1 ref2 Hr1) as Hpos.
  destruct (align_seed scores jumpScore _score2 query ref1 ref2 Hr1) as (Hinit & _);
    [intros ->; now apply (proj1 (proj2 (proj2 (align_returned_inv _ _ _ _ _ _ _ _ Hrun))))|].
  cbv zeta in Hinit. specialize (Hpos Hinit).
  apply traceback_building in Htb as (Hb & _ & Hidle).
  2:{ repeat split; try constructor.
      - intros i s Hi. destruct i; discriminate.
      - destruct (Nat.ltb_spec
                    (queryStart (fallOff scores query (refSize (length ref1) (length ref2))
                                   (thisSV (dp scores jumpScore query _score2 ref1 ref2)) 0
                                   (bt (dp scores jumpScore query _score2 ref1 ref2))))
                    (length query)); cbn [ALIGNPATH.type ALIGNPATH.length];
          [lia|congruence]. }
  destruct Hb as (Hwell & Hcompact & Hclips & Hfirst & Hlen).
  cbn [apath align_].
  set (stored := rev (if bool_decide (ALIGNPATH.type ps = ALIGNPATH.NONE)
                      then path else path ++ [ps])).
  assert (Hstored : Forall wellSeg stored /\ compact stored /\ clipsLast stored
                    /\ (forall s rest, stored = s :: rest -> s = ps)).
  { unfold stored.
    destruct (bool_decide_reflect (ALIGNPATH.type ps = ALIGNPATH.NONE)) as [Hn|Hn].
    - assert (Hnil : rev path = []).
      { apply Hfirst. rewrite Hn. intros [H|[H|H]]; discriminate. }
      rewrite Hnil. repeat split; try constructor.
      + intros i s Hi. destruct i; discriminate.
      + intros s rest H. discriminate.
    - rewrite rev_app_distr. cbn [rev app]. repeat split.
      + constructor; [split; [exact Hn|exact (Hlen Hn)]|exact Hwell].
      + destruct Hcompact as [H1 _]. exact H1.
      + destruct Hcompact as [_ H2]. exact H2.
      + intros i s Hi Hs. destruct i as [|i]; cbn in Hi.
        * injection Hi as <-.
          assert (Hnil : rev path = []).
          { apply Hfirst. rewrite Hs. intros [H|[H|H]]; discriminate. }
          now rewrite Hnil.
        * cbn [length]. f_equal. exact (Hclips i s Hi Hs).
      + intros s rest H. now injection H as <-. }
  destruct Hstored as (Hw & Hc & Hcl & Hhd).
  destruct (bool_decide_reflect (queryStart b' = 0%nat)) as [Hq0|Hq0].
  - fold stored. repeat split; trivial.
    intros i s Hi Hs. right. exact (Hcl i s Hi Hs).
  - match goal with
    | |- context [rev (?l ++ [?c])] =>
        replace (rev (l ++ [c])) with (c :: stored)
          by (unfold stored; now rewrite rev_app_distr)
    end.
    repeat split.
    + constructor; [|exact Hw]. split; [discriminate|]. cbn [ALIGNPATH.length]. lia.
    + destruct stored as [|s rest] eqn:Hst; [exact I|].
      cbn [ALIGNPATH.type]. rewrite (Hhd s rest eq_refl). intros Hclip.
      destruct Hidle as [-> Hzero].
      { rewrite <- Hclip. intros [H|[H|H]]; discriminate. }
      lia.
    + exact Hc.
    + intros i s Hi Hs. destruct i as [|i]; [now left|]. right.
      cbn in Hi. cbn [length]. f_equal. exact (Hcl i s Hi Hs).
Qed.

Lemma align_path_normal_form_witness :
  let path := [ALIGNPATH.mk_segment ALIGNPATH.SOFT_CLIP 1;
               ALIGNPATH.mk_segment ALIGNPATH.MATCH 4;
               ALIGNPATH.mk_segment ALIGNPATH.INSERT 2;
               ALIGNPATH.mk_segment ALIGNPATH.MATCH 4] in
  Forall wellSeg path /\ compact path /\ clipsAtEnds path.
Proof.
  exact (align_path_normal_form (fun m1 _ => m1) []
           (AlignmentScores.mk 2 (-4) (-5) (-1)) (-3)
           ["T"; "A"; "C"; "G"; "T"; "A"; "C"; "T"; "T"; "A"; "A"]%char
           ["A"; "C"; "G"; "T"; "T"; "T"; "T"; "A"; "C"; "T"; "T"]%char
           ["C"]%char
           (mk_result (-1)
              (mk_alignment [ALIGNPATH.mk_segment ALIGNPATH.SOFT_CLIP 1;
                             ALIGNPATH.mk_segment ALIGNPATH.MATCH 4;
                             ALIGNPATH.mk_segment ALIGNPATH.INSERT 2;
                             ALIGNPATH.mk_segment ALIGNPATH.MATCH 4] 0))
           ltac:(vm_compute; reflexivity)).
Defined.

(** ** The jump score *)

Lemma cell1_sim (scores : AlignmentScores.t) (J J' : Z) (q r : ascii)
    (diag diag' up up' left left' : ScoreVal.t) :
  simS diag diag' -> simS up up' -> simS left left' ->
  simS (fst (cell1 scores J q r diag up left)) (fst (cell1 scores J' q r diag' up' left'))
  /\ noJump (snd (cell1 scores J q r diag up left))
     = noJump (snd (cell1 scores J' q r diag' up' left')).
Proof.
  intros (Hd1 & Hd2 & Hd3) (Hu1 & Hu2 & Hu3) (Hl1 & Hl2 & Hl3).
  unfold cell1, simS, noJump.
  cbn [fst snd ScoreVal.match_ ScoreVal.del ScoreVal.ins
       PtrVal.match_ PtrVal.del PtrVal.ins].
  rewrite Hd1, Hd2, Hd3, Hu1, Hu2, Hu3, Hl1, Hl2, Hl3. repeat split.
Qed.

Lemma fillRow1_sim (scores : AlignmentScores.t) (J J' : Z) (r : ascii) (qs : list ascii) :
  forall (prev prev' : list ScoreVal.t) (left left' : ScoreVal.t),
  Forall2 simS prev prev' -> simS left left' ->
  Forall2 simS (map fst (fillRow (cell1 scores J) r qs prev left))
               (map fst (fillRow (cell1 scores J') r qs prev' left'))
  /\ map noJump (map snd (fillRow (cell1 scores J) r qs prev left))
     = map noJump (map snd (fillRow (cell1 scores J') r qs prev' left')).
Proof.
  induction qs as [|q qs IH]; intros prev prev' left left' Hprev Hleft.
  { cbn. split; [constructor|reflexivity]. }
  destruct Hprev as [|diag diag' prev prev' Hdiag Hprev];
    [cbn; split; [constructor|reflexivity]|].
  destruct Hprev as [|up up' prev prev' Hup Hprev];
    [cbn; split; [constructor|reflexivity]|].
  cbn [fillRow map].
  destruct (cell1_sim scores J J' q r _ _ _ _ _ _ Hdiag Hup Hleft) as [Hs Hp].
  assert (Hprev' : Forall2 simS (up :: prev) (up' :: prev')) by now constructor.
  destruct (IH (up :: prev) (up' :: prev') _ _ Hprev' Hs) as [IHs IHp].
  split; [now constructor|]. now rewrite Hp, IHp.
Qed.

Lemma lastMatch_sim (query : list ascii) (v v' : list ScoreVal.t) :
  Forall2 simS v v' -> lastMatch query v = lastMatch query v'.
Proof.
  unfold lastMatch. generalize (length query). intros n Hv. revert n.
  induction Hv as [|x x' v v' Hx Hv IH]; intros [|n]; cbn [nth]; trivial.
  apply Hx.
Qed.

Lemma row1_sim (scores : AlignmentScores.t) (J J' : Z) (query : list ascii)
    (r : ascii) (k : nat) (st st' : DP) :
  sim1 st st' -> sim1 (row1 scores J query r k st) (row1 scores J' query r k st').
Proof.
  intros (Hthis & Hhd & Hhd' & Hm1 & Hm2 & Hbt). unfold row1, sim1.
  cbn [thisSV prevSV _ptrMat1 _ptrMat2 bt].
  assert (Hstart : simS (startCell (prevSV st)) (startCell (prevSV st')))
    by (repeat split).
  destruct (fillRow1_sim scores J J' r query _ _ _ _ Hthis Hstart) as [Hs Hp].
  split; [now constructor|].
  split; [exact Hhd'|]. split; [exact Hhd|].
  split; [rewrite !map_app, Hm1; cbn [map]; now rewrite Hp|].
  split; [exact Hm2|].
  rewrite Hbt. f_equal. apply lastMatch_sim. now constructor.
Qed.

Lemma row2_sim (scores : AlignmentScores.t) (query : list ascii)
    (r : ascii) (k : nat) (st st' : DP) :
  sim2 st st' -> sim2 (row2 scores query r k st) (row2 scores query r k st').
Proof.
  intros (Hthis & Hhd & Hm1 & Hm2 & Hbt). unfold row2, sim2.
  cbn [thisSV prevSV _ptrMat1 _ptrMat2 bt].
  assert (Hstart : startCell (prevSV st) = startCell (prevSV st')).
  { unfold startCell. unfold headJump in Hhd. now rewrite Hhd. }
  rewrite Hstart, Hthis, Hm2, Hbt. repeat split; trivial.
Qed.

Lemma pass_sim (R : DP -> DP -> Prop) (row row' : ascii -> nat -> DP -> DP) :
  (forall r k st st', R st st' -> R (row r k st) (row' r k st')) ->
  forall (ref : list ascii) (k : nat) (st st' : DP),
  R st st' -> R (pass row ref k st) (pass row' ref k st').
Proof.
  intros Hrow. induction ref as [|r ref IH]; intros k st st' HR; [exact HR|].
  cbn [pass]. apply IH, Hrow, HR.
Qed.

Lemma dp_sim (scores : AlignmentScores.t) (J J' : Z)
    (_score2 : list ScoreVal.t)
    (query ref1 ref2 : list ascii) :
  sim2 (dp scores J query _score2 ref1 ref2) (dp scores J' query _score2 ref1 ref2).
Proof.
  unfold dp. apply (pass_sim sim2); [intros; now apply row2_sim|].
  match goal with
  | |- sim2 (mk_dp _ (prevSV (pass _ _ _ ?st0)) _ _ _) _ =>
      assert (H1 : sim1 (pass (row1 scores J query) ref1 0 st0)
                        (pass (row1 scores J' query) ref1 0 st0))
  end.
  { apply (pass_sim sim1); [intros; now apply row1_sim|].
    unfold sim1. cbn [thisSV prevSV _ptrMat1 _ptrMat2 bt].
    repeat split; trivial.
    apply Forall2_same_length_lookup_2; [reflexivity|].
    intros i x y Hx Hy. rewrite Hx in Hy. injection Hy as <-. repeat split. }
  destruct H1 as (_ & _ & Hhd & Hm1 & Hm2 & Hbt).
  unfold sim2. cbn [thisSV prevSV _ptrMat1 _ptrMat2 bt]. repeat split; trivial.
Qed.

(** X14. The jump score has no part in what the two passes hand on: the
    last row of scores, the pointer matrix of pass 2 and the backtrace seed
    are the same for every jump score, and the pointer matrix of pass 1 is
    the same but for its jump pointers.  The jump scores that pass 1 stores
    are overwritten before pass 2 reads them. *)
Theorem jumpScore_leaves_passes_alone (scores : AlignmentScores.t) (J J' : Z)
    (_score2 : list ScoreVal.t) (query ref1 ref2 : list ascii) :
  thisSV (dp scores J query _score2 ref1 ref2)
  = thisSV (dp scores J' query _score2 ref1 ref2)
  /\ bt (dp scores J query _score2 ref1 ref2)
     = bt (dp scores J' query _score2 ref1 ref2)
  /\ _ptrMat2 (dp scores J query _score2 ref1 ref2)
     = _ptrMat2 (dp scores J' query _score2 ref1 ref2)
  /\ map (map noJump) (_ptrMat1 (dp scores J query _score2 ref1 ref2))
     = map (map noJump) (_ptrMat1 (dp scores J' query _score2 ref1 ref2)).
Proof.
  destruct (dp_sim scores J J' _score2 query ref1 ref2) as (Hthis & _ & Hm1 & Hm2 & Hbt).
  repeat split; assumption.
Qed.

Lemma val_noJump (mat : list (list PtrVal.t)) (q r : nat) :
  val (map (map noJump) mat) q r = option_map noJump (val mat q r).
Proof.
  unfold val. rewrite lookup_map. destruct (mat !! r) as [row|]; cbn; [|reflexivity].
  apply lookup_map.
Qed.

(** The traceback loop reads no jump pointer that it then follows. *)
Lemma traceback_noJump (mat : list (list PtrVal.t)) (fuel : nat) :
  forall (b : BackTrace) (path : list ALIGNPATH.path_segment)
         (ps : ALIGNPATH.path_segment),
  traceback fuel (map (map noJump) mat) b path ps = traceback fuel mat b path ps.
Proof.
  induction fuel as [|fuel IH]; intros b path ps; cbn [traceback]; [reflexivity|].
  destruct ((0 <? queryStart b)%nat && (0 <? refStart b)%nat); [|reflexivity].
  rewrite val_noJump.
  destruct (val mat (queryStart b) (refStart b)) as [pv|]; cbn [option_map];
    [|reflexivity].
  destruct (state b); cbn [PtrVal.get noJump PtrVal.match_ PtrVal.del PtrVal.ins];
    try reflexivity; apply IH.
Qed.

(** X15. For a reading of [_ptrMat] that takes its match, delete and insert
    pointers from those of the two matrices, the result of [align] is the
    same for every jump score: the same score, path and start, or the same
    failed assertion. *)
Theorem align_ignores_jumpScore
    (_ptrMat : list (list PtrVal.t) -> list (list PtrVal.t) -> list (list PtrVal.t))
    (_score2 : list ScoreVal.t)
    (scores : AlignmentScores.t) (J J' : Z) (query ref1 ref2 : list ascii) :
  jumpBlind _ptrMat ->
  align _ptrMat _score2 scores J query ref1 ref2
  = align _ptrMat _score2 scores J' query ref1 ref2.
Proof.
  intros Hblind. unfold align.
  destruct (dp_sim scores J J' _score2 query ref1 ref2) as (Hthis & _ & Hm1 & Hm2 & Hbt).
  rewrite Hthis, Hbt, Hm2.
  rewrite <- (traceback_noJump (_ptrMat (_ptrMat1 (dp scores J query _score2 ref1 ref2)) _)).
  rewrite <- (traceback_noJump (_ptrMat (_ptrMat1 (dp scores J' query _score2 ref1 ref2)) _)).
  now rewrite (Hblind _ _ _ Hm1).
Qed.

Lemma align_ignores_jumpScore_witness :
  align (fun m1 m2 => m1 ++ m2) [] (AlignmentScores.mk 2 (-4) (-5) (-1)) (-3)
        ["C"; "G"; "T"]%char ["A"; "C"; "G"]%char ["T"; "T"]%char
  = align (fun m1 m2 => m1 ++ m2) [] (AlignmentScores.mk 2 (-4) (-5) (-1)) 1000
          ["C"; "G"; "T"]%char ["A"; "C"; "G"]%char ["T"; "T"]%char.
Proof.
  apply (align_ignores_jumpScore (fun m1 m2 => m1 ++ m2)).
  intros m1 m1' m2 H. rewrite !map_app. now rewrite H.
Defined.

End AlignerMore.

(* ===================================================================== *)
(** * Properties of the simple alignments                                 *)
(* ===================================================================== *)

Section MatchifyFacts.
Import JumpAligner Alignment.

Variable is_segment_type_read_length : ALIGNPATH.align_t -> bool.
Variable is_segment_type_ref_length : ALIGNPATH.align_t -> bool.
Variable get_match_edge_segments : list ALIGNPATH.path_segment -> nat * nat.

Lemma adjMatchFree_snoc (l : list ALIGNPATH.path_segment) (x : ALIGNPATH.path_segment) :
  adjMatchFree l ->
  (forall b, last l = Some b -> ALIGNPATH.type b = ALIGNPATH.MATCH ->
             ALIGNPATH.type x <> ALIGNPATH.MATCH) ->
  adjMatchFree (l ++ [x]).
Proof.
  intros Hl Hx i s s' Hi HSi Hs.
  destruct (decide (S i < length l)%nat) as [Hlt|Hge].
  - rewrite lookup_app_l in Hi by lia. rewrite lookup_app_l in HSi by lia.
    exact (Hl i s s' Hi HSi Hs).
  - assert (Hlen : S i = length l).
    { apply lookup_lt_Some in HSi. rewrite length_app in HSi. cbn in HSi. lia. }
    rewrite lookup_app_l in Hi by lia. rewrite lookup_app_r in HSi by lia.
    replace (S i - length l)%nat with 0%nat in HSi by lia. injection HSi as <-.
    apply (Hx s); [|exact Hs]. rewrite last_lookup.
    replace (Init.Nat.pred (length l)) with i by lia. exact Hi.
Qed.

Lemma adjMatchFree_prefix (l1 l2 : list ALIGNPATH.path_segment) :
  adjMatchFree (l1 ++ l2) -> adjMatchFree l1.
Proof.
  intros H i s s' Hi HSi. apply (H i s s').
  - rewrite lookup_app_l; [exact Hi|]. now apply lookup_lt_Some in Hi.
  - rewrite lookup_app_l; [exact HSi|]. now apply lookup_lt_Some in HSi.
Qed.

Lemma adjMatchFree_last (l : list ALIGNPATH.path_segment)
    (b x : ALIGNPATH.path_segment) (rest : list ALIGNPATH.path_segment) :
  adjMatchFree (l ++ x :: rest) -> last l = Some b ->
  ALIGNPATH.type b = ALIGNPATH.MATCH -> ALIGNPATH.type x <> ALIGNPATH.MATCH.
Proof.
  intros H Hb Hm. rewrite last_lookup in Hb.
  assert (Hlen : (0 < length l)%nat).
  { apply lookup_lt_Some in Hb. lia. }
  apply (H (Init.Nat.pred (length l)) b x); [| |exact Hm].
  - rewrite lookup_app_l by lia. exact Hb.
  - rewrite lookup_app_r by lia.
    now replace (S (Init.Nat.pred (length l)) - length l)%nat with 0%nat by lia.
Qed.

(** What one iteration does to the path: it merges into a last MATCH
    segment, or it stores a segment. *)
Lemma matchifyStep_path (ends : nat * nat) (t : ALIGNPATH.align_t) (lead trail : bool)
    (i : nat) (ps : ALIGNPATH.path_segment) (al2 : SimpleAlignment) :
  let al3 := matchifyStep ends t lead trail i ps al2 in
  (exists front back,
     path al2 = front ++ [back] /\ ALIGNPATH.type back = ALIGNPATH.MATCH
     /\ path al3 = front ++ [ALIGNPATH.mk_segment ALIGNPATH.MATCH
                               (wrap_length (ALIGNPATH.length back + ALIGNPATH.length ps))])
  \/ (exists x, path al3 = path al2 ++ [x]
        /\ ALIGNPATH.length x = ALIGNPATH.length ps
        /\ (ALIGNPATH.type x = ALIGNPATH.MATCH ->
            forall b, last (path al2) = Some b ->
                      ALIGNPATH.type b <> ALIGNPATH.MATCH)).
Proof.
  intros al3. unfold al3, matchifyStep. cbn [path].
  destruct (_ || bool_decide (ALIGNPATH.type ps = ALIGNPATH.MATCH)) eqn:Hm.
  - destruct (last (path al2)) as [back|] eqn:Hlast.
    + destruct (bool_decide_reflect (ALIGNPATH.type back = ALIGNPATH.MATCH)) as [Hb|Hb].
      * left. apply last_Some in Hlast as [front Hfront].
        exists front, back. split; [exact Hfront|]. split; [exact Hb|].
        rewrite Hfront, removelast_last, Hb. reflexivity.
      * right. eexists. split; [reflexivity|]. split; [reflexivity|].
        intros _ b Hbb. now injection Hbb as <-.
    + right. eexists. split; [reflexivity|]. split; [reflexivity|].
      intros _ b Hbb. discriminate.
  - right. exists ps. split; [reflexivity|]. split; [reflexivity|].
    intros Hps. apply orb_false_iff in Hm as [_ Hm].
    apply bool_decide_eq_false in Hm. contradiction.
Qed.

Lemma matchifyStep_fields (ends : nat * nat) (t : ALIGNPATH.align_t) (lead trail : bool)
    (i : nat) (ps : ALIGNPATH.path_segment) (al2 : SimpleAlignment) :
  is_fwd_strand (matchifyStep ends t lead trail i ps al2) = is_fwd_strand al2
  /\ tid (matchifyStep ends t lead trail i ps al2) = tid al2.
Proof. split; reflexivity. Qed.

Lemma matchifyLoop_ind (P : SimpleAlignment -> Prop) (ends : nat * nat)
    (t : ALIGNPATH.align_t) (lead trail : bool) :
  (forall i ps al2, P al2 -> P (matchifyStep ends t lead trail i ps al2)) ->
  forall (segments : list ALIGNPATH.path_segment) (i : nat) (al2 : SimpleAlignment),
  P al2 -> P (matchifyLoop ends t lead trail i segments al2).
Proof.
  intros Hstep. induction segments as [|ps rest IH]; intros i al2 HP; [exact HP|].
  cbn [matchifyLoop]. apply IH, Hstep, HP.
Qed.

Lemma matchifyStep_adjMatchFree (ends : nat * nat) (t : ALIGNPATH.align_t)
    (lead trail : bool) (i : nat) (ps : ALIGNPATH.path_segment) (al2 : SimpleAlignment) :
  adjMatchFree (path al2) ->
  adjMatchFree (path (matchifyStep ends t lead trail i ps al2)).
Proof.
  intros Hfree.
  destruct (matchifyStep_path ends t lead trail i ps al2)
    as [(front & back & Hfront & Hb & ->)|(x & -> & _ & Hx)].
  - rewrite Hfront in Hfree. apply adjMatchFree_snoc.
    + exact (adjMatchFree_prefix _ _ Hfree).
    + intros b Hlast Hbm _. exact (adjMatchFree_last front b back [] Hfree Hlast Hbm Hb).
  - apply adjMatchFree_snoc; [exact Hfree|].
    intros b Hlast Hbm Hxm. exact (Hx Hxm b Hlast Hbm).
Qed.

(** X16. Whatever the edges are, the path that [matchifyEdgeSegmentType]
    returns has no MATCH segment next to a MATCH segment: the segments it
    turns into matches and the matches of the input are merged. *)
Theorem matchify_no_adjacent_match (al al2 : SimpleAlignment)
    (segmentType : ALIGNPATH.align_t) (isMatchLeadingEdge isMatchTrailingEdge : bool) :
  matchifyEdgeSegmentType is_segment_type_read_length get_match_edge_segments
    al segmentType isMatchLeadingEdge isMatchTrailingEdge = Some al2 ->
  adjMatchFree (path al2).
Proof.
  unfold matchifyEdgeSegmentType.
  destruct (is_segment_type_read_length segmentType); [|discriminate].
  intros Hrun. injection Hrun as <-.
  apply (matchifyLoop_ind (fun a => adjMatchFree (path a))).
  - intros i ps a. apply matchifyStep_adjMatchFree.
  - intros i s s' Hi. destruct i; discriminate.
Qed.

Lemma pathLength_app (l1 l2 : list ALIGNPATH.path_segment) :
  pathLength (l1 ++ l2) = (pathLength l1 + pathLength l2)%nat.
Proof. unfold pathLength. now rewrite map_app, list_sum_app. Qed.

Lemma pathLength_cons (x : ALIGNPATH.path_segment) (l : list ALIGNPATH.path_segment) :
  pathLength (x :: l) = (ALIGNPATH.length x + pathLength l)%nat.
Proof. reflexivity. Qed.

Lemma pathLength_snoc (l : list ALIGNPATH.path_segment) (x : ALIGNPATH.path_segment) :
  pathLength (l ++ [x]) = (pathLength l + ALIGNPATH.length x)%nat.
Proof.
  rewrite pathLength_app, pathLength_cons. change (pathLength []) with 0%nat. lia.
Qed.

Lemma wrap_length_small (n : nat) : (N.of_nat n < 2 ^ 32)%N -> wrap_length n = n.
Proof.
  intros Hn. unfold wrap_length, Locus.wrap32. rewrite N.mod_small by exact Hn. lia.
Qed.

Lemma wrap_pos_small (z : Z) : - 2 ^ 31 <= z < 2 ^ 31 -> wrap_pos z = z.
Proof. intros Hz. unfold wrap_pos. rewrite Z.mod_small; lia. Qed.

Lemma matchifyStep_lengths (ends : nat * nat) (t : ALIGNPATH.align_t) (lead trail : bool)
    (i : nat) (ps : ALIGNPATH.path_segment) (al2 : SimpleAlignment) :
  (N.of_nat (pathLength (path al2) + ALIGNPATH.length ps) < 2 ^ 32)%N ->
  pathLength (path (matchifyStep ends t lead trail i ps al2))
  = (pathLength (path al2) + ALIGNPATH.length ps)%nat
  /\ (length (path (matchifyStep ends t lead trail i ps al2))
      <= S (length (path al2)))%nat.
Proof.
  intros Hsmall.
  destruct (matchifyStep_path ends t lead trail i ps al2)
    as [(front & back & Hfront & Hb & ->)|(x & -> & Hx & _)].
  - rewrite Hfront in *. rewrite !pathLength_snoc in *. rewrite !length_app.
    cbn [ALIGNPATH.length length]. rewrite wrap_length_small by lia. lia.
  - rewrite pathLength_snoc, length_app, Hx. cbn [length]. lia.
Qed.

Lemma matchifyLoop_lengths (ends : nat * nat) (t : ALIGNPATH.align_t) (lead trail : bool)
    (segments : list ALIGNPATH.path_segment) :
  forall (i : nat) (al2 : SimpleAlignment),
  (N.of_nat (pathLength (path al2) + pathLength segments) < 2 ^ 32)%N ->
  pathLength (path (matchifyLoop ends t lead trail i segments al2))
  = (pathLength (path al2) + pathLength segments)%nat
  /\ (length (path (matchifyLoop ends t lead trail i segments al2))
      <= length (path al2) + length segments)%nat.
Proof.
  induction segments as [|ps rest IH]; intros i al2 Hsmall.
  { cbn [matchifyLoop length]. change (pathLength []) with 0%nat. lia. }
  cbn [matchifyLoop length]. rewrite pathLength_cons in *.
  destruct (matchifyStep_lengths ends t lead trail i ps al2) as [Hsum Hlen]; [lia|].
  destruct (IH (S i) (matchifyStep ends t lead trail i ps al2)) as [IHsum IHlen];
    [rewrite Hsum; lia|].
  rewrite IHsum, Hsum. lia.
Qed.

(** X17. [matchifyEdgeSegmentType] keeps the strand and the chromosome,
    returns a path of no more segments than it was given, and keeps the
    total of the segment lengths, provided that this total fits the
    unsigned length of a segment. *)
Theorem matchify_keeps_lengths (al al2 : SimpleAlignment)
    (segmentType : ALIGNPATH.align_t) (isMatchLeadingEdge isMatchTrailingEdge : bool) :
  (N.of_nat (pathLength (path al)) < 2 ^ 32)%N ->
  matchifyEdgeSegmentType is_segment_type_read_length get_match_edge_segments
    al segmentType isMatchLeadingEdge isMatchTrailingEdge = Some al2 ->
  is_fwd_strand al2 = is_fwd_strand al
  /\ tid al2 = tid al
  /\ (length (path al2) <= length (path al))%nat
  /\ pathLength (path al2) = pathLength (path al).
Proof.
  intros Hsmall. unfold matchifyEdgeSegmentType.
  destruct (is_segment_type_read_length segmentType); [|discriminate].
  intros Hrun. injection Hrun as <-.
  split; [|split].
  - apply (matchifyLoop_ind (fun a => is_fwd_strand a = is_fwd_strand al));
      [intros i ps a Ha; exact Ha|reflexivity].
  - apply (matchifyLoop_ind (fun a => tid a = tid al));
      [intros i ps a Ha; exact Ha|reflexivity].
  - match goal with
    | |- context [matchifyLoop ?e ?t ?l ?r 0 ?p ?a] =>
        destruct (matchifyLoop_lengths e t l r p 0%nat a) as [Hsum Hlen]
    end; [exact Hsmall|].
    cbn [path length] in *. change (pathLength []) with 0%nat in Hsum. lia.
Qed.

Lemma matchifyLoop_plain (ends : nat * nat) (t : ALIGNPATH.align_t)
    (segments : list ALIGNPATH.path_segment) :
  forall (i : nat) (al2 : SimpleAlignment),
  pos (matchifyLoop ends t false false i segments al2) = pos al2
  /\ (adjMatchFree (path al2 ++ segments) ->
      matchifyLoop ends t false false i segments al2
      = mk_sa (is_fwd_strand al2) (tid al2) (pos al2) (path al2 ++ segments)).
Proof.
  induction segments as [|ps rest IH]; intros i al2.
  { cbn [matchifyLoop]. split; [reflexivity|]. intros _.
    rewrite app_nil_r. now destruct al2. }
  cbn [matchifyLoop].
  destruct (IH (S i) (matchifyStep ends t false false i ps al2)) as [IHpos IHpath].
  split; [rewrite IHpos; reflexivity|].
  intros Hfree.
  assert (Hstep : matchifyStep ends t false false i ps al2
                  = mk_sa (is_fwd_strand al2) (tid al2) (pos al2) (path al2 ++ [ps])).
  { unfold matchifyStep. cbn [andb orb]. f_equal.
    destruct (bool_decide_reflect (ALIGNPATH.type ps = ALIGNPATH.MATCH)) as [Hm|Hm];
      [|reflexivity].
    assert (Hps : ALIGNPATH.mk_segment ALIGNPATH.MATCH (ALIGNPATH.length ps) = ps)
      by (destruct ps; cbn in *; now subst).
    rewrite Hps. destruct (last (path al2)) as [back|] eqn:Hlast; [|reflexivity].
    destruct (bool_decide_reflect (ALIGNPATH.type back = ALIGNPATH.MATCH)) as [Hb|Hb];
      [|reflexivity].
    now destruct (adjMatchFree_last (path al2) back ps rest Hfree Hlast Hb). }
  rewrite Hstep in *. cbn [path is_fwd_strand tid pos] in IHpath.
  rewrite <- app_assoc in IHpath. now apply IHpath.
Qed.

(** X18. With neither edge chosen, [matchifyEdgeSegmentType] does nothing
    but merge neighbouring MATCH segments: the position stays, and an
    alignment whose path has no MATCH segment next to a MATCH segment comes
    back as it was. *)
Theorem matchify_without_edges (al al2 : SimpleAlignment)
    (segmentType : ALIGNPATH.align_t) :
  matchifyEdgeSegmentType is_segment_type_read_length get_match_edge_segments
    al segmentType false false = Some al2 ->
  pos al2 = pos al /\ (adjMatchFree (path al) -> al2 = al).
Proof.
  unfold matchifyEdgeSegmentType.
  destruct (is_segment_type_read_length segmentType); [|discriminate].
  intros Hrun. injection Hrun as <-.
  match goal with
  | |- context [matchifyLoop ?e ?t false false 0 ?p ?a] =>
      destruct (matchifyLoop_plain e t p 0%nat a) as [Hpos Hpath]
  end.
  split; [exact Hpos|]. intros Hfree. cbn [path app] in Hpath.
  rewrite (Hpath Hfree). now destruct al.
Qed.

Lemma refRangeStep_bounds (ends : nat * nat) (i : nat) (ps : ALIGNPATH.path_segment)
    (be : Z * Z) (P : Z) (c : nat) :
  - 2 ^ 31 <= P - Z.of_nat (c + ALIGNPATH.length ps) ->
  P + Z.of_nat (c + ALIGNPATH.length ps) < 2 ^ 31 ->
  P - Z.of_nat c <= fst be <= P -> P <= snd be <= P + Z.of_nat c ->
  let be' := refRangeStep is_segment_type_read_length is_segment_type_ref_length
               ends i ps be in
  P - Z.of_nat (c + ALIGNPATH.length ps) <= fst be' <= P
  /\ P <= snd be' <= P + Z.of_nat (c + ALIGNPATH.length ps).
Proof.
  intros Hlow Hhigh Hb He be'. unfold be', refRangeStep.
  destruct ((i <? fst ends)%nat || (snd ends <? i)%nat);
    [destruct (is_segment_type_read_length (ALIGNPATH.type ps));
       [destruct (i <? fst ends)%nat|]
    |destruct (is_segment_type_ref_length (ALIGNPATH.type ps))];
    cbn [fst snd]; try rewrite wrap_pos_small; lia.
Qed.

Lemma refRangeLoop_bounds (ends : nat * nat) (P : Z)
    (segments : list ALIGNPATH.path_segment) :
  forall (i : nat) (be : Z * Z) (c : nat),
  - 2 ^ 31 <= P - Z.of_nat (c + pathLength segments) ->
  P + Z.of_nat (c + pathLength segments) < 2 ^ 31 ->
  P - Z.of_nat c <= fst be <= P -> P <= snd be <= P + Z.of_nat c ->
  let be' := refRangeLoop is_segment_type_read_length is_segment_type_ref_length
               ends i segments be in
  P - Z.of_nat (c + pathLength segments) <= fst be' <= P
  /\ P <= snd be' <= P + Z.of_nat (c + pathLength segments).
Proof.
  induction segments as [|ps rest IH]; intros i be c Hlow Hhigh Hb He.
  { cbn [refRangeLoop]. change (pathLength []) with 0%nat. cbv zeta. lia. }
  cbn [refRangeLoop]. rewrite pathLength_cons in *.
  destruct (refRangeStep_bounds ends i ps be P c) as [Hb' He']; try lia.
  cbv zeta in *.
  replace (c + (ALIGNPATH.length ps + pathLength rest))%nat
    with ((c + ALIGNPATH.length ps) + pathLength rest)%nat in * by lia.
  now apply IH.
Qed.

(** X19. When no position from [pos] minus the total of the segment
    lengths to [pos] plus that total leaves the range of [pos_t], the range
    that [matchifyEdgeSoftClipRefRange] returns holds [pos]: it begins at or
    before [pos], ends at or after it, and reaches no further than the
    total of the segment lengths on either side. *)
Theorem refRange_holds_pos (al : SimpleAlignment) :
  - 2 ^ 31 <= pos al - Z.of_nat (pathLength (path al)) ->
  pos al + Z.of_nat (pathLength (path al)) < 2 ^ 31 ->
  let r := matchifyEdgeSoftClipRefRange is_segment_type_read_length
             is_segment_type_ref_length get_match_edge_segments al in
  pos al - Z.of_nat (pathLength (path al)) <= begin_pos r <= pos al
  /\ pos al <= end_pos r <= pos al + Z.of_nat (pathLength (path al)).
Proof.
  intros Hlow Hhigh r. unfold r, matchifyEdgeSoftClipRefRange.
  cbn [begin_pos end_pos].
  apply (refRangeLoop_bounds _ (pos al) (path al) 0%nat (pos al, pos al) 0%nat);
    cbn [fst snd Nat.add]; lia.
Qed.

Lemma refRange_matchify_step (ends : nat * nat) (trail : bool) (i : nat)
    (ps : ALIGNPATH.path_segment) (be : Z * Z) (al2 : SimpleAlignment) :
  is_segment_type_read_length ALIGNPATH.SOFT_CLIP = true ->
  ((i < fst ends)%nat -> is_segment_type_read_length (ALIGNPATH.type ps) = true ->
   ALIGNPATH.type ps = ALIGNPATH.SOFT_CLIP) ->
  fst be = pos al2 ->
  fst (refRangeStep is_segment_type_read_length is_segment_type_ref_length ends i ps be)
  = pos (matchifyStep ends ALIGNPATH.SOFT_CLIP true trail i ps al2).
Proof.
  intros Hclip Hlead Hbe. unfold refRangeStep, matchifyStep. cbn [pos andb].
  destruct (Nat.ltb_spec i (fst ends)) as [Hlt|Hge]; cbn [orb andb].
  - destruct (bool_decide_reflect (ALIGNPATH.type ps = ALIGNPATH.SOFT_CLIP)) as [Hs|Hs].
    + rewrite Hs, Hclip. cbn [fst andb]. now rewrite Hbe.
    + destruct (is_segment_type_read_length (ALIGNPATH.type ps)) eqn:Hread.
      * now destruct Hs; apply Hlead.
      * cbn [andb]. exact Hbe.
  - rewrite andb_false_r.
    destruct (snd ends <? i)%nat;
      [destruct (is_segment_type_read_length (ALIGNPATH.type ps))
      |destruct (is_segment_type_ref_length (ALIGNPATH.type ps))];
      cbn [fst]; exact Hbe.
Qed.

Lemma refRange_matchify_loop (ends : nat * nat) (trail : bool)
    (segments : list ALIGNPATH.path_segment) :
  is_segment_type_read_length ALIGNPATH.SOFT_CLIP = true ->
  forall (i : nat) (be : Z * Z) (al2 : SimpleAlignment),
  (forall j s, segments !! j = Some s -> (i + j < fst ends)%nat ->
     is_segment_type_read_length (ALIGNPATH.type s) = true ->
     ALIGNPATH.type s = ALIGNPATH.SOFT_CLIP) ->
  fst be = pos al2 ->
  fst (refRangeLoop is_segment_type_read_length is_segment_type_ref_length
         ends i segments be)
  = pos (matchifyLoop ends ALIGNPATH.SOFT_CLIP true trail i segments al2).
Proof.
  intros Hclip. induction segments as [|ps rest IH]; intros i be al2 Hlead Hbe;
    [exact Hbe|].
  cbn [refRangeLoop matchifyLoop]. apply IH.
  - intros j s Hj Hlt. apply (Hlead (S j) s Hj). lia.
  - apply refRange_matchify_step; [exact Hclip| |exact Hbe].
    intros Hlt. apply (Hlead 0%nat ps eq_refl). lia.
Qed.

(** X20. The range of [matchifyEdgeSoftClipRefRange] begins where the
    alignment begins once its soft clips are turned into matches: for an
    alignment whose segments before the first match edge are soft clips
    whenever they have read length, the begin of the range is the position
    that [matchifyEdgeSegmentType] returns for SOFT_CLIP on the leading
    edge. *)
Theorem refRange_begins_at_matchified_pos (al al2 : SimpleAlignment)
    (isMatchTrailingEdge : bool) :
  (forall i s, path al !! i = Some s ->
     (i < fst (get_match_edge_segments (path al)))%nat ->
     is_segment_type_read_length (ALIGNPATH.type s) = true ->
     ALIGNPATH.type s = ALIGNPATH.SOFT_CLIP) ->
  matchifyEdgeSegmentType is_segment_type_read_length get_match_edge_segments
    al ALIGNPATH.SOFT_CLIP true isMatchTrailingEdge = Some al2 ->
  begin_pos (matchifyEdgeSoftClipRefRange is_segment_type_read_length
               is_segment_type_ref_length get_match_edge_segments al)
  = pos al2.
Proof.
  intros Hlead. unfold matchifyEdgeSegmentType, matchifyEdgeSoftClipRefRange.
  destruct (is_segment_type_read_length ALIGNPATH.SOFT_CLIP) eqn:Hclip; [|discriminate].
  intros Hrun. injection Hrun as <-. cbn [begin_pos].
  apply refRange_matchify_loop; [exact Hclip| |reflexivity].
  intros j s Hj Hlt. exact (Hlead j s Hj Hlt).
Qed.

End MatchifyFacts.

(** The theorems at an alignment of 5 soft-clipped bases, matches and 3
    soft-clipped bases at position 100, with MATCH, INSERT and SOFT_CLIP the
    segment types of read length, MATCH and DELETE those of reference
    length, and the match edges of the path. *)
Lemma matchify_no_adjacent_match_witness :
  adjMatchFree [JumpAligner.ALIGNPATH.mk_segment JumpAligner.ALIGNPATH.MATCH 20].
Proof.
  apply (matchify_no_adjacent_match
           (fun t => match t with
              | JumpAligner.ALIGNPATH.MATCH | JumpAligner.ALIGNPATH.INSERT
              | JumpAligner.ALIGNPATH.SOFT_CLIP => true
              | _ => false
              end)
           (fun _ => (1%nat, 2%nat))
           (Alignment.mk_sa true 3 100
       [JumpAligner.ALIGNPATH.mk_segment JumpAligner.ALIGNPATH.SOFT_CLIP 5;
        JumpAligner.ALIGNPATH.mk_segment JumpAligner.ALIGNPATH.MATCH 10;
        JumpAligner.ALIGNPATH.mk_segment JumpAligner.ALIGNPATH.MATCH 2;
        JumpAligner.ALIGNPATH.mk_segment JumpAligner.ALIGNPATH.SOFT_CLIP 3])
           (Alignment.mk_sa true 3 95
       [JumpAligner.ALIGNPATH.mk_segment JumpAligner.ALIGNPATH.MATCH 20])
           JumpAligner.ALIGNPATH.SOFT_CLIP true true).
  vm_compute. reflexivity.
Defined.

Lemma matchify_keeps_lengths_witness :
  pathLength [JumpAligner.ALIGNPATH.mk_segment JumpAligner.ALIGNPATH.MATCH 20]
  = pathLength [JumpAligner.ALIGNPATH.mk_segment JumpAligner.ALIGNPATH.SOFT_CLIP 5;
        JumpAligner.ALIGNPATH.mk_segment JumpAligner.ALIGNPATH.MATCH 10;
        JumpAligner.ALIGNPATH.mk_segment JumpAligner.ALIGNPATH.MATCH 2;
        JumpAligner.ALIGNPATH.mk_segment JumpAligner.ALIGNPATH.SOFT_CLIP 3].
Proof.
  apply (matchify_keeps_lengths
           (fun t => match t with
              | JumpAligner.ALIGNPATH.MATCH | JumpAligner.ALIGNPATH.INSERT
              | JumpAligner.ALIGNPATH.SOFT_CLIP => true
              | _ => false
              end)
           (fun _ => (1%nat, 2%nat))
           (Alignment.mk_sa true 3 100
       [JumpAligner.ALIGNPATH.mk_segment JumpAligner.ALIGNPATH.SOFT_CLIP 5;
        JumpAligner.ALIGNPATH.mk_segment JumpAligner.ALIGNPATH.MATCH 10;
        JumpAligner.ALIGNPATH.mk_segment JumpAligner.ALIGNPATH.MATCH 2;
        JumpAligner.ALIGNPATH.mk_segment JumpAligner.ALIGNPATH.SOFT_CLIP 3])
           (Alignment.mk_sa true 3 95
       [JumpAligner.ALIGNPATH.mk_segment JumpAligner.ALIGNPATH.MATCH 20])
           JumpAligner.ALIGNPATH.SOFT_CLIP true true).
  - vm_compute. reflexivity.
  - vm_compute. reflexivity.
Defined.

Lemma matchify_without_edges_witness :
  Alignment.pos (Alignment.mk_sa true 3 100
       [JumpAligner.ALIGNPATH.mk_segment JumpAligner.ALIGNPATH.SOFT_CLIP 5;
        JumpAligner.ALIGNPATH.mk_segment JumpAligner.ALIGNPATH.MATCH 12;
        JumpAligner.ALIGNPATH.mk_segment JumpAligner.ALIGNPATH.SOFT_CLIP 3]) = 100.
Proof.
  apply (matchify_without_edges
           (fun t => match t with
              | JumpAligner.ALIGNPATH.MATCH | JumpAligner.ALIGNPATH.INSERT
              | JumpAligner.ALIGNPATH.SOFT_CLIP => true
              | _ => false
              end)
           (fun _ => (1%nat, 2%nat))
           (Alignment.mk_sa true 3 100
       [JumpAligner.ALIGNPATH.mk_segment JumpAligner.ALIGNPATH.SOFT_CLIP 5;
        JumpAligner.ALIGNPATH.mk_segment JumpAligner.ALIGNPATH.MATCH 10;
        JumpAligner.ALIGNPATH.mk_segment JumpAligner.ALIGNPATH.MATCH 2;
        JumpAligner.ALIGNPATH.mk_segment JumpAligner.ALIGNPATH.SOFT_CLIP 3])
           (Alignment.mk_sa true 3 100
       [JumpAligner.ALIGNPATH.mk_segment JumpAligner.ALIGNPATH.SOFT_CLIP 5;
        JumpAligner.ALIGNPATH.mk_segment JumpAligner.ALIGNPATH.MATCH 12;
        JumpAligner.ALIGNPATH.mk_segment JumpAligner.ALIGNPATH.SOFT_CLIP 3])
           JumpAligner.ALIGNPATH.SOFT_CLIP).
  vm_compute. reflexivity.
Defined.

Lemma refRange_holds_pos_witness :
  100 - 20 <= 95 <= 100 /\ 100 <= 115 <= 100 + 20.
Proof.
  apply (refRange_holds_pos
           (fun t => match t with
              | JumpAligner.ALIGNPATH.MATCH | JumpAligner.ALIGNPATH.INSERT
              | JumpAligner.ALIGNPATH.SOFT_CLIP => true
              | _ => false
              end)
           (fun t => match t with
              | JumpAligner.ALIGNPATH.MATCH | JumpAligner.ALIGNPATH.DELETE => true
              | _ => false
              end)
           (fun _ => (1%nat, 2%nat))
           (Alignment.mk_sa true 3 100
       [JumpAligner.ALIGNPATH.mk_segment JumpAligner.ALIGNPATH.SOFT_CLIP 5;
        JumpAligner.ALIGNPATH.mk_segment JumpAligner.ALIGNPATH.MATCH 10;
        JumpAligner.ALIGNPATH.mk_segment JumpAligner.ALIGNPATH.MATCH 2;
        JumpAligner.ALIGNPATH.mk_segment JumpAligner.ALIGNPATH.SOFT_CLIP 3])).
  - vm_compute. discriminate.
  - vm_compute. reflexivity.
Defined.

Lemma refRange_begins_at_matchified_pos_witness :
  Alignment.begin_pos
    (Alignment.matchifyEdgeSoftClipRefRange
       (fun t => match t with
              | JumpAligner.ALIGNPATH.MATCH | JumpAligner.ALIGNPATH.INSERT
              | JumpAligner.ALIGNPATH.SOFT_CLIP => true
              | _ => false
              end)
       (fun t => match t with
              | JumpAligner.ALIGNPATH.MATCH | JumpAligner.ALIGNPATH.DELETE => true
              | _ => false
              end)
       (fun _ => (1%nat, 2%nat))
       (Alignment.mk_sa true 3 100
       [JumpAligner.ALIGNPATH.mk_segment JumpAligner.ALIGNPATH.SOFT_CLIP 5;
        JumpAligner.ALIGNPATH.mk_segment JumpAligner.ALIGNPATH.MATCH 10;
        JumpAligner.ALIGNPATH.mk_segment JumpAligner.ALIGNPATH.MATCH 2;
        JumpAligner.ALIGNPATH.mk_segment JumpAligner.ALIGNPATH.SOFT_CLIP 3]))
  = 95.
Proof.
  apply (refRange_begins_at_matchified_pos
           (fun t => match t with
              | JumpAligner.ALIGNPATH.MATCH | JumpAligner.ALIGNPATH.INSERT
              | JumpAligner.ALIGNPATH.SOFT_CLIP => true
              | _ => false
              end)
           (fun t => match t with
              | JumpAligner.ALIGNPATH.MATCH | JumpAligner.ALIGNPATH.DELETE => true
              | _ => false
              end)
           (fun _ => (1%nat, 2%nat))
           (Alignment.mk_sa true 3 100
       [JumpAligner.ALIGNPATH.mk_segment JumpAligner.ALIGNPATH.SOFT_CLIP 5;
        JumpAligner.ALIGNPATH.mk_segment JumpAligner.ALIGNPATH.MATCH 10;
        JumpAligner.ALIGNPATH.mk_segment JumpAligner.ALIGNPATH.MATCH 2;
        JumpAligner.ALIGNPATH.mk_segment JumpAligner.ALIGNPATH.SOFT_CLIP 3])
           (Alignment.mk_sa true 3 95
       [JumpAligner.ALIGNPATH.mk_segment JumpAligner.ALIGNPATH.MATCH 20])
           true).
  - intros [|i] s Hs Hlt _; [now injection Hs as <-|cbn in Hlt; lia].
  - vm_compute. reflexivity.
Defined.

(* ===================================================================== *)
(** * Equality and intersection of genome intervals                       *)
(* ===================================================================== *)

Section IntervalFacts.
Import Locus.

(** X21. [GenomeInterval::operator==] holds for equal intervals and for no
    others, whenever [operator==] of ranges does so for ranges. *)
Theorem GenomeInterval_eq_decides
    (range_eq : known_pos_range -> known_pos_range -> bool) :
  (forall a b, range_eq a b = true <-> a = b) ->
  forall x y, GenomeInterval_eq range_eq x y = true <-> x = y.
Proof.
  intros Hrange [tx rx] [ty ry]. unfold GenomeInterval_eq. cbn [tid range].
  rewrite andb_true_iff, Z.eqb_eq, Hrange. split.
  - intros [-> ->]. reflexivity.
  - intros H. injection H as -> ->. now split.
Qed.

(** X22. [GenomeInterval::isIntersect] does not depend on which of the two
    intervals it is called on, whenever [is_range_intersect] does not; and
    intervals that intersect lie on one chromosome. *)
Theorem isIntersect_symmetric
    (is_range_intersect : known_pos_range -> known_pos_range -> bool) :
  (forall a b, is_range_intersect a b = is_range_intersect b a) ->
  forall x y,
    isIntersect is_range_intersect x y = isIntersect is_range_intersect y x
    /\ (isIntersect is_range_intersect x y = true -> tid x = tid y).
Proof.
  intros Hsym x y. unfold isIntersect. rewrite (Z.eqb_sym (tid y) (tid x)).
  destruct (Z.eqb_spec (tid x) (tid y)) as [Heq|Hne]; cbn [negb].
  - split; [apply Hsym|]. intros _. exact Heq.
  - split; [reflexivity|discriminate].
Qed.

End IntervalFacts.

Lemma GenomeInterval_eq_decides_witness :
  Locus.GenomeInterval_eq
    (fun a b => (Locus.begin_pos a =? Locus.begin_pos b)
                && (Locus.end_pos a =? Locus.end_pos b))
    (Locus.mk_interval 1 (Locus.mk_range 10 20))
    (Locus.mk_interval 1 (Locus.mk_range 10 20)) = true.
Proof.
  apply (GenomeInterval_eq_decides
           (fun a b => (Locus.begin_pos a =? Locus.begin_pos b)
                       && (Locus.end_pos a =? Locus.end_pos b))).
  - intros [ba ea] [bb eb]. cbn [Locus.begin_pos Locus.end_pos].
    rewrite andb_true_iff, !Z.eqb_eq. split.
    + intros [-> ->]. reflexivity.
    + intros H. injection H as -> ->. now split.
  - reflexivity.
Defined.

Lemma isIntersect_symmetric_witness :
  Locus.isIntersect
    (fun a b => (Locus.begin_pos a <? Locus.end_pos b)
                && (Locus.begin_pos b <? Locus.end_pos a))
    (Locus.mk_interval 1 (Locus.mk_range 10 20))
    (Locus.mk_interval 1 (Locus.mk_range 15 30))
  = Locus.isIntersect
      (fun a b => (Locus.begin_pos a <? Locus.end_pos b)
                  && (Locus.begin_pos b <? Locus.end_pos a))
      (Locus.mk_interval 1 (Locus.mk_range 15 30))
      (Locus.mk_interval 1 (Locus.mk_range 10 20)).
Proof.
  apply (isIntersect_symmetric
           (fun a b => (Locus.begin_pos a <? Locus.end_pos b)
                       && (Locus.begin_pos b <? Locus.end_pos a))).
  intros a b. apply andb_comm.
Defined.
